(** * kontext: the manifest, the delta layer and the extractor

    A shallow embedding of [pkg/manifest/manifest.go], [cmd/kontext/main.go]
    and [cmd/extractor/main.go], with the properties the design document
    states about them.

    Go strings are byte strings: they are modelled as [string] (lists of
    8-bit [ascii]), compared bytewise as Go's [<] does.  Go maps are
    [gmap string _]; a nil map is [None]. *)

From Stdlib Require Import ZArith Zbitwise Ascii String List Sorting.Sorted Lia.
From stdpp Require Import base decidable option list sorting strings gmap fin_maps.

Local Open Scope Z_scope.
#[local] Arguments String.append !_ _ / : simpl nomatch.

(** ** Results of fallible code

    An operation returns normally, returns a Go [error], or panics
    (a run-time fault: assignment to a nil map, slice bounds out of range). *)

Inductive res (A : Type) : Type :=
  | Ok (a : A)
  | Err (msg : string)
  | Panic (msg : string).
Arguments Ok {A} a.
Arguments Err {A} msg.
Arguments Panic {A} msg.

Definition bind {A B} (r : res A) (k : A → res B) : res B :=
  match r with
  | Ok a => k a
  | Err e => Err e
  | Panic e => Panic e
  end.

Notation "'let*' x ':=' r 'in' k" := (bind r (λ x, k))
  (at level 10, x name, r at level 100, k at level 200).

(** ** Strings as Go sees them *)

Module Str.

Definition slash : ascii := "/"%char.
Definition dot : ascii := "."%char.

Definition len (s : string) : Z := Z.of_nat (String.length s).

(** [s[n:]] for [0 <= n <= len s]; the bounds check is the caller's. *)
Fixpoint drop (n : nat) (s : string) : string :=
  match n, s with
  | O, _ => s
  | S n, String _ s => drop n s
  | S _, EmptyString => EmptyString
  end.

Fixpoint take (n : nat) (s : string) : string :=
  match n, s with
  | S n, String c s => String c (take n s)
  | _, _ => EmptyString
  end.

(** [s[n:]], with Go's run-time bounds check. *)
Definition slice_from (s : string) (n : Z) : res string :=
  if bool_decide (0 ≤ n ≤ len s) then Ok (drop (Z.to_nat n) s)
  else Panic "slice bounds out of range".

(** [strings.Split(s, "/")]: the list is never empty. *)
Fixpoint split (s : string) : list string :=
  match s with
  | EmptyString => [EmptyString]
  | String c s =>
      if bool_decide (c = slash) then EmptyString :: split s
      else match split s with
           | x :: xs => String c x :: xs
           | [] => [String c EmptyString]
           end
  end.

(** [strings.Join(l, "/")]. *)
Fixpoint join (l : list string) : string :=
  match l with
  | [] => EmptyString
  | [x] => x
  | x :: l => x +:+ String slash (join l)
  end.

Fixpoint has_slash (s : string) : bool :=
  match s with
  | EmptyString => false
  | String c s => bool_decide (c = slash) || has_slash s
  end.

(** Index of the last ['/'] plus one: the length of the longest prefix that
    ends in a slash, [0] when there is none. *)
Fixpoint last_slash (s : string) : nat :=
  match s with
  | EmptyString => O
  | String c s =>
      if has_slash s then S (last_slash s)
      else if bool_decide (c = slash) then 1%nat else O
  end.

(** Strip the trailing slashes. *)
Fixpoint trim_slashes (s : string) : string :=
  match s with
  | EmptyString => EmptyString
  | String c s =>
      match trim_slashes s with
      | EmptyString => if bool_decide (c = slash) then EmptyString
                       else String c EmptyString
      | t => String c t
      end
  end.

Definition lt (a b : string) : Prop := String.ltb a b = true.

End Str.

(** ** [path/filepath] on a Unix-like system

    The lexical functions of Go's library which the program calls.  [Clean]
    follows the library's loop element by element: an empty element and [.]
    are dropped, [..] removes the element before it when there is one to
    remove, is dropped at the root, and is kept otherwise. *)

Module filepath.

Definition rooted (path : string) : bool :=
  match path with
  | String c _ => bool_decide (c = Str.slash)
  | EmptyString => false
  end.

Definition can_backtrack (out : list string) : bool :=
  match out with
  | top :: _ => bool_decide (top ≠ "..")
  | [] => false
  end.

(** [out] is the output written so far, last element first. *)
Fixpoint clean_elems (isrooted : bool) (out elems : list string) : list string :=
  match elems with
  | [] => out
  | e :: elems =>
      if bool_decide (e = "") then clean_elems isrooted out elems
      else if bool_decide (e = ".") then clean_elems isrooted out elems
      else if bool_decide (e = "..") then
        if can_backtrack out then clean_elems isrooted (tail out) elems
        else if isrooted then clean_elems isrooted out elems
        else clean_elems isrooted (".." :: out) elems
      else clean_elems isrooted (e :: out) elems
  end.

Definition render (isrooted : bool) (out : list string) : string :=
  if isrooted then String Str.slash (Str.join (rev out))
  else match out with
       | [] => "."
       | _ => Str.join (rev out)
       end.

Definition Clean (path : string) : string :=
  if bool_decide (path = "") then "."
  else render (rooted path) (clean_elems (rooted path) [] (Str.split path)).

(** [Join(a, b)]: empty leading elements are ignored, the rest is joined
    with slashes and cleaned. *)
Definition Join (a b : string) : string :=
  if bool_decide (a ≠ "") then Clean (a +:+ String Str.slash b)
  else if bool_decide (b ≠ "") then Clean b
  else "".

Definition Dir (path : string) : string :=
  Clean (Str.take (Str.last_slash path) path).

Definition Base (path : string) : string :=
  if bool_decide (path = "") then "."
  else
    let p := Str.trim_slashes path in
    let p := Str.drop (Str.last_slash p) p in
    if bool_decide (p = "") then "/" else p.

(** Shapes of cleaned paths, used to reason about [Clean], [Join] and [Dir]:
    an element proper is neither empty, [.] nor [..] and holds no slash; a
    cleaned path is a run of [..] elements (none when rooted) followed by
    elements proper. *)

Definition noslash (e : string) : Prop := Str.has_slash e = false.

Definition real (e : string) : Prop :=
  e ≠ "" ∧ e ≠ "." ∧ e ≠ ".." ∧ noslash e.

Definition clean_form (isrooted : bool) (l : list string) : Prop :=
  ∃ n rs, l = replicate n ".." ++ rs ∧ Forall real rs ∧
          (isrooted = true → n = 0%nat).

(** The path with the elements [l], first element first. *)
Definition build (isrooted : bool) (l : list string) : string :=
  render isrooted (rev l).

End filepath.

(** ** [pkg/manifest]: the Manifest *)

(** Go leaves the order in which [range] visits a map unspecified.  A
    [range_order] is one such order: some enumeration of the keys, each
    once. *)

Record range_order := {
  range_keys :> gmap string string → list string;
  range_keys_perm : ∀ files, range_keys files ≡ₚ (map_to_list files).*1
}.

Program Definition range_default : range_order :=
  {| range_keys files := (map_to_list files).*1 |}.
Next Obligation. done. Qed.

Program Definition range_reversed : range_order :=
  {| range_keys files := reverse (map_to_list files).*1 |}.
Next Obligation. intros files. apply reverse_Permutation. Qed.

Module manifest.

(** [Files] is [None] for the nil map of the zero value [Manifest{}]. *)
Record Manifest := { Files : option (gmap string string) }.

Definition normalize (path : string) : string := filepath.Clean path.

(** Reading a map: a nil map reads as an empty one. *)
Definition map_get (files : option (gmap string string)) (k : string)
  : option string :=
  match files with
  | Some f => f !! k
  | None => None
  end.

(** [files[k] = v]: assignment to an entry of a nil map panics. *)
Definition map_set (files : option (gmap string string)) (k v : string)
  : res (option (gmap string string)) :=
  match files with
  | Some f => Ok (Some (<[k := v]> f))
  | None => Panic "assignment to entry in nil map"
  end.

(** [delete(files, k)]: a no-op on a nil map. *)
Definition map_delete (files : option (gmap string string)) (k : string)
  : option (gmap string string) :=
  match files with
  | Some f => Some (delete k f)
  | None => None
  end.

Definition Has (m : Manifest) (path : string) : bool :=
  match map_get (Files m) (normalize path) with
  | Some _ => true
  | None => false
  end.

Definition Add (m : Manifest) (path hash : string) : res Manifest :=
  let files := match Files m with
               | None => Some ∅
               | Some f => Some f
               end in
  let* files := map_set files (normalize path) hash in
  Ok {| Files := files |}.

Definition Remove (m : Manifest) (path : string) : Manifest :=
  {| Files := map_delete (Files m) (normalize path) |}.

(** [sort.StringSlice.Sort]: ascending in Go's string order. *)
Definition sort_strings (l : list string) : list string :=
  merge_sort String.le l.

Definition Missing (order : range_order) (m : Manifest)
    (paths : list string) : list string :=
  let have : gset string := list_to_set (normalize <$> paths) in
  let keys := match Files m with
              | Some f => order f
              | None => []
              end in
  sort_strings (filter (λ key, key ∉ have) keys).

(** The mapping a Manifest stands for, and its keys. *)
Definition mapping (m : Manifest) : gmap string string :=
  default ∅ (Files m).

Definition keys (m : Manifest) : gset string := dom (mapping m).

Definition empty : Manifest := {| Files := None |}.

(** The invariant of the data model: every key is a normalized path. *)
Definition wf (m : Manifest) : Prop := ∀ k, k ∈ keys m → normalize k = k.

End manifest.

(** ** The file system the walk sees

    A tree of directory entries as [os.Lstat] reports them.  A symbolic link
    carries what it resolves to ([None] when it dangles); [Irregular] stands
    for devices, sockets and named pipes, and carries the bytes that reading
    it to the end gives ([None] when it cannot be opened or read; a read that
    never ends is not described). *)

(** Permission bits, which Go writes in octal. *)
Definition mode_0777 : Z := 511.
Definition mode_0555 : Z := 365.
Definition mode_0444 : Z := 292.

Module os.

#[local] Unset Elimination Schemes.
Inductive node :=
  | Reg (perm : Z) (data : string)
  | Dir (perm : Z) (entries : list (string * node))
  | Symlink (target : option node)
  | Irregular (perm : Z) (content : option string).
#[local] Set Elimination Schemes.

(** What the program reads off an [os.FileInfo]. *)
Record FileInfo := {
  IsDir : bool;
  IsRegular : bool;
  Perm : Z;
  Size : Z
}.

Definition Lstat (n : node) : FileInfo :=
  match n with
  | Reg perm data =>
      {| IsDir := false; IsRegular := true; Perm := perm; Size := Str.len data |}
  | Dir perm _ =>
      {| IsDir := true; IsRegular := false; Perm := perm; Size := 0 |}
  | Symlink _ =>
      {| IsDir := false; IsRegular := false; Perm := mode_0777; Size := 0 |}
  | Irregular perm _ =>
      {| IsDir := false; IsRegular := false; Perm := perm; Size := 0 |}
  end.

(** [os.Stat] follows symbolic links and fails on a dangling one. *)
Fixpoint Stat (n : node) : res FileInfo :=
  match n with
  | Symlink (Some target) => Stat target
  | Symlink None => Err "no such file or directory"
  | _ => Ok (Lstat n)
  end.

(** [os.Open] followed by reading to the end, through links: reading a
    directory fails, a device gives the bytes it has. *)
Fixpoint ReadAll (n : node) : res string :=
  match n with
  | Reg _ data => Ok data
  | Dir _ _ => Err "is a directory"
  | Symlink (Some target) => ReadAll target
  | Symlink None => Err "no such file or directory"
  | Irregular _ (Some data) => Ok data
  | Irregular _ None => Err "no such device or address"
  end.

(** [n] is the entry reached from [root] through the directories named by
    [names] (links are not followed, as in the walk). *)
Inductive at_path : node → list string → node → Prop :=
  | at_here n : at_path n [] n
  | at_child perm entries name child names n :
      (name, child) ∈ entries →
      at_path child names n →
      at_path (Dir perm entries) (name :: names) n.

(** Every name in the tree is one a directory can hold. *)
Definition valid_names (root : node) : Prop :=
  ∀ names n, at_path root names n → Forall filepath.real names.

(** No directory of the tree holds a name twice. *)
Definition unique_names (root : node) : Prop :=
  ∀ names perm entries,
    at_path root names (Dir perm entries) → NoDup entries.*1.

(** Two listings of one tree: every directory holds the same entries, which
    the system may hand out in any order. *)
#[local] Unset Elimination Schemes.
Inductive same_tree : node → node → Prop :=
  | same_Reg perm data : same_tree (Reg perm data) (Reg perm data)
  | same_Dir perm entries entries' listed :
      listed ≡ₚ entries' →
      Forall2 (λ e e', e.1 = e'.1 ∧ same_tree e.2 e'.2) entries listed →
      same_tree (Dir perm entries) (Dir perm entries')
  | same_Symlink_to target target' :
      same_tree target target' →
      same_tree (Symlink (Some target)) (Symlink (Some target'))
  | same_Symlink_dangling : same_tree (Symlink None) (Symlink None)
  | same_Irregular perm content :
      same_tree (Irregular perm content) (Irregular perm content).
#[local] Set Elimination Schemes.

(** The same name, for the same entry. *)
Definition same_entry (e e' : string * node) : Prop :=
  e.1 = e'.1 ∧ same_tree e.2 e'.2.

End os.

Definition name_le {A} (a b : string * A) : Prop := String.le a.1 b.1.

#[global] Instance name_le_dec {A} : RelDecision (@name_le A).
Proof. intros a b. unfold name_le. apply _. Defined.

#[global] Instance name_le_trans {A} : Transitive (@name_le A).
Proof. intros a b c. unfold name_le. apply transitivity. Qed.

#[global] Instance name_le_total {A} : Total (@name_le A).
Proof. intros a b. unfold name_le. apply total, _. Qed.

Module Walk.
Import os.

(** [filepath.Walk]: the function is called on the root with the path it was
    given, then on the entries of each directory in the order of their names,
    a directory before what it contains; an entry's path is
    [Join(path of its directory, name)].  Symbolic links are not followed.
    The result lists the calls in order. *)
Fixpoint walk (path : string) (n : node) {struct n} : list (string * node) :=
  (path, n) ::
  match n with
  | Dir _ entries =>
      let subs :=
        (fix each (es : list (string * node)) :=
           match es with
           | [] => []
           | (name, child) :: es => (name, λ p, walk p child) :: each es
           end) entries in
      flat_map (λ sub, sub.2 (filepath.Join path sub.1))
        (merge_sort name_le subs)
  | _ => []
  end.

End Walk.

(** ** [archive/tar]: what is written to an archive *)

Module tar.

Inductive flag := TypeReg | TypeDir.

Record Header := {
  Name : string;
  Size : Z;
  Typeflag : flag;
  Mode : Z
}.

(** An entry: the header and the bytes written after it. *)
Record Entry := { header : Header; body : string }.

#[global] Instance flag_eq_dec : EqDecision flag.
Proof. solve_decision. Defined.
#[global] Instance Header_eq_dec : EqDecision Header.
Proof. solve_decision. Defined.
#[global] Instance Entry_eq_dec : EqDecision Entry.
Proof. solve_decision. Defined.

End tar.

(** ** [unicode/utf8] *)

Module utf8.

Definition byte (c : ascii) : Z := Z.of_N (N_of_ascii c).

(** The conversion [byte(x)] of an integer: its low eight bits. *)
Definition chr (z : Z) : ascii := ascii_of_N (Z.to_N (z mod 256)).

Definition RuneError : Z := 0xFFFD.
Definition RuneSelf : Z := 0x80.
Definition MaxRune : Z := 0x10FFFF.
Definition surrogateMin : Z := 0xD800.
Definition surrogateMax : Z := 0xDFFF.

(** The table [first] with [acceptRanges]: what a first byte announces. *)
Inductive lead :=
  | Single
  | Invalid
  | Lead (size : nat) (lo hi : Z).

Definition first (b : Z) : lead :=
  if b <? 0x80 then Single
  else if b <? 0xC2 then Invalid
  else if b <? 0xE0 then Lead 2 0x80 0xBF
  else if b =? 0xE0 then Lead 3 0xA0 0xBF
  else if b <? 0xED then Lead 3 0x80 0xBF
  else if b =? 0xED then Lead 3 0x80 0x9F
  else if b <? 0xF0 then Lead 3 0x80 0xBF
  else if b =? 0xF0 then Lead 4 0x90 0xBF
  else if b <? 0xF4 then Lead 4 0x80 0xBF
  else if b =? 0xF4 then Lead 4 0x80 0x8F
  else Invalid.

Definition continuation (b : Z) : bool := (0x80 <=? b) && (b <=? 0xBF).

(** [DecodeRuneInString]: the rune at the head of [s] and its width in
    bytes; [(RuneError, 1)] for an invalid encoding. *)
Definition DecodeRune (s : string) : Z * nat :=
  match s with
  | EmptyString => (RuneError, 0%nat)
  | String c0 s1 =>
      let s0 := byte c0 in
      match first s0 with
      | Single => (s0, 1%nat)
      | Invalid => (RuneError, 1%nat)
      | Lead sz lo hi =>
          if (String.length s <? sz)%nat then (RuneError, 1%nat)
          else
            match s1 with
            | EmptyString => (RuneError, 1%nat)
            | String c1 s2 =>
                let b1 := byte c1 in
                if (b1 <? lo) || (hi <? b1) then (RuneError, 1%nat)
                else if (sz <=? 2)%nat then
                  (Z.lor (Z.shiftl (Z.land s0 0x1F) 6) (Z.land b1 0x3F), 2%nat)
                else
                  match s2 with
                  | EmptyString => (RuneError, 1%nat)
                  | String c2 s3 =>
                      let b2 := byte c2 in
                      if negb (continuation b2) then (RuneError, 1%nat)
                      else if (sz <=? 3)%nat then
                        (Z.lor (Z.lor (Z.shiftl (Z.land s0 0x0F) 12)
                                      (Z.shiftl (Z.land b1 0x3F) 6))
                               (Z.land b2 0x3F), 3%nat)
                      else
                        match s3 with
                        | EmptyString => (RuneError, 1%nat)
                        | String c3 _ =>
                            let b3 := byte c3 in
                            if negb (continuation b3) then (RuneError, 1%nat)
                            else
                              (Z.lor (Z.lor (Z.lor
                                 (Z.shiftl (Z.land s0 0x07) 18)
                                 (Z.shiftl (Z.land b1 0x3F) 12))
                                 (Z.shiftl (Z.land b2 0x3F) 6))
                                 (Z.land b3 0x3F), 4%nat)
                        end
                  end
            end
      end
  end.

Definition encode3 (r : Z) : string :=
  String (chr (Z.lor 0xE0 (Z.shiftr r 12)))
    (String (chr (Z.lor 0x80 (Z.land (Z.shiftr r 6) 0x3F)))
       (String (chr (Z.lor 0x80 (Z.land r 0x3F))) EmptyString)).

(** [EncodeRune]: the bytes of the rune; surrogates and values out of range
    are written as [RuneError]. *)
Definition EncodeRune (r : Z) : string :=
  let i := r mod 2 ^ 32 in
  if i <=? 0x7F then String (chr r) EmptyString
  else if i <=? 0x7FF then
    String (chr (Z.lor 0xC0 (Z.shiftr r 6)))
      (String (chr (Z.lor 0x80 (Z.land r 0x3F))) EmptyString)
  else if (MaxRune <? i) || ((surrogateMin <=? i) && (i <=? surrogateMax)) then
    encode3 RuneError
  else if i <=? 0xFFFF then encode3 r
  else
    String (chr (Z.lor 0xF0 (Z.shiftr r 18)))
      (String (chr (Z.lor 0x80 (Z.land (Z.shiftr r 12) 0x3F)))
         (String (chr (Z.lor 0x80 (Z.land (Z.shiftr r 6) 0x3F)))
            (String (chr (Z.lor 0x80 (Z.land r 0x3F))) EmptyString))).

(** [ValidString]. *)
Fixpoint valid_fuel (fuel : nat) (s : string) : bool :=
  match fuel, s with
  | _, EmptyString => true
  | O, _ => false
  | S fuel, String c rest =>
      if byte c <? RuneSelf then valid_fuel fuel rest
      else
        let '(r, size) := DecodeRune s in
        if (size =? 1)%nat then false
        else valid_fuel fuel (Str.drop size s)
  end.

Definition ValidString (s : string) : bool := valid_fuel (String.length s) s.

(** The runes of two, three and four bytes, as [DecodeRune] puts them
    together. *)
Definition rune2 (b0 b1 : Z) : Z :=
  Z.lor (Z.shiftl (Z.land b0 0x1F) 6) (Z.land b1 0x3F).
Definition rune3 (b0 b1 b2 : Z) : Z :=
  Z.lor (Z.lor (Z.shiftl (Z.land b0 0x0F) 12) (Z.shiftl (Z.land b1 0x3F) 6))
        (Z.land b2 0x3F).
Definition rune4 (b0 b1 b2 b3 : Z) : Z :=
  Z.lor (Z.lor (Z.lor (Z.shiftl (Z.land b0 0x07) 18)
                      (Z.shiftl (Z.land b1 0x3F) 12))
               (Z.shiftl (Z.land b2 0x3F) 6))
        (Z.land b3 0x3F).

(** What a first byte announces. *)
Definition lead_ok (b : Z) (sz : nat) (lo hi : Z) : Prop :=
  0x80 ≤ lo ∧ hi ≤ 0xBF ∧
  ((sz = 2%nat ∧ 0xC2 ≤ b ≤ 0xDF) ∨
   (sz = 3%nat ∧ 0xE0 ≤ b ≤ 0xEF ∧ (b = 0xE0 → lo = 0xA0) ∧ (b = 0xED → hi = 0x9F)) ∨
   (sz = 4%nat ∧ 0xF0 ≤ b ≤ 0xF4 ∧ (b = 0xF0 → lo = 0x90) ∧ (b = 0xF4 → hi = 0x8F))).

(** Every byte is at least [0x80]. *)
Fixpoint all_high (s : string) : Prop :=
  match s with
  | EmptyString => True
  | String c s => 0x80 ≤ byte c ∧ all_high s
  end.

End utf8.

(** ** [encoding/json], for the Manifest *)

Module json.
Import utf8 manifest.

Definition dquote : ascii := "034"%char.
Definition backslash : ascii := "\"%char.

Definition hex_digit (n : Z) : ascii :=
  match String.get (Z.to_nat n) "0123456789abcdef" with
  | Some c => c
  | None => "0"%char
  end.

(** [htmlSafeSet]: the ASCII bytes written as they are. *)
Definition htmlSafe (b : Z) : bool :=
  (0x20 <=? b) && (b <? 0x80) &&
  negb ((b =? 0x22) || (b =? 0x5C) || (b =? 0x3C) || (b =? 0x3E) || (b =? 0x26)).

(** How a byte below [RuneSelf] is written. *)
Definition escape_ascii (c : ascii) : string :=
  let b := byte c in
  if htmlSafe b then String c EmptyString
  else if (b =? 0x5C) || (b =? 0x22) then String backslash (String c EmptyString)
  else if b =? 0x0A then "\n"
  else if b =? 0x0D then "\r"
  else if b =? 0x09 then "\t"
  else "\u00" +:+ String (hex_digit (Z.shiftr b 4))
                   (String (hex_digit (Z.land b 0xF)) EmptyString).

(** The loop of [encodeState.string], one rune at a time: invalid bytes
    become the escape of U+FFFD, U+2028 and U+2029 are escaped, and the rest is copied. *)
Fixpoint string_body (fuel : nat) (s : string) : string :=
  match fuel, s with
  | _, EmptyString => EmptyString
  | O, _ => EmptyString
  | S fuel, String c rest =>
      if byte c <? RuneSelf then escape_ascii c +:+ string_body fuel rest
      else
        let '(r, size) := DecodeRune s in
        if (r =? RuneError) && (size =? 1)%nat then
          "\ufffd" +:+ string_body fuel rest
        else if (r =? 0x2028) || (r =? 0x2029) then
          "\u202" +:+ String (hex_digit (Z.land r 0xF))
                        (string_body fuel (Str.drop size s))
        else Str.take size s +:+ string_body fuel (Str.drop size s)
  end.

Definition quote (s : string) : string :=
  String dquote (string_body (String.length s) s +:+ String dquote EmptyString).

Definition key_le (a b : string * string) : Prop := String.le a.1 b.1.

#[global] Instance key_le_dec : RelDecision key_le.
Proof. intros a b. unfold key_le. apply _. Defined.

Fixpoint join_with (sep : string) (l : list string) : string :=
  match l with
  | [] => EmptyString
  | [x] => x
  | x :: l => x +:+ sep +:+ join_with sep l
  end.

Definition member (kv : string * string) : string :=
  quote kv.1 +:+ ":" +:+ quote kv.2.

(** The entries of a map with their keys in ascending order: the keys are
    collected by ranging over the map, then sorted. *)
Definition sorted_entries (order : range_order) (f : gmap string string)
  : list (string * string) :=
  merge_sort key_le ((λ k, (k, default "" (f !! k))) <$> order f).

(** [json.Marshal] of a [*Manifest]: the one field, named [files], is left
    out when the map is nil or empty; the keys are written in ascending
    order. *)
Definition Marshal (order : range_order) (m : Manifest) : string :=
  match Files m with
  | None => "{}"
  | Some f =>
      if bool_decide (size f = 0%nat) then "{}"
      else "{" +:+ quote "files" +:+ ":{" +:+
           join_with "," (member <$> sorted_entries order f) +:+ "}}"
  end.

(** *** Decoding *)

Inductive value :=
  | Null
  | Bool (b : bool)
  | Number (literal : string)
  | Str (s : string)
  | Arr (elements : list value)
  | Obj (members : list (string * value)).

Definition is_space (c : ascii) : bool :=
  let b := byte c in (b =? 0x20) || (b =? 0x09) || (b =? 0x0D) || (b =? 0x0A).

Fixpoint skip_space (s : string) : string :=
  match s with
  | String c rest => if is_space c then skip_space rest else s
  | EmptyString => s
  end.

Definition hex_value (c : ascii) : option Z :=
  let b := byte c in
  if (0x30 <=? b) && (b <=? 0x39) then Some (b - 0x30)
  else if (0x61 <=? b) && (b <=? 0x66) then Some (b - 0x61 + 10)
  else if (0x41 <=? b) && (b <=? 0x46) then Some (b - 0x41 + 10)
  else None.

(** [getu4]: the value of a [\uXXXX] at the head of [s], or [-1]. *)
Definition getu4 (s : string) : Z :=
  match s with
  | String c0 (String c1 (String h1 (String h2 (String h3 (String h4 _))))) =>
      if bool_decide (c0 = backslash) && bool_decide (c1 = "u"%char) then
        match hex_value h1, hex_value h2, hex_value h3, hex_value h4 with
        | Some a, Some b, Some c, Some d => ((a * 16 + b) * 16 + c) * 16 + d
        | _, _, _, _ => -1
        end
      else -1
  | _ => -1
  end.

Definition simple_escape (c : ascii) : bool :=
  let b := byte c in
  (b =? 0x62) || (b =? 0x66) || (b =? 0x6E) || (b =? 0x72) || (b =? 0x74) ||
  (b =? 0x5C) || (b =? 0x2F) || (b =? 0x22).

(** The scanner inside a string literal, after the opening quote: the bytes
    of the literal up to the closing quote, and what follows it. *)
Fixpoint scan_string (s : string) : res (string * string) :=
  match s with
  | EmptyString => Err "unexpected end of JSON input"
  | String c s1 =>
      if bool_decide (c = dquote) then Ok (EmptyString, s1)
      else if bool_decide (c = backslash) then
        match s1 with
        | EmptyString => Err "unexpected end of JSON input"
        | String e s2 =>
            if simple_escape e then
              let* r := scan_string s2 in
              Ok (String c (String e r.1), r.2)
            else if bool_decide (e = "u"%char) then
              match s2 with
              | String h1 (String h2 (String h3 (String h4 s6))) =>
                  match hex_value h1, hex_value h2, hex_value h3, hex_value h4 with
                  | Some _, Some _, Some _, Some _ =>
                      let* r := scan_string s6 in
                      Ok (String c (String e (String h1 (String h2
                            (String h3 (String h4 r.1))))), r.2)
                  | _, _, _, _ =>
                      Err "invalid character in \u hexadecimal character escape"
                  end
              | _ => Err "unexpected end of JSON input"
              end
            else Err "invalid character in string escape code"
        end
      else if byte c <? 0x20 then Err "invalid character in string literal"
      else
        let* r := scan_string s1 in
        Ok (String c r.1, r.2)
  end.

(** The first loop of [unquoteBytes]: how many bytes at the head need no
    unquoting. *)
Fixpoint plain_prefix (fuel : nat) (s : string) : nat :=
  match fuel, s with
  | S fuel, String c rest =>
      let b := byte c in
      if (b =? 0x5C) || (b =? 0x22) || (b <? 0x20) then O
      else if b <? RuneSelf then S (plain_prefix fuel rest)
      else
        let '(rr, size) := DecodeRune s in
        if (rr =? RuneError) && (size =? 1)%nat then O
        else (size + plain_prefix fuel (Str.drop size s))%nat
  | _, _ => O
  end.

Definition unescape (c : ascii) : option ascii :=
  let b := byte c in
  if (b =? 0x22) || (b =? 0x5C) || (b =? 0x2F) || (b =? 0x27) then Some c
  else if b =? 0x62 then Some (chr 0x08)
  else if b =? 0x66 then Some (chr 0x0C)
  else if b =? 0x6E then Some (chr 0x0A)
  else if b =? 0x72 then Some (chr 0x0D)
  else if b =? 0x74 then Some (chr 0x09)
  else None.

(** [utf16.DecodeRune]. *)
Definition utf16_DecodeRune (r1 r2 : Z) : Z :=
  if (0xD800 <=? r1) && (r1 <? 0xDC00) && (0xDC00 <=? r2) && (r2 <? 0xE000)
  then Z.lor (Z.shiftl (r1 - 0xD800) 10) (r2 - 0xDC00) + 0x10000
  else RuneError.

(** The second loop of [unquoteBytes]. *)
Fixpoint unquote_rest (fuel : nat) (s : string) : option string :=
  match fuel, s with
  | _, EmptyString => Some EmptyString
  | O, _ => None
  | S fuel, String c rest =>
      let b := byte c in
      if b =? 0x5C then
        match rest with
        | EmptyString => None
        | String e rest' =>
            if bool_decide (e = "u"%char) then
              let rr := getu4 s in
              if rr <? 0 then None
              else
                let s6 := Str.drop 6 s in
                if (0xD800 <=? rr) && (rr <? 0xE000) then
                  let dec := utf16_DecodeRune rr (getu4 s6) in
                  if negb (dec =? RuneError) then
                    t ← unquote_rest fuel (Str.drop 6 s6);
                    Some (EncodeRune dec +:+ t)
                  else
                    t ← unquote_rest fuel s6;
                    Some (EncodeRune RuneError +:+ t)
                else
                  t ← unquote_rest fuel s6;
                  Some (EncodeRune rr +:+ t)
            else
              match unescape e with
              | Some d => t ← unquote_rest fuel rest'; Some (String d t)
              | None => None
              end
        end
      else if (b =? 0x22) || (b <? 0x20) then None
      else if b <? RuneSelf then
        t ← unquote_rest fuel rest; Some (String c t)
      else
        let '(rr, size) := DecodeRune s in
        t ← unquote_rest fuel (Str.drop size s);
        Some (EncodeRune rr +:+ t)
  end.

Definition unquoteBytes (s : string) : option string :=
  let r := plain_prefix (String.length s) s in
  if (r =? String.length s)%nat then Some s
  else
    t ← unquote_rest (String.length s) (Str.drop r s);
    Some (Str.take r s +:+ t).

Definition is_digit (c : ascii) : bool :=
  let b := byte c in (0x30 <=? b) && (b <=? 0x39).

Fixpoint digits (s : string) : string * string :=
  match s with
  | String c rest =>
      if is_digit c then let r := digits rest in (String c r.1, r.2)
      else (EmptyString, s)
  | EmptyString => (EmptyString, s)
  end.

(** A number literal at the head of [s]. *)
Definition scan_number (s : string) : res (string * string) :=
  let '(sign, s) :=
    match s with
    | String "-"%char rest => ("-", rest)
    | _ => ("", s)
    end in
  let* int :=
    match s with
    | String "0"%char rest => Ok ("0", rest)
    | String c _ =>
        if is_digit c then Ok (digits s)
        else Err "invalid character in numeric literal"
    | EmptyString => Err "unexpected end of JSON input"
    end in
  let* frac :=
    match int.2 with
    | String "."%char rest =>
        match digits rest with
        | (EmptyString, _) => Err "invalid character after decimal point"
        | (ds, rest) => Ok ("." +:+ ds, rest)
        end
    | rest => Ok ("", rest)
    end in
  let* exp :=
    match frac.2 with
    | String c rest =>
        if bool_decide (c = "e"%char) || bool_decide (c = "E"%char) then
          let '(sg, rest) :=
            match rest with
            | String "+"%char r => ("+", r)
            | String "-"%char r => ("-", r)
            | _ => ("", rest)
            end in
          match digits rest with
          | (EmptyString, _) => Err "invalid character in exponent"
          | (ds, rest) => Ok (String c (sg +:+ ds), rest)
          end
        else Ok ("", frac.2)
    | EmptyString => Ok ("", frac.2)
    end in
  Ok (sign +:+ int.1 +:+ frac.1 +:+ exp.1, exp.2).

Definition expect (word : string) (v : value) (s : string)
  : res (value * string) :=
  if String.prefix word s then Ok (v, Str.drop (String.length word) s)
  else Err "invalid character in literal".

(** The next value of the input, and what follows it. *)
Fixpoint parse_value (fuel : nat) (s : string) : res (value * string) :=
  match fuel with
  | O => Err "exceeded max depth"
  | S fuel =>
      match skip_space s with
      | EmptyString => Err "unexpected end of JSON input"
      | String c rest =>
          if bool_decide (c = dquote) then
            let* r := scan_string rest in
            match unquoteBytes r.1 with
            | Some t => Ok (Str t, r.2)
            | None => Err "invalid string literal"
            end
          else if bool_decide (c = "{"%char) then
            match skip_space rest with
            | String "}"%char rest => Ok (Obj [], rest)
            | _ =>
                let* r := parse_members fuel rest in
                Ok (Obj r.1, r.2)
            end
          else if bool_decide (c = "["%char) then
            match skip_space rest with
            | String "]"%char rest => Ok (Arr [], rest)
            | _ =>
                let* r := parse_elements fuel rest in
                Ok (Arr r.1, r.2)
            end
          else if bool_decide (c = "t"%char) then expect "true" (Bool true) (String c rest)
          else if bool_decide (c = "f"%char) then expect "false" (Bool false) (String c rest)
          else if bool_decide (c = "n"%char) then expect "null" Null (String c rest)
          else if bool_decide (c = "-"%char) || is_digit c then
            let* r := scan_number (String c rest) in
            Ok (Number r.1, r.2)
          else Err "invalid character looking for beginning of value"
      end
  end
with parse_members (fuel : nat) (s : string)
  : res (list (string * value) * string) :=
  match fuel with
  | O => Err "exceeded max depth"
  | S fuel =>
      match skip_space s with
      | String c rest =>
          if bool_decide (c = dquote) then
            let* k := scan_string rest in
            match unquoteBytes k.1 with
            | None => Err "invalid string literal"
            | Some key =>
                match skip_space k.2 with
                | String ":"%char rest =>
                    let* v := parse_value fuel rest in
                    match skip_space v.2 with
                    | String ","%char rest =>
                        let* r := parse_members fuel rest in
                        Ok ((key, v.1) :: r.1, r.2)
                    | String "}"%char rest => Ok ([(key, v.1)], rest)
                    | _ => Err "invalid character after object key:value pair"
                    end
                | _ => Err "invalid character after object key"
                end
            end
          else Err "invalid character looking for beginning of object key string"
      | EmptyString => Err "unexpected end of JSON input"
      end
  end
with parse_elements (fuel : nat) (s : string)
  : res (list value * string) :=
  match fuel with
  | O => Err "exceeded max depth"
  | S fuel =>
      let* v := parse_value fuel s in
      match skip_space v.2 with
      | String ","%char rest =>
          let* r := parse_elements fuel rest in
          Ok (v.1 :: r.1, r.2)
      | String "]"%char rest => Ok ([v.1], rest)
      | _ => Err "invalid character after array element"
      end
  end.

(** [equalFoldRight] against the field name: ASCII letters match in either
    case, and [s] and [k] also match the long s and the Kelvin sign. *)
Fixpoint equalFoldRight (s t : string) : bool :=
  match s with
  | EmptyString => bool_decide (t = EmptyString)
  | String sc s' =>
      match t with
      | EmptyString => false
      | String tc t' =>
          let sb := byte sc in
          let tb := byte tc in
          if tb <? RuneSelf then
            if sb =? tb then equalFoldRight s' t'
            else
              let sbUpper := Z.land sb 0xDF in
              if (0x41 <=? sbUpper) && (sbUpper <=? 0x5A)
                 && (sbUpper =? Z.land tb 0xDF)
              then equalFoldRight s' t'
              else false
          else
            let '(tr, size) := DecodeRune t in
            if ((sb =? 0x73) || (sb =? 0x53)) && (tr =? 0x017F) then
              equalFoldRight s' (Str.drop size t)
            else if ((sb =? 0x6B) || (sb =? 0x4B)) && (tr =? 0x212A) then
              equalFoldRight s' (Str.drop size t)
            else false
      end
  end.

(** A member's key names the field [files]. *)
Definition is_files (key : string) : bool :=
  bool_decide (key = "files") || equalFoldRight "files" key.

(** Storing the members of an object into a [map[string]string]. *)
Fixpoint store_entries (f : gmap string string) (kvs : list (string * value))
  : res (gmap string string) :=
  match kvs with
  | [] => Ok f
  | (k, Str v) :: kvs => store_entries (<[k := v]> f) kvs
  | (k, Null) :: kvs => store_entries (<[k := ""]> f) kvs
  | _ :: _ => Err "cannot unmarshal into Go value of type string"
  end.

(** Storing the members of an object into a [Manifest]. *)
Fixpoint store_fields (m : Manifest) (members : list (string * value))
  : res Manifest :=
  match members with
  | [] => Ok m
  | (k, v) :: members =>
      if is_files k then
        match v with
        | Null => store_fields m members
        | Obj kvs =>
            let* f := store_entries (default ∅ (Files m)) kvs in
            store_fields {| Files := Some f |} members
        | _ => Err "cannot unmarshal into Go struct field Manifest.files"
        end
      else store_fields m members
  end.

Definition unmarshal (v : value) (m : Manifest) : res Manifest :=
  match v with
  | Null => Ok m
  | Obj members => store_fields m members
  | _ => Err "cannot unmarshal into Go value of type manifest.Manifest"
  end.

(** [json.NewDecoder(r).Decode(m)]: the first value of the input is decoded
    into [m]. *)
Definition Decode (input : string) (m : Manifest) : res Manifest :=
  let* r := parse_value (S (String.length input)) input in
  unmarshal r.1 m.

(** *** What the encoder and the decoder agree on *)

(** A string made of ASCII bytes and well-formed multi-byte sequences: what
    [ValidString] accepts. *)
Inductive wellformed : string → Prop :=
  | wf_nil : wellformed EmptyString
  | wf_ascii c s :
      byte c < RuneSelf → wellformed s → wellformed (String c s)
  | wf_rune c s r size :
      RuneSelf ≤ byte c → DecodeRune (String c s) = (r, size) →
      size ≠ 1%nat → wellformed (Str.drop size (String c s)) →
      wellformed (String c s).

(** The body of a string literal, between the quotes. *)
Definition enc (s : string) : string := string_body (String.length s) s.

(** How a byte below [0x80] is written: as it is, after a backslash, or as
    [\u00XY]. *)
Inductive escaped (c : ascii) : string → Prop :=
  | esc_safe :
      htmlSafe (byte c) = true → escaped c (String c "")
  | esc_short e :
      simple_escape e = true → e ≠ "u"%char → unescape e = Some c →
      escaped c (String backslash (String e ""))
  | esc_hex h1 h2 a b :
      hex_value h1 = Some a → hex_value h2 = Some b → a * 16 + b = byte c →
      escaped c (String backslash (String "u" (String "0" (String "0"
                   (String h1 (String h2 "")))))).


(** The members the decoder reads for entries written by [member]. *)
Definition as_members (entries : list (string * string))
  : list (string * value) :=
  (λ kv, (kv.1, Str kv.2)) <$> entries.

(** Every path and every digest is valid UTF-8. *)
Definition valid_strings (m : Manifest) : Prop :=
  map_Forall (λ k v, ValidString k = true ∧ ValidString v = true) (mapping m).

End json.

(** ** Content identity *)

(** [crypto/sha256] followed by [hex.EncodeToString]. *)
Class Hasher := sha256_hex : string → string.

(** [p] lies under the directory [d]: it is [d], a slash, and more. *)
Definition nested_under (d p : string) : Prop :=
  ∃ rest, p = d +:+ String Str.slash rest.

(** A stand-in for SHA-256, to run the model on examples. *)
Definition example_hasher : Hasher := λ data, "sha256:" +:+ data.

Definition BasePath : string := "/var/run/kontext".
Definition ManifestPath : string := "/var/lib/kontext/manifest.json".
Definition TargetPath : string := "/workspace".

(** ** [cmd/kontext]: the delta layer *)

Module kontext.
Import os manifest.

Section with_hasher.
Context `{Hasher}.

(** [manifest.Value] with [digest]: the empty string for a directory, the
    digest of the content otherwise. *)
Definition Value (n : node) (st : FileInfo) : res string :=
  if IsDir st then Ok ""
  else let* data := ReadAll n in Ok (sha256_hex data).

(** The variables [writeNewFiles] and its walk function share. *)
Record state := {
  m : Manifest;
  count : Z;
  allPaths : list string;
  tw : list tar.Entry
}.

Definition WriteHeader (s : state) (h : tar.Header) (data : string) : state :=
  {| m := m s; count := count s; allPaths := allPaths s;
     tw := tw s ++ [ {| tar.header := h; tar.body := data |} ] |}.

(** The path relative to the directory walked: [path[len(directory)+1:]],
    and [.] for the directory itself. *)
Definition relative (directory path : string) : res string :=
  if bool_decide (path ≠ directory)
  then Str.slice_from path (Str.len directory + 1)
  else Ok ".".

(** The function passed to [filepath.Walk].  The bytes copied after a header
    must fit the size it gives, which is the one [os.Stat] reported: the
    archive writer refuses more. *)
Definition visit (directory : string) (s : state) (e : string * node)
  : res state :=
  let '(path, n) := e in
  let* info := Stat n in
  let* i := Value n info in
  let* relativePath := relative directory path in
  let s := {| m := m s; count := count s;
              allPaths := allPaths s ++ [relativePath]; tw := tw s |} in
  if Has (m s) relativePath then Ok s
  else
    let* m' := Add (m s) relativePath i in
    let s := {| m := m'; count := count s + 1;
                allPaths := allPaths s; tw := tw s |} in
    let newPath := filepath.Join BasePath relativePath in
    if IsDir info then
      Ok (WriteHeader s
            {| tar.Name := newPath; tar.Size := 0; tar.Typeflag := tar.TypeDir;
               tar.Mode := mode_0555 |} "")
    else
      let* data := ReadAll n in
      let h := {| tar.Name := newPath; tar.Size := Size info;
                  tar.Typeflag := tar.TypeReg; tar.Mode := mode_0555 |} in
      if Str.len data <=? tar.Size h then Ok (WriteHeader s h data)
      else Err "archive/tar: write too long".

(** The walk stops at the first call that returns an error. *)
Fixpoint visit_all (directory : string) (s : state)
    (calls : list (string * node)) : res state :=
  match calls with
  | [] => Ok s
  | e :: calls => let* s := visit directory s e in visit_all directory s calls
  end.

(** The name of the whiteout file for a missing path. *)
Definition whiteout_name (missing : string) : string :=
  let newPath := filepath.Clean (filepath.Join BasePath missing) in
  let dir := filepath.Dir newPath in
  let base := ".wh." +:+ filepath.Base newPath in
  filepath.Join dir base.

(** The header of a whiteout file: empty, and no mode given. *)
Definition whiteout_header (missing : string) : tar.Header :=
  {| tar.Name := whiteout_name missing; tar.Size := 0;
     tar.Typeflag := tar.TypeReg; tar.Mode := 0 |}.

(** One turn of the loop over the missing paths. *)
Definition whiteout (s : state) (missing : string) : state :=
  let s := {| m := Remove (m s) missing; count := count s + 1;
              allPaths := allPaths s; tw := tw s |} in
  if negb (Has (m s) (filepath.Dir missing)) then s
  else WriteHeader s (whiteout_header missing) "".

Definition initial (m0 : Manifest) : state :=
  {| m := m0; count := 0; allPaths := []; tw := [] |}.

(** [writeNewFiles]: the archive, the count, and the Manifest as the call
    leaves it (it is updated in place through the pointer). *)
Definition writeNewFiles (order : range_order) (directory : string)
    (root : node) (m0 : Manifest) : res (list tar.Entry * Z * Manifest) :=
  let* s := visit_all directory (initial m0) (Walk.walk directory root) in
  let s := fold_left whiteout (Missing order (m s) (allPaths s)) s in
  Ok (tw s, count s, m s).

End with_hasher.
End kontext.

(** ** The registry, as the program uses it *)

Module remote.

(** A layer: the entries of its uncompressed archive; [Uncompressed] can
    fail. *)
Record Layer := {
  entries : list tar.Entry;
  Uncompressed_fails : bool
}.

Record Image := {
  layers : list Layer;
  Layers_fails : bool
}.

(** What lies outside the program: the registry, the parsing of references
    and the keychain. *)
Record World := {
  NewTag : string → res string;
  Image_at : string → res Image;
  Resolve : string → res string;
  Write : string → Image → string → res ()
}.

End remote.

Module kontext_main.
Import os manifest kontext remote.

Definition defaultBaseImage : string :=
  "gcr.io/mattmoor-public/github.com/mattmoor/kontext/cmd/extractor:latest".

(** What [main] does that can be told from outside, in order. *)
Inductive event :=
  | Fetched (ref : string)
  | Logged (msg : string)
  | WroteManifest (m : Manifest)
  | Pushing (ref : string) (img : Image).

Inductive exit :=
  | Returned
  | Fatal (msg : string)
  | Panicked (msg : string).

(** The loop over the archive of the last layer: the first entry named
    [ManifestPath] is decoded. *)
Fixpoint find_manifest (es : list tar.Entry) : option (res Manifest) :=
  match es with
  | [] => None
  | e :: es =>
      if bool_decide (tar.Name (tar.header e) ≠ ManifestPath)
      then find_manifest es
      else Some (json.Decode (tar.body e) {| Files := None |})
  end.

(** [findBaseImage], with the registry reads it made. *)
Definition findBaseImage (w : World) (targetTag : string)
  : list event * res (Image * Manifest) :=
  let fallback :=
    ([Fetched targetTag;
      Logged "Error accessing the target, falling back on a clean slate";
      Fetched defaultBaseImage],
     let* base := Image_at w defaultBaseImage in
     Ok (base, {| Files := None |})) in
  match Image_at w targetTag with
  | Ok base =>
      if Layers_fails base then fallback
      else
        match last (layers base) with
        | None => ([Fetched targetTag], Panic "index out of range")
        | Some jsonLayer =>
            if Uncompressed_fails jsonLayer then fallback
            else
              match find_manifest (entries jsonLayer) with
              | Some (Ok m) => ([Fetched targetTag], Ok (base, m))
              | Some _ => fallback
              | None => fallback
              end
        end
  | _ => fallback
  end.

(** [writeManifest]: an archive with the one file. *)
Definition writeManifest (order : range_order) (m : Manifest)
  : list tar.Entry :=
  let b := json.Marshal order m in
  [ {| tar.header := {| tar.Name := ManifestPath; tar.Size := Str.len b;
                        tar.Typeflag := tar.TypeReg; tar.Mode := mode_0555 |};
       tar.body := b |} ].

Definition layer_of (archive : list tar.Entry) : Layer :=
  {| entries := archive; Uncompressed_fails := false |}.

(** [combineImage]: the two layers are appended to the base. *)
Definition combineImage (base : Image) (layer mlayer : list tar.Entry) : Image :=
  {| layers := layers base ++ [layer_of layer; layer_of mlayer];
     Layers_fails := Layers_fails base |}.

Section with_hasher.
Context `{Hasher}.

(** [main], for the flags [directory] and [tag]; [root] is the tree at
    [directory], [None] when there is nothing there. *)
Definition main (order : range_order) (w : World) (directory tag : string)
    (root : option node) : list event * exit :=
  if bool_decide (directory = "") then
    ([], Fatal "Missing required flag: --directory")
  else if bool_decide (tag = "") then
    ([], Fatal "Missing required flag: --repo")
  else
    match NewTag w tag with
    | Ok targetTag =>
        match findBaseImage w targetTag with
        | (evs, Ok (base, m0)) =>
            match root with
            | None => (evs, Fatal "Error computing delta layer")
            | Some root =>
                match writeNewFiles order directory root m0 with
                | Ok (layer, delta, m') =>
                    if bool_decide (delta = 0) then
                      (evs ++ [Logged "No change in source context (or empty)"],
                       Returned)
                    else
                      let mlayer := writeManifest order m' in
                      let combinedImage := combineImage base layer mlayer in
                      match Resolve w targetTag with
                      | Ok auth =>
                          match Write w targetTag combinedImage auth with
                          | Ok _ =>
                              (evs ++ [WroteManifest m';
                                       Pushing targetTag combinedImage;
                                       Logged "Published"], Returned)
                          | _ =>
                              (evs ++ [WroteManifest m';
                                       Pushing targetTag combinedImage],
                               Fatal "Error publishing image")
                          end
                      | _ => (evs ++ [WroteManifest m'],
                              Fatal "Error getting creds")
                      end
                | Err _ => (evs, Fatal "Error computing delta layer")
                | Panic msg => (evs, Panicked msg)
                end
            end
        | (evs, Err _) => (evs, Fatal "Error finding base image")
        | (evs, Panic msg) => (evs, Panicked msg)
        end
    | _ => ([], Fatal "Invalid repo")
    end.

End with_hasher.
End kontext_main.

(** ** The workspace the extractor writes

    The entries of the file system the extractor writes to, by their cleaned
    absolute paths, which is how the extractor names them.  Two things are
    taken for granted throughout: the extractor runs as the root user of its
    container, so that permission bits are recorded and never deny access;
    and the file system holds directories and regular files only, no
    symbolic link that a path written would pass through.  New entries get
    the permission bits asked for, less those of the process's umask. *)

Module disk.

Inductive entry :=
  | File (perm : Z) (data : string)
  | Directory (perm : Z).

Abbreviation tree := (gmap string entry).

Definition is_dir (d : tree) (path : string) : bool :=
  match d !! path with
  | Some (Directory _) => true
  | _ => false
  end.

Section with_umask.
Context (umask : Z).

Definition created (perm : Z) : Z := Z.land perm (Z.lnot umask).

(** [os.Mkdir]. *)
Definition Mkdir (path : string) (perm : Z) (d : tree) : res tree :=
  match d !! path with
  | Some _ => Err "file exists"
  | None =>
      match d !! filepath.Dir path with
      | Some (Directory _) => Ok (<[path := Directory (created perm)]> d)
      | Some (File _ _) => Err "not a directory"
      | None => Err "no such file or directory"
      end
  end.

(** [os.MkdirAll]: nothing to do when the path is a directory already;
    otherwise the parent, which is the path up to its last separator, is
    made first, and then the directory itself.  The recursion is on a
    shorter path each time, [fuel] bounds it by the length of the path. *)
Fixpoint MkdirAll_from (fuel : nat) (path : string) (perm : Z) (d : tree)
  : res tree :=
  match d !! path with
  | Some (Directory _) => Ok d
  | Some (File _ _) => Err "not a directory"
  | None =>
      match fuel with
      | O => Err "file name too long"
      | S fuel =>
          let j := Str.last_slash (Str.trim_slashes path) in
          let* d :=
            if (1 <? j)%nat
            then MkdirAll_from fuel (Str.take (j - 1) path) perm d
            else Ok d in
          match Mkdir path perm d with
          | Ok d' => Ok d'
          | Err e => if is_dir d path then Ok d else Err e
          | Panic e => Panic e
          end
      end
  end.

Definition MkdirAll (path : string) (perm : Z) (d : tree) : res tree :=
  MkdirAll_from (String.length path) path perm d.

(** [os.OpenFile(path, O_RDWR|O_CREATE, perm)]: an existing file is opened
    as it is, a missing one is created empty. *)
Definition OpenFile (path : string) (perm : Z) (d : tree) : res tree :=
  match d !! path with
  | Some (File _ _) => Ok d
  | Some (Directory _) => Err "is a directory"
  | None =>
      match d !! filepath.Dir path with
      | Some (Directory _) => Ok (<[path := File (created perm) ""]> d)
      | Some (File _ _) => Err "not a directory"
      | None => Err "no such file or directory"
      end
  end.

(** Writing [data] from the start of an open file: the file is not
    truncated, what it held beyond the length of [data] stays. *)
Definition overwrite (data old : string) : string :=
  data +:+ Str.drop (String.length data) old.

Definition Write (path : string) (data : string) (d : tree) : tree :=
  match d !! path with
  | Some (File perm old) => <[path := File perm (overwrite data old)]> d
  | _ => d
  end.

End with_umask.
End disk.

(** ** [cmd/extractor] *)

Module extractor.
Import filepath os disk.

Record state := {
  files : tree;
  (** the relative paths logged as skipped *)
  skipped : list string
}.

Section with_umask.
Context (umask : Z).

(** [copy]: the source is opened and read to its end into the destination. *)
Definition copy (src : node) (dest : string) (info : FileInfo) (d : tree)
  : res tree :=
  let* data := ReadAll src in
  let* d := OpenFile umask dest (Perm info) d in
  Ok (Write dest data d).

(** The function passed to [filepath.Walk]; [info] is what [Lstat] gives. *)
Definition visit (s : state) (e : string * node) : res state :=
  let '(path, n) := e in
  if bool_decide (path = BasePath) then Ok s
  else
    let* relativePath := Str.slice_from path (Str.len BasePath + 1) in
    let target := filepath.Join TargetPath relativePath in
    let info := Lstat n in
    if IsDir info then
      let* d := MkdirAll umask target (Perm info) (files s) in
      Ok {| files := d; skipped := skipped s |}
    else if negb (IsRegular info) then
      Ok {| files := files s; skipped := skipped s ++ [relativePath] |}
    else
      let* d := MkdirAll umask (filepath.Dir target) mode_0444 (files s) in
      let* d := copy n target info d in
      Ok {| files := d; skipped := skipped s |}.

(** The walk stops at the first call that returns an error. *)
Fixpoint visit_all (s : state) (calls : list (string * node)) : res state :=
  match calls with
  | [] => Ok s
  | e :: calls => let* s := visit s e in visit_all s calls
  end.

(** [main]: the walk over the mount path; [root] is what is there, if
    anything.  An error ends the walk and is logged; what has been written
    by then is not described. *)
Definition main (root : option node) (d : tree) : res state :=
  match root with
  | None => Err "lstat /var/run/kontext: no such file or directory"
  | Some n =>
      visit_all {| files := d; skipped := [] |} (Walk.walk BasePath n)
  end.



End with_umask.

(** A workspace the extractor has not written to: the root directory is
    there, the workspace directory is there or is missing, and nothing is
    below it. *)
Definition vacant (d : tree) : Prop :=
  is_dir d "/" = true ∧
  (d !! TargetPath = None ∨ is_dir d TargetPath = true) ∧
  ∀ p, String.prefix (TargetPath +:+ "/") p = true → d !! p = None.

(** *** Following the walk

    The notions used to follow the walk of the extractor call by call. *)

(** The path of the entry reached by [names] from the workspace. *)
Definition under_target (names : list string) : string :=
  build true ("workspace" :: names).

(** What the workspace holds for the entry reached by [names]. *)
Definition at_target (s : state) (names : list string) : option entry :=
  files s !! under_target names.

(** What a part of the walk may change: only what [scope] holds of; the
    workspace directory itself is made when it is missing and is left alone
    otherwise; the log only grows. *)
Record effect (scope : list string → Prop) (s s' : state) : Prop := {
  effect_frame : ∀ l, Forall real l → l ≠ [] → ¬ scope l →
                      at_target s' l = at_target s l;
  effect_workspace :
    at_target s' [] = at_target s [] ∨
    (at_target s [] = None ∧ ∃ m, at_target s' [] = Some (Directory m));
  effect_root : files s' !! "/" = files s !! "/";
  effect_log : ∃ more, skipped s' = skipped s ++ more
}.

(** The entries at or under one of the children [subs] of the directory
    reached by [l]. *)
Definition under_children (l : list string) (subs : list (string * node))
    (l' : list string) : Prop :=
  ∃ name, name ∈ subs.*1 ∧ (l ++ [name]) `prefix_of` l'.


Section walk_invariants.
Context (umask : Z).

(** What the walk leaves for an entry [n] reached by [names], given what
    was there before. *)
Definition copied (n : node) (names : list string) (before : option entry)
    (s' : state) : Prop :=
  match n with
  | Dir perm _ =>
      match before with
      | None =>
          at_target s' names = Some (Directory (created umask perm)) ∧
          is_dir (files s') (under_target (removelast names)) = true
      | Some o => at_target s' names = Some o ∧ ∃ m, o = Directory m
      end
  | Reg perm data =>
      is_dir (files s') (under_target (removelast names)) = true ∧
      match before with
      | None => at_target s' names = Some (File (created umask perm) data)
      | Some (File m old) =>
          at_target s' names = Some (File m (overwrite data old))
      | Some (Directory _) => False
      end
  | _ => at_target s' names = before ∧ Str.join names ∈ skipped s'
  end.

(** What the walk of the tree [n], placed at [names ++ [x]], does. *)
Definition walk_ok (n : node) : Prop :=
  ∀ names x s s',
    Forall real (names ++ [x]) → valid_names n → unique_names n →
    names = [] ∨ is_dir (files s) (under_target names) = true →
    visit_all umask s (Walk.walk (fold_left Join (names ++ [x]) BasePath) n)
    = Ok s' →
    effect (prefix (names ++ [x])) s s' ∧
    ∀ ms e, at_path n ms e →
      copied e ((names ++ [x]) ++ ms) (at_target s ((names ++ [x]) ++ ms)) s'.


End walk_invariants.

End extractor.

(** ** Notions for the further properties *)

(** ** Sequences of updates of a Manifest *)

Module updates.
Import manifest.

Inductive update :=
  | Added (path hash : string)
  | Removed (path : string).

Definition apply (m : Manifest) (u : update) : res Manifest :=
  match u with
  | Added path hash => Add m path hash
  | Removed path => Ok (Remove m path)
  end.

Fixpoint apply_all (m : Manifest) (us : list update) : res Manifest :=
  match us with
  | [] => Ok m
  | u :: us => let* m := apply m u in apply_all m us
  end.

End updates.

(** A Manifest as [writeNewFiles] leaves it: every key is [.] or names
    proper joined by slashes. *)
Definition tidy (m : manifest.Manifest) : Prop :=
  ∀ k, k ∈ manifest.keys m →
       k = "." ∨ ∃ names, names ≠ [] ∧ Forall filepath.real names ∧
                          k = Str.join names.

(** The names of the archive that are at or below the mount path. *)
Definition under_mount (name : string) : Prop :=
  name = BasePath ∨ String.prefix (BasePath +:+ "/") name = true.

(** The elements of the mount path. *)
Definition mount : list string := ["var"; "run"; "kontext"].

Module extractor_frame.
Import filepath os disk extractor.

(** Two states of the file system that differ in the workspace only. *)
Definition same_outside (d d' : tree) : Prop :=
  ∀ p, String.prefix TargetPath p = false → d' !! p = d !! p.


Section with_umask.
Context (umask : Z).

(** The walk of the tree [n], placed at [names ++ [x]], leaves what is
    outside the workspace as it was. *)
Definition walk_inside (n : node) : Prop :=
  ∀ names x s s',
    Forall real (names ++ [x]) → valid_names n → unique_names n →
    names = [] ∨ is_dir (files s) (under_target names) = true →
    visit_all umask s (Walk.walk (fold_left Join (names ++ [x]) BasePath) n)
    = Ok s' →
    same_outside (files s) (files s').

End with_umask.
End extractor_frame.

Module extractor_log.
Import filepath os disk extractor.

Section with_umask.
Context (umask : Z).

(** What the walk of the tree [n], placed at [names ++ [x]], adds to the
    log of skipped files: relative paths of entries of [n] that are neither
    directories nor regular files. *)
Definition walk_skips (n : node) : Prop :=
  ∀ names x s s',
    Forall real (names ++ [x]) → valid_names n →
    visit_all umask s (Walk.walk (fold_left Join (names ++ [x]) BasePath) n)
    = Ok s' →
    ∃ more, skipped s' = skipped s ++ more ∧
      ∀ rel, rel ∈ more →
        ∃ ms e, at_path n ms e ∧ rel = Str.join ((names ++ [x]) ++ ms) ∧
                IsDir (Lstat e) = false ∧ IsRegular (Lstat e) = false.

End with_umask.
End extractor_log.

(** * Properties *)

Lemma bind_Ok {A B} (r : res A) (k : A → res B) b :
  bind r k = Ok b ↔ ∃ a, r = Ok a ∧ k a = Ok b.
Proof.
  destruct r as [a|e|e]; simpl; split.
  - intros Hk. by exists a.
  - by intros (a' & [= <-] & Hk).
  - discriminate.
  - by intros (a' & [=] & _).
  - discriminate.
  - by intros (a' & [=] & _).
Qed.

(** The library's own test tables for [Clean], [Dir] and [Base]. *)

Example Clean_table :
  map filepath.Clean
    ["abc"; "abc/def"; "a/b/c"; "."; ".."; "../.."; "../../abc"; "/abc"; "/";
     ""; "abc/"; "abc/def/"; "a/b/c/"; "./"; "../"; "../../"; "/abc/";
     "abc//def//ghi"; "abc//"; "abc/./def"; "/./abc/def"; "abc/.";
     "abc/def/ghi/../jkl"; "abc/def/../ghi/../jkl"; "abc/def/..";
     "abc/def/../.."; "/abc/def/../.."; "abc/def/../../..";
     "/abc/def/../../.."; "abc/def/../../../ghi/jkl/../../../mno"; "/../abc";
     "abc/./../def"; "abc//./../def"; "abc/../../././../def"]
  = ["abc"; "abc/def"; "a/b/c"; "."; ".."; "../.."; "../../abc"; "/abc"; "/";
     "."; "abc"; "abc/def"; "a/b/c"; "."; ".."; "../.."; "/abc";
     "abc/def/ghi"; "abc"; "abc/def"; "/abc/def"; "abc";
     "abc/def/jkl"; "abc/jkl"; "abc";
     "."; "/"; "..";
     "/"; "../../mno"; "/abc";
     "def"; "def"; "../../def"].
Proof. vm_compute. reflexivity. Qed.

Example Dir_table :
  map filepath.Dir
    [""; "."; "/."; "/"; "////"; "/foo"; "x/"; "abc"; "abc/def"; "a/b/.x";
     "a/b/c."; "a/b/c.x"]
  = ["."; "."; "/"; "/"; "/"; "/"; "x"; "."; "abc"; "a/b"; "a/b"; "a/b"].
Proof. vm_compute. reflexivity. Qed.

Example Base_table :
  map filepath.Base
    [""; "."; "/."; "/"; "////"; "x/"; "abc"; "abc/def"; "a/b/.x"; "a/b/c.";
     "a/b/c.x"]
  = ["."; "."; "."; "/"; "/"; "x"; "abc"; "def"; ".x"; "c."; "c.x"].
Proof. vm_compute. reflexivity. Qed.


(** ** Go's string order *)

Lemma str_compare_refl a : (a ?= a)%string = Eq.
Proof.
  induction a as [|c a IH]; simpl; [done|].
  unfold Ascii.compare. by rewrite N.compare_refl.
Qed.

Lemma str_lt_le_ne a b : Str.lt a b ↔ String.le a b ∧ a ≠ b.
Proof.
  unfold Str.lt, String.le, String.ltb, String.leb.
  destruct (a ?= b)%string eqn:E; simpl.
  - apply String.compare_eq_iff in E. split; [discriminate|]. by intros [_ []].
  - split; [intros _|done]. split; [done|]. intros ->.
    rewrite str_compare_refl in E. discriminate.
  - split; [discriminate|]. by intros [[] _].
Qed.

Lemma str_lt_irrefl a : ¬ Str.lt a a.
Proof. rewrite str_lt_le_ne. naive_solver. Qed.

Lemma str_lt_trans a b c : Str.lt a b → Str.lt b c → Str.lt a c.
Proof.
  rewrite !str_lt_le_ne. intros [Hab Hne] [Hbc Hne']. split.
  - by etrans.
  - intros ->. apply Hne. by apply (anti_symm String.le).
Qed.

Lemma sorted_le_NoDup_lt (l : list string) :
  StronglySorted String.le l → NoDup l → StronglySorted Str.lt l.
Proof.
  induction 1 as [|x l Hl IH Hx]; intros Hnd; [constructor|].
  apply NoDup_cons in Hnd as [Hnotin Hnd]. constructor; [auto|].
  apply Forall_forall. intros y Hy. apply str_lt_le_ne. split.
  - rewrite Forall_forall in Hx. auto.
  - intros ->. auto.
Qed.

(** ** The Manifest operations *)

Import manifest.

Lemma sort_strings_perm l : sort_strings l ≡ₚ l.
Proof. apply merge_sort_Permutation. Qed.

Lemma sort_strings_sorted l : StronglySorted String.le (sort_strings l).
Proof. apply StronglySorted_merge_sort; apply _. Qed.

Lemma elem_of_range_keys (order : range_order) (f : gmap string string) k :
  k ∈ order f ↔ k ∈ dom f.
Proof.
  rewrite (range_keys_perm order f), elem_of_dom, list_elem_of_fmap.
  split.
  - intros [[k' v] [-> Hkv]]. apply elem_of_map_to_list in Hkv. by exists v.
  - intros [v Hv]. exists (k, v). split; [done|]. by apply elem_of_map_to_list.
Qed.

Lemma NoDup_range_keys (order : range_order) (f : gmap string string) :
  NoDup (order f).
Proof. rewrite (range_keys_perm order f). apply NoDup_fst_map_to_list. Qed.

Lemma elem_of_Missing order m paths k :
  k ∈ Missing order m paths ↔ k ∈ keys m ∧ k ∉ normalize <$> paths.
Proof.
  unfold Missing, keys, mapping. rewrite sort_strings_perm, list_elem_of_filter.
  rewrite elem_of_list_to_set.
  destruct (Files m) as [f|]; simpl.
  - rewrite elem_of_range_keys. naive_solver.
  - rewrite dom_empty_L. set_solver.
Qed.

Lemma NoDup_Missing order m paths : NoDup (Missing order m paths).
Proof.
  unfold Missing. rewrite sort_strings_perm. apply NoDup_filter.
  destruct (Files m); [apply NoDup_range_keys | constructor].
Qed.

Lemma Missing_sorted order m paths :
  StronglySorted Str.lt (Missing order m paths).
Proof.
  apply sorted_le_NoDup_lt; [apply sort_strings_sorted | apply NoDup_Missing].
Qed.

(** C1. [Missing] returns exactly the keys of the Manifest that are not the
    normalized form of a path in [paths], each once, in strictly ascending
    order; no key it returns is (the normalized form of) a path in [paths]. *)
Theorem Missing_exact (order : range_order) (m : Manifest) (paths : list string) :
  (∀ k, k ∈ Missing order m paths ↔ k ∈ keys m ∧ k ∉ normalize <$> paths) ∧
  StronglySorted Str.lt (Missing order m paths) ∧
  NoDup (Missing order m paths) ∧
  (∀ k p, k ∈ Missing order m paths → p ∈ paths → normalize p ≠ k).
Proof.
  split; [intros k; apply elem_of_Missing|].
  split; [apply Missing_sorted|].
  split; [apply NoDup_Missing|].
  intros k p Hk Hp <-. apply elem_of_Missing in Hk as [_ Hk].
  apply Hk, list_elem_of_fmap. eauto.
Qed.

(** The result does not depend on the order in which the map is ranged over. *)
Lemma Missing_order_irrel (o1 o2 : range_order) m paths :
  Missing o1 m paths = Missing o2 m paths.
Proof.
  apply (StronglySorted_unique String.le);
    [apply sort_strings_sorted | apply sort_strings_sorted |].
  apply NoDup_Permutation; [apply NoDup_Missing | apply NoDup_Missing |].
  intros k. by rewrite !elem_of_Missing.
Qed.

(** C10. On the zero value, whose map is nil, no operation faults: [Has] is
    false, [Remove] changes nothing, [Missing] is empty, and [Add] makes the
    map before it stores the entry. *)
Theorem zero_value_total (order : range_order) (path hash : string)
    (paths : list string) :
  Has empty path = false ∧
  Remove empty path = empty ∧
  Missing order empty paths = [] ∧
  Add empty path hash = Ok {| Files := Some {[ normalize path := hash ]} |} ∧
  (∀ m, ∃ m', Add m path hash = Ok m' ∧ Has m' path = true).
Proof.
  repeat split.
  intros [[f|]]; eexists; (split; [reflexivity|]); unfold Has; simpl;
    by rewrite lookup_insert_eq.
Qed.

(** ** Splitting and joining at slashes *)

Lemma str_app_nil_r (a : string) : a +:+ "" = a.
Proof. induction a; simpl; congruence. Qed.

Lemma str_app_assoc (a b c : string) : (a +:+ b) +:+ c = a +:+ (b +:+ c).
Proof. induction a; simpl; congruence. Qed.

Lemma str_le_app (a b : string) : String.le a (a +:+ b).
Proof.
  unfold String.le, String.leb. induction a as [|c a IH]; simpl.
  - by destruct b.
  - unfold Ascii.compare. by rewrite N.compare_refl.
Qed.

Lemma split_nonempty s : Str.split s ≠ [].
Proof.
  destruct s as [|c s]; simpl; [done|].
  case_bool_decide; [done|]. by destruct (Str.split s).
Qed.

Lemma split_cons_noslash c s :
  c ≠ Str.slash →
  ∃ x xs, Str.split s = x :: xs ∧ Str.split (String c s) = String c x :: xs.
Proof.
  intros Hc. simpl. rewrite bool_decide_eq_false_2 by done.
  destruct (Str.split s) as [|x xs] eqn:E; [by apply split_nonempty in E|].
  eauto.
Qed.

Lemma split_app a b :
  Str.split (a +:+ String Str.slash b) = Str.split a ++ Str.split b.
Proof.
  induction a as [|c a IH]; simpl; [done|].
  case_bool_decide; [by rewrite IH|].
  rewrite IH. destruct (Str.split a) as [|x xs] eqn:E; [|done].
  by apply split_nonempty in E.
Qed.

Lemma split_noslash e : filepath.noslash e → Str.split e = [e].
Proof.
  unfold filepath.noslash. induction e as [|c e IH]; simpl; [done|].
  intros [Hc He]%orb_false_elim. case_bool_decide; [done|].
  by rewrite IH.
Qed.

Lemma split_all_noslash s : Forall filepath.noslash (Str.split s).
Proof.
  induction s as [|c s IH]; simpl; [by repeat constructor|].
  case_bool_decide as Hc; [by constructor|].
  destruct (Str.split s) as [|x xs] eqn:E; [by apply split_nonempty in E|].
  apply Forall_cons in IH as [Hx Hxs]. constructor; [|done].
  unfold filepath.noslash in *. simpl. by rewrite bool_decide_eq_false_2.
Qed.

Lemma join_cons x l : l ≠ [] → Str.join (x :: l) = x +:+ String Str.slash (Str.join l).
Proof. by destruct l. Qed.

Lemma join_snoc l x :
  l ≠ [] → Str.join (l ++ [x]) = Str.join l +:+ String Str.slash x.
Proof.
  induction l as [|y l IH]; [done|]. intros _.
  destruct l as [|z l]; [done|].
  change ((y :: z :: l) ++ [x]) with (y :: ((z :: l) ++ [x])).
  rewrite !join_cons by (by destruct l). rewrite IH by done.
  by rewrite str_app_assoc.
Qed.

Lemma split_join l :
  l ≠ [] → Forall filepath.noslash l → Str.split (Str.join l) = l.
Proof.
  induction l as [|x l IH]; [done|]. intros _ [Hx Hl]%Forall_cons.
  destruct l as [|y l]; [by apply split_noslash|].
  rewrite join_cons by done. rewrite split_app, IH by done.
  by rewrite split_noslash.
Qed.

Lemma has_slash_app a b :
  Str.has_slash (a +:+ b) = Str.has_slash a || Str.has_slash b.
Proof. induction a as [|c a IH]; simpl; [done|]. by rewrite IH, orb_assoc. Qed.

Lemma last_slash_noslash x : filepath.noslash x → Str.last_slash x = 0%nat.
Proof.
  unfold filepath.noslash. induction x as [|c x IH]; simpl; [done|].
  intros [Hc Hx]%orb_false_elim. rewrite Hx. by rewrite Hc.
Qed.

Lemma take_app_length a b : Str.take (String.length a) (a +:+ b) = a.
Proof. induction a as [|c a IH]; simpl; [by destruct b|]. by rewrite IH. Qed.

Lemma last_slash_app a x :
  filepath.noslash x →
  Str.last_slash (a +:+ String Str.slash x) = S (String.length a).
Proof.
  intros Hx. induction a as [|c a IH]; simpl.
  - by rewrite Hx.
  - rewrite has_slash_app. simpl. rewrite orb_true_r. by rewrite IH.
Qed.

Lemma take_last_slash_app a x :
  filepath.noslash x →
  Str.take (Str.last_slash (a +:+ String Str.slash x)) (a +:+ String Str.slash x)
  = a +:+ String Str.slash "".
Proof.
  intros Hx. rewrite last_slash_app by done.
  replace (S (String.length a)) with (String.length (a +:+ String Str.slash "")).
  - replace (a +:+ String Str.slash x) with ((a +:+ String Str.slash "") +:+ x).
    + apply take_app_length.
    + by rewrite str_app_assoc.
  - induction a as [|c a IH]; simpl; [done|]. by rewrite IH.
Qed.

(** ** [Clean] and the shape of cleaned paths *)

Import filepath.

Lemma real_noslash e : real e → noslash e.
Proof. by intros (_ & _ & _ & ?). Qed.

Lemma clean_form_noslash r l : clean_form r l → Forall noslash l.
Proof.
  intros (n & rs & -> & Hrs & _). apply Forall_app. split.
  - apply Forall_forall. by intros x ->%elem_of_replicate_inv.
  - eapply Forall_impl; [done|]. apply real_noslash.
Qed.

Lemma clean_elems_app r out l1 l2 :
  clean_elems r out (l1 ++ l2) = clean_elems r (clean_elems r out l1) l2.
Proof.
  revert out. induction l1 as [|e l1 IH]; intros out; simpl; [done|].
  repeat case_bool_decide; repeat case_match; auto.
Qed.

Lemma clean_elems_real r out rs :
  Forall real rs → clean_elems r out rs = rev rs ++ out.
Proof.
  intros Hrs. revert out. induction Hrs as [|e rs (? & ? & ? & ?) _ IH];
    intros out; simpl; [done|].
  rewrite !bool_decide_eq_false_2 by done. rewrite IH.
  by rewrite <- app_assoc.
Qed.

Lemma clean_elems_dotdots k n :
  clean_elems false (replicate k "..") (replicate n "..")
  = replicate (n + k) "..".
Proof.
  revert k. induction n as [|n IH]; intros k; simpl; [done|].
  replace (can_backtrack (replicate k "..")) with false by by destruct k.
  change (".." :: replicate k "..") with (replicate (S k) "..").
  rewrite IH. by replace (n + S k)%nat with (S (n + k)) by lia.
Qed.

Lemma rev_replicate {A} n (x : A) : rev (replicate n x) = replicate n x.
Proof.
  induction n as [|n IH]; simpl; [done|]. rewrite IH.
  change [x] with (replicate 1 x). rewrite <- replicate_add.
  by replace (n + 1)%nat with (S n) by lia.
Qed.

Lemma clean_elems_form r l : clean_form r l → clean_elems r [] l = rev l.
Proof.
  intros (n & rs & -> & Hrs & Hr). rewrite clean_elems_app.
  destruct r.
  - rewrite Hr by done. simpl. rewrite clean_elems_real by done.
    apply app_nil_r.
  - pose proof (clean_elems_dotdots 0 n) as Hd. simpl in Hd.
    rewrite Hd, clean_elems_real by done.
    rewrite rev_app_distr, rev_replicate. by replace (n + 0)%nat with n by lia.
Qed.

(** The output of the loop, last element first, always has the shape of a
    cleaned path. *)
Lemma clean_elems_shape r out es :
  (∃ n rs, out = rs ++ replicate n ".." ∧ Forall real rs ∧
           (r = true → n = 0%nat)) →
  Forall noslash es →
  ∃ n rs, clean_elems r out es = rs ++ replicate n ".." ∧ Forall real rs ∧
          (r = true → n = 0%nat).
Proof.
  intros Hout Hes. revert out Hout.
  induction Hes as [|e es He _ IH]; intros out Hout; simpl; [done|].
  case_bool_decide as E1; [by apply IH|].
  case_bool_decide as E2; [by apply IH|].
  destruct Hout as (n & rs & -> & Hrs & Hr).
  case_bool_decide as E3.
  - destruct rs as [|top rs]; simpl.
    + replace (can_backtrack (replicate n "..")) with false by by destruct n.
      destruct r.
      * apply IH. exists n, []. by rewrite Hr.
      * apply IH. by exists (S n), [].
    + apply Forall_cons in Hrs as [(? & ? & ? & ?) Hrs].
      rewrite bool_decide_eq_true_2 by done. apply IH. by exists n, rs.
  - apply IH. exists n, (e :: rs). split; [done|]. split; [|done].
    by constructor.
Qed.

(** [Clean] returns a path of the cleaned shape. *)
Lemma Clean_shape p : ∃ l, clean_form (rooted p) l ∧ Clean p = build (rooted p) l.
Proof.
  unfold Clean. case_bool_decide as Hp.
  - subst p. exists []. split; [|done]. by exists 0%nat, [].
  - destruct (clean_elems_shape (rooted p) [] (Str.split p))
      as (n & rs & Hout & Hrs & Hr); [by exists 0%nat, [] | apply split_all_noslash |].
    exists (rev (clean_elems (rooted p) [] (Str.split p))). split.
    + exists n, (rev rs). rewrite Hout, rev_app_distr, rev_replicate.
      split; [done|]. split; [|done]. by apply Forall_rev.
    + unfold build. by rewrite rev_involutive.
Qed.

Lemma build_rooted l : build true l = String Str.slash (Str.join l).
Proof. unfold build, render. by rewrite rev_involutive. Qed.

Lemma build_relative l : l ≠ [] → build false l = Str.join l.
Proof.
  intros Hl. unfold build, render. rewrite rev_involutive.
  destruct (rev l) eqn:E; [|done].
  apply (f_equal (@rev string)) in E. rewrite rev_involutive in E. done.
Qed.

Lemma join_head_noslash x l :
  x ≠ "" → noslash x → Str.join (x :: l) ≠ "" ∧ rooted (Str.join (x :: l)) = false.
Proof.
  intros Hx Hs. destruct x as [|c x]; [done|].
  assert (rooted (String c x) = false) as Hr.
  { unfold noslash in Hs. simpl in *. by apply orb_false_elim in Hs as [-> _]. }
  destruct l; simpl; [done|]. split; [done|]. apply Hr.
Qed.

Lemma clean_form_head r x l : clean_form r (x :: l) → x ≠ "" ∧ noslash x.
Proof.
  intros (n & rs & E & Hrs & _). destruct n as [|n]; simpl in E.
  - destruct rs as [|y rs]; simplify_eq. apply Forall_cons in Hrs as [(?&?&?&?) _].
    done.
  - by simplify_eq.
Qed.

Lemma build_nonempty r l : clean_form r l → build r l ≠ "" ∧ rooted (build r l) = r.
Proof.
  intros Hl. destruct r; [by rewrite build_rooted|].
  destruct l as [|x l]; [done|]. rewrite build_relative by done.
  apply clean_form_head in Hl as [??]. by apply join_head_noslash.
Qed.

Lemma split_build r l :
  clean_form r l → clean_elems r [] (Str.split (build r l)) = rev l.
Proof.
  intros Hl. destruct r.
  - rewrite build_rooted. simpl. destruct l as [|x l]; [done|].
    rewrite split_join; [by apply clean_elems_form|done|].
    by eapply clean_form_noslash.
  - destruct l as [|x l]; [done|]. rewrite build_relative by done.
    rewrite split_join; [by apply clean_elems_form|done|].
    by eapply clean_form_noslash.
Qed.

Lemma Clean_build r l : clean_form r l → Clean (build r l) = build r l.
Proof.
  intros Hl. destruct (build_nonempty r l Hl) as [Hne Hr].
  unfold Clean. rewrite bool_decide_eq_false_2 by done.
  rewrite Hr, split_build by done. done.
Qed.

Lemma Clean_idem p : Clean (Clean p) = Clean p.
Proof.
  destruct (Clean_shape p) as (l & Hl & ->). by apply Clean_build.
Qed.

Lemma rooted_app a b : a ≠ "" → rooted (a +:+ b) = rooted a.
Proof. by destruct a. Qed.

Lemma str_app_nonempty a b : a ≠ "" → a +:+ b ≠ "".
Proof. by destruct a. Qed.

(** Cleaning a cleaned path followed by more elements. *)
Lemma Clean_build_app r l b :
  clean_form r l →
  Clean (build r l +:+ String Str.slash b)
  = render r (clean_elems r (rev l) (Str.split b)).
Proof.
  intros Hl. destruct (build_nonempty r l Hl) as [Hne Hr].
  unfold Clean. rewrite bool_decide_eq_false_2 by by apply str_app_nonempty.
  rewrite rooted_app, Hr by done.
  by rewrite split_app, clean_elems_app, split_build.
Qed.

Lemma clean_form_snoc r l x : clean_form r l → real x → clean_form r (l ++ [x]).
Proof.
  intros (n & rs & -> & Hrs & Hr) Hx. exists n, (rs ++ [x]).
  rewrite app_assoc. split; [done|]. split; [|done].
  apply Forall_app. split; [done|]. by constructor.
Qed.

Lemma clean_form_init r l x : clean_form r (l ++ [x]) → clean_form r l ∧ noslash x.
Proof.
  intros Hl. split.
  - destruct Hl as (n & rs & E & Hrs & Hr).
    destruct rs as [|y rs _] using rev_ind.
    + rewrite app_nil_r in E. destruct n as [|n]; [by destruct l|].
      exists n, []. rewrite app_nil_r. split; [|split; [done|]].
      * rewrite <- rev_replicate in E. simpl in E. rewrite rev_replicate in E.
        by apply app_inj_tail in E as [-> _].
      * intros Hr'. by specialize (Hr Hr').
    + rewrite app_assoc in E. apply app_inj_tail in E as [-> ->].
      apply Forall_app in Hrs as [Hrs _]. by exists n, rs.
  - apply clean_form_noslash in Hl. apply Forall_app in Hl as [_ Hx].
    by apply Forall_cons in Hx as [? _].
Qed.

(** [Join] of a cleaned path and one more element. *)
Lemma Join_build r l x :
  clean_form r l → real x → Join (build r l) x = build r (l ++ [x]).
Proof.
  intros Hl Hx. destruct (build_nonempty r l Hl) as [Hne _].
  unfold Join. rewrite bool_decide_eq_true_2 by done.
  rewrite Clean_build_app by done.
  rewrite split_noslash by by apply real_noslash.
  rewrite clean_elems_real by by constructor.
  unfold build. by rewrite rev_app_distr.
Qed.

Lemma build_snoc r l x :
  l ≠ [] → build r (l ++ [x]) = build r l +:+ String Str.slash x.
Proof.
  intros Hl. destruct r.
  - rewrite !build_rooted, join_snoc by done. done.
  - rewrite !build_relative by (by destruct l). by apply join_snoc.
Qed.

(** [Dir] of a cleaned path is cleaned, and is either [.] or a prefix of the
    path. *)
Lemma Dir_build r l :
  clean_form r l →
  Dir (build r l) = "." ∨ ∃ t, build r l = Dir (build r l) +:+ t.
Proof.
  intros Hl. destruct l as [|x l' _] using rev_ind.
  - destruct r; [right; by exists ""|by left].
  - apply clean_form_init in Hl as [Hl' Hx]. unfold Dir.
    destruct l' as [|y l'].
    + destruct r.
      * right. exists x. rewrite build_rooted.
        change (Str.join ([] ++ [x])) with x.
        pose proof (take_last_slash_app "" x Hx) as Ht.
        change ("" +:+ String Str.slash x) with (String Str.slash x) in Ht.
        by rewrite Ht.
      * left. rewrite build_relative by done.
        change (Str.join ([] ++ [x])) with x.
        by rewrite last_slash_noslash.
    + right. exists (String Str.slash x).
      rewrite build_snoc by done.
      rewrite take_last_slash_app by done.
      rewrite Clean_build_app by done. simpl.
      unfold build. done.
Qed.

Lemma Dir_clean p :
  Clean p = p →
  Clean (Dir p) = Dir p ∧ (Dir p = "." ∨ String.le (Dir p) p).
Proof.
  intros Hp. split; [apply Clean_idem|].
  destruct (Clean_shape p) as (l & Hl & E). rewrite Hp in E. rewrite E.
  destruct (Dir_build _ _ Hl) as [?|[t Ht]]; [by left|right].
  rewrite Ht at 2. apply str_le_app.
Qed.

(** ** The Manifest as a mapping *)

Lemma Has_keys m p : Has m p = true ↔ normalize p ∈ keys m.
Proof.
  unfold Has, keys, mapping, map_get. rewrite elem_of_dom.
  destruct (Files m) as [f|]; simpl.
  - destruct (f !! normalize p); split; try done; by intros [? [=]].
  - rewrite lookup_empty. split; [done|]. by intros [? [=]].
Qed.

Lemma Has_false_keys m p : Has m p = false ↔ normalize p ∉ keys m.
Proof. rewrite <- Has_keys. by destruct (Has m p). Qed.

Lemma Add_Ok m p h :
  ∃ m', Add m p h = Ok m' ∧ mapping m' = <[normalize p := h]> (mapping m).
Proof. destruct m as [[f|]]; eexists; (split; [reflexivity|done]). Qed.

Lemma Add_mapping m p h m' :
  Add m p h = Ok m' → mapping m' = <[normalize p := h]> (mapping m).
Proof.
  destruct (Add_Ok m p h) as (m'' & E & Hm). rewrite E. by intros [= <-].
Qed.

Lemma Remove_mapping m p :
  mapping (Remove m p) = delete (normalize p) (mapping m).
Proof.
  destruct m as [[f|]]; simpl; [done|]. unfold mapping. simpl.
  by rewrite delete_empty.
Qed.

Lemma keys_Add m p h m' : Add m p h = Ok m' → keys m' = {[normalize p]} ∪ keys m.
Proof. intros E. unfold keys. rewrite (Add_mapping _ _ _ _ E). apply dom_insert_L. Qed.

Lemma keys_Remove m p : keys (Remove m p) = keys m ∖ {[normalize p]}.
Proof. unfold keys. rewrite Remove_mapping. apply dom_delete_L. Qed.

Lemma normalize_idem p : normalize (normalize p) = normalize p.
Proof. apply Clean_idem. Qed.

Lemma wf_Add m p h m' : wf m → Add m p h = Ok m' → wf m'.
Proof.
  intros Hwf E k. rewrite (keys_Add _ _ _ _ E), elem_of_union, elem_of_singleton.
  intros [->|Hk]; [apply normalize_idem | by apply Hwf].
Qed.

Lemma wf_Remove m p : wf m → wf (Remove m p).
Proof.
  intros Hwf k. rewrite keys_Remove, elem_of_difference. intros [Hk _].
  by apply Hwf.
Qed.

(** ** The walk function and the loop over the missing paths *)

Section delta.
Context `{Hasher}.
Import kontext os.

Ltac inv_bind H :=
  let x := fresh "x" in let Hx := fresh "Hx" in
  apply bind_Ok in H as (x & Hx & H).

(** What one call of the walk function does. *)
Lemma visit_inv directory s path n s' :
  visit directory s (path, n) = Ok s' →
  ∃ info i rel,
    Stat n = Ok info ∧ Value n info = Ok i ∧
    relative directory path = Ok rel ∧
    allPaths s' = allPaths s ++ [rel] ∧
    ((Has (m s) rel = true ∧ m s' = m s ∧ count s' = count s ∧ tw s' = tw s) ∨
     (Has (m s) rel = false ∧ Add (m s) rel i = Ok (m s') ∧
      count s' = count s + 1 ∧
      ∃ e, tw s' = tw s ++ [e] ∧
           tar.Name (tar.header e) = Join BasePath rel ∧
           tar.Mode (tar.header e) = mode_0555)).
Proof.
  unfold visit. intros Hv.
  apply bind_Ok in Hv as (info & Hinfo & Hv).
  apply bind_Ok in Hv as (i & Hi & Hv).
  apply bind_Ok in Hv as (rel & Hrel & Hv).
  exists info, i, rel. repeat (split; [done|]). simpl in Hv.
  destruct (Has (m s) rel) eqn:Hhas.
  - injection Hv as <-. split; [done|]. by left.
  - apply bind_Ok in Hv as (m' & Hadd & Hv). simpl in Hv.
    destruct (IsDir info).
    + injection Hv as <-. split; [done|]. right. simpl. eauto 10.
    + apply bind_Ok in Hv as (data & Hdata & Hv). cbv zeta in Hv.
      destruct (Str.len data <=? _); [|done]. injection Hv as <-.
      split; [done|]. right. simpl. eauto 10.
Qed.

Lemma walk_root directory root :
  ∃ rest, Walk.walk directory root = (directory, root) :: rest.
Proof. destruct root; simpl; eauto. Qed.

Lemma relative_root directory : relative directory directory = Ok ".".
Proof. unfold relative. by rewrite bool_decide_eq_false_2 by naive_solver. Qed.

(** The paths seen only grow, in the order of the calls. *)
Lemma visit_all_allPaths directory calls s s' :
  visit_all directory s calls = Ok s' →
  ∃ rels, Forall2 (λ c rel, relative directory c.1 = Ok rel) calls rels ∧
          allPaths s' = allPaths s ++ rels.
Proof.
  revert s. induction calls as [|[path n] calls IH]; intros s; simpl.
  - intros [= <-]. exists []. by rewrite app_nil_r.
  - intros Hv. apply bind_Ok in Hv as (s1 & H1 & Hv).
    apply visit_inv in H1 as (info & i & rel & _ & _ & Hrel & Hp & _).
    apply IH in Hv as (rels & Hrels & ->). exists (rel :: rels).
    split; [by constructor|]. by rewrite Hp, <- app_assoc.
Qed.

(** The keys after the walk: those before it and the normalized paths seen. *)
Lemma visit_all_keys directory calls s s' :
  visit_all directory s calls = Ok s' →
  ∃ rels, allPaths s' = allPaths s ++ rels ∧
    ∀ k, k ∈ keys (m s') ↔ k ∈ keys (m s) ∨ k ∈ normalize <$> rels.
Proof.
  revert s. induction calls as [|[path n] calls IH]; intros s; simpl.
  - intros [= <-]. exists []. rewrite app_nil_r. split; [done|]. set_solver.
  - intros Hv. apply bind_Ok in Hv as (s1 & H1 & Hv).
    apply IH in Hv as (rels & Hrels & Hkeys).
    apply visit_inv in H1 as (info & i & rel & _ & _ & _ & Hp & Hcase).
    exists (rel :: rels). split; [by rewrite Hrels, Hp, <- app_assoc|].
    intros k. rewrite Hkeys, fmap_cons, elem_of_cons.
    destruct Hcase as [(Hhas & -> & _)|(Hhas & Hadd & _)].
    + apply Has_keys in Hhas. naive_solver.
    + rewrite (keys_Add _ _ _ _ Hadd), elem_of_union, elem_of_singleton.
      naive_solver.
Qed.

Lemma visit_all_wf directory calls s s' :
  visit_all directory s calls = Ok s' → wf (m s) → wf (m s').
Proof.
  revert s. induction calls as [|[path n] calls IH]; intros s; simpl.
  - by intros [= <-].
  - intros Hv Hwf. apply bind_Ok in Hv as (s1 & H1 & Hv).
    apply (IH _ Hv).
    apply visit_inv in H1 as (info & i & rel & _ & _ & _ & _ & Hcase).
    destruct Hcase as [(_ & -> & _)|(_ & Hadd & _)]; [done|].
    by eapply wf_Add.
Qed.

(** An entry the Manifest already has keeps its digest through the walk. *)
Lemma visit_all_keeps directory calls s s' k :
  visit_all directory s calls = Ok s' →
  k ∈ keys (m s) → mapping (m s') !! k = mapping (m s) !! k.
Proof.
  revert s. induction calls as [|[path n] calls IH]; intros s; simpl.
  - by intros [= <-].
  - intros Hv Hk. apply bind_Ok in Hv as (s1 & H1 & Hv).
    apply visit_inv in H1 as (info & i & rel & _ & _ & _ & _ & Hcase).
    destruct Hcase as [(_ & E & _)|(Hhas & Hadd & _)].
    + rewrite (IH _ Hv); by rewrite E.
    + rewrite (IH _ Hv).
      * rewrite (Add_mapping _ _ _ _ Hadd). apply lookup_insert_ne.
        intros <-. by apply Has_false_keys in Hhas.
      * rewrite (keys_Add _ _ _ _ Hadd). set_solver.
Qed.

(** The count grows by one with every entry written. *)
Lemma visit_all_count directory calls s s' :
  visit_all directory s calls = Ok s' →
  ∃ rels new,
    allPaths s' = allPaths s ++ rels ∧
    tw s' = tw s ++ new ∧ count s' = count s + Z.of_nat (length new) ∧
    Forall (λ e, ∃ rel, rel ∈ rels ∧ Has (m s) rel = false ∧
                        tar.Name (tar.header e) = Join BasePath rel ∧
                        tar.Mode (tar.header e) = mode_0555) new.
Proof.
  revert s. induction calls as [|[path n] calls IH]; intros s; simpl.
  - intros [= <-]. exists [], []. rewrite !app_nil_r. split; [done|].
    split; [done|]. split; [simpl; lia|constructor].
  - intros Hv. apply bind_Ok in Hv as (s1 & H1 & Hv).
    apply IH in Hv as (rels & new & Hrels & Htw & Hcount & Hnew).
    apply visit_inv in H1 as (info & i & rel & _ & _ & _ & Hp & Hcase).
    assert (∀ r, Has (m s1) r = false → Has (m s) r = false) as Hmono.
    { intros r Hr. destruct Hcase as [(_ & E & _)|(_ & Hadd & _)].
      - by rewrite <- E.
      - apply Has_false_keys. apply Has_false_keys in Hr.
        rewrite (keys_Add _ _ _ _ Hadd) in Hr. set_solver. }
    assert (Forall (λ e, ∃ rel0, rel0 ∈ rel :: rels ∧ Has (m s) rel0 = false ∧
              tar.Name (tar.header e) = Join BasePath rel0 ∧
              tar.Mode (tar.header e) = mode_0555) new) as Hnew'.
    { eapply Forall_impl; [exact Hnew|]. intros e (r & Hr & Hh & Hn).
      exists r. split; [by right|]. split; [by apply Hmono|done]. }
    destruct Hcase as [(Hhas & Em & Ec & Et)|(Hhas & Hadd & Ec & e & Et & Hn & Hmode)].
    + exists (rel :: rels), new. rewrite Htw, Hcount, Et, Ec, Hrels, Hp, <- app_assoc.
      done.
    + exists (rel :: rels), (e :: new).
      rewrite Htw, Hcount, Et, Ec, Hrels, Hp, <- !app_assoc.
      split; [done|]. split; [done|]. split; [simpl length; lia|].
      constructor; [|done]. exists rel. split; [by left|done].
Qed.

Lemma whiteout_m s p : m (whiteout s p) = Remove (m s) p.
Proof. unfold whiteout. simpl. by destruct (Has _ _). Qed.

Lemma whiteout_count s p : count (whiteout s p) = count s + 1.
Proof. unfold whiteout. simpl. by destruct (Has _ _). Qed.

Lemma whiteout_allPaths s p : allPaths (whiteout s p) = allPaths s.
Proof. unfold whiteout. simpl. by destruct (Has _ _). Qed.

Lemma whiteout_tw s p :
  tw (whiteout s p) =
  tw s ++ (if Has (Remove (m s) p) (filepath.Dir p)
           then [ {| tar.header := whiteout_header p; tar.body := "" |} ]
           else []).
Proof. unfold whiteout. simpl. destruct (Has _ _); simpl; by rewrite ?app_nil_r. Qed.

(** A turn of the loop writes a marker exactly when the check passes. *)
Lemma whiteout_writes s p :
  tw (whiteout s p) ≠ tw s ↔ Has (Remove (m s) p) (filepath.Dir p) = true.
Proof.
  rewrite whiteout_tw. destruct (Has _ _).
  - split; [done|]. intros _ E.
    apply (f_equal length) in E. rewrite length_app in E. simpl in E. lia.
  - rewrite app_nil_r. naive_solver.
Qed.

Lemma loop_keys L s :
  keys (m (fold_left whiteout L s)) = keys (m s) ∖ list_to_set (normalize <$> L).
Proof.
  revert s. induction L as [|p L IH]; intros s; simpl.
  - set_solver.
  - rewrite IH, whiteout_m, keys_Remove. set_solver.
Qed.

Lemma loop_count L s :
  count (fold_left whiteout L s) = count s + Z.of_nat (length L).
Proof.
  revert s. induction L as [|p L IH]; intros s; simpl length; simpl fold_left.
  - lia.
  - rewrite IH, whiteout_count. lia.
Qed.

Lemma loop_allPaths L s : allPaths (fold_left whiteout L s) = allPaths s.
Proof.
  revert s. induction L as [|p L IH]; intros s; simpl; [done|].
  by rewrite IH, whiteout_allPaths.
Qed.

Lemma loop_tw L s :
  ∃ markers, tw (fold_left whiteout L s) = tw s ++ markers ∧
    (length markers ≤ length L)%nat ∧
    Forall (λ e, ∃ p, p ∈ L ∧ tar.header e = whiteout_header p ∧
                      tar.body e = "") markers.
Proof.
  revert s. induction L as [|p L IH]; intros s; simpl fold_left.
  - exists []. rewrite app_nil_r. split; [done|]. split; [done|constructor].
  - destruct (IH (whiteout s p)) as (markers & -> & Hlen & Hall).
    assert (Forall (λ e, ∃ q, q ∈ p :: L ∧ tar.header e = whiteout_header q ∧
                      tar.body e = "") markers) as Hall'.
    { eapply Forall_impl; [exact Hall|]. intros e (q & ? & ?). exists q.
      split; [by right|done]. }
    rewrite whiteout_tw. destruct (Has _ _).
    + eexists (_ :: markers). rewrite <- app_assoc. split; [done|].
      split; [simpl; lia|]. constructor; [|done]. exists p.
      split; [by left|done].
    + exists markers. rewrite app_nil_r. split; [done|]. split; [simpl; lia|done].
Qed.

Lemma loop_keeps L s k :
  k ∉ normalize <$> L →
  mapping (m (fold_left whiteout L s)) !! k = mapping (m s) !! k.
Proof.
  revert s. induction L as [|p L IH]; intros s; simpl; [done|].
  rewrite not_elem_of_cons. intros [Hne HL]. rewrite IH by done.
  rewrite whiteout_m, Remove_mapping. by apply lookup_delete_ne.
Qed.

(** ** The state after the walk *)

Lemma walked_root directory root m0 s1 :
  visit_all directory (initial m0) (Walk.walk directory root) = Ok s1 →
  "." ∈ allPaths s1.
Proof.
  destruct (walk_root directory root) as (rest & ->). cbn [visit_all].
  intros Hv. apply bind_Ok in Hv as (s & H1 & Hv).
  apply visit_all_allPaths in Hv as (rels & _ & ->).
  apply visit_inv in H1 as (info & i & rel & _ & _ & Hrel & -> & _).
  rewrite relative_root in Hrel. injection Hrel as <-. set_solver.
Qed.

Lemma str_lt_nested d p : nested_under d p → Str.lt d p.
Proof.
  intros (rest & ->). apply str_lt_le_ne. split; [apply str_le_app|].
  intros E. apply (f_equal String.length) in E. revert E.
  induction d as [|c d IH]; simpl; [done|]. intros [=]. auto.
Qed.

(** The facts about the missing paths on which the loop's properties rest:
    they are normalized, [.] is not among them, each parent directory that is
    missing comes before its entries. *)
Lemma missing_facts order directory root m0 s1 pre p post :
  wf m0 →
  visit_all directory (initial m0) (Walk.walk directory root) = Ok s1 →
  Missing order (m s1) (allPaths s1) = pre ++ p :: post →
  wf (m s1) ∧
  ("." ∉ (pre ++ p :: post)) ∧
  (∀ q, q ∈ (pre ++ p :: post) → normalize q = q) ∧
  (∀ q, q ∈ pre → Str.lt q p) ∧
  (∀ q, q ∈ post → Str.lt p q) ∧
  normalize (filepath.Dir p) = filepath.Dir p ∧
  filepath.Dir p ∉ post.
Proof.
  intros Hwf Hv HL.
  assert (wf (m s1)) as Hwf1 by by eapply visit_all_wf.
  assert ("." ∉ (pre ++ p :: post)) as Hdot.
  { rewrite <- HL. intros [_ Hd]%elem_of_Missing. apply Hd.
    apply list_elem_of_fmap. exists ".". split; [done|].
    by eapply walked_root. }
  assert (∀ q, q ∈ (pre ++ p :: post) → normalize q = q) as Hnorm.
  { intros q Hq. rewrite <- HL in Hq. apply elem_of_Missing in Hq as [Hq _].
    by apply Hwf1. }
  pose proof (Missing_sorted order (m s1) (allPaths s1)) as Hs.
  rewrite HL in Hs. apply StronglySorted_app in Hs as (Hpre & _ & Hpost).
  apply StronglySorted_cons in Hpost as [Hpost _].
  assert (∀ q, q ∈ post → Str.lt p q) as Hafter.
  { intros q Hq. rewrite Forall_forall in Hpost. by apply Hpost. }
  destruct (Dir_clean p) as [Hd Hle]; [apply Hnorm; set_solver|].
  repeat split; try done.
  - intros q Hq. apply Hpre; [done|set_solver].
  - intros Hin. destruct Hle as [E|Hle].
    + apply Hdot. rewrite <- E. set_solver.
    + apply Hafter in Hin. apply str_lt_le_ne in Hin as [Hle' Hne].
      apply Hne. by apply (anti_symm String.le).
Qed.

(** C2, for a baseline whose keys are normalized paths.  A whiteout marker
    is written for a missing path only if its parent directory is still a
    key of the Manifest when the round is over (after the additions of the
    walk and all the removals); and for a missing path whose parent
    directory is missing too, none is written. *)
Theorem whiteout_containment (order : range_order) (directory : string)
    (root : node) (m0 : Manifest) (s1 : state) (pre post : list string)
    (p : string) :
  wf m0 →
  visit_all directory (initial m0) (Walk.walk directory root) = Ok s1 →
  Missing order (m s1) (allPaths s1) = pre ++ p :: post →
  let before := fold_left whiteout pre s1 in
  let final := fold_left whiteout (pre ++ p :: post) s1 in
  (tw (whiteout before p) ≠ tw before → Has (m final) (filepath.Dir p) = true) ∧
  (filepath.Dir p ∈ (pre ++ p :: post) → tw (whiteout before p) = tw before).
Proof.
  intros Hwf Hv HL before final.
  destruct (missing_facts _ _ _ _ _ _ _ _ Hwf Hv HL)
    as (Hwf1 & Hdot & Hnorm & Hpre & Hpost & Hd & Hnotpost).
  assert (∀ l : list string,
            (∀ q, q ∈ l → normalize q = q) → normalize <$> l = l) as Hid.
  { intros l Hl. induction l as [|x l IH]; [done|]. rewrite fmap_cons.
    rewrite Hl by set_solver. f_equal. apply IH. set_solver. }
  split.
  - intros Hw%whiteout_writes. apply Has_keys. apply Has_keys in Hw.
    rewrite keys_Remove in Hw. subst before final.
    rewrite loop_keys in Hw. rewrite loop_keys.
    rewrite Hid in Hw by (intros; apply Hnorm; set_solver).
    rewrite Hid by done. rewrite Hd in *.
    rewrite (Hnorm p) in Hw by set_solver. set_solver.
  - intros Hin. destruct (decide (tw (whiteout before p) = tw before)) as [|Hne];
      [done|exfalso].
    apply whiteout_writes, Has_keys in Hne. rewrite keys_Remove in Hne.
    subst before. rewrite loop_keys in Hne.
    rewrite Hid in Hne by (intros; apply Hnorm; set_solver).
    rewrite Hd in Hne. rewrite (Hnorm p) in Hne by set_solver. set_solver.
Qed.

(** C9, for a baseline whose keys are normalized paths.  The missing paths
    are taken in ascending order and a directory sorts before everything
    nested under it, so a missing directory has been removed from the
    Manifest when an entry under it is examined; hence the check of the
    parent fails, and no marker is written, for every missing path whose
    parent directory is missing too. *)
Theorem missing_parent_removed_first (order : range_order) (directory : string)
    (root : node) (m0 : Manifest) (s1 : state) (pre post : list string)
    (p : string) :
  wf m0 →
  visit_all directory (initial m0) (Walk.walk directory root) = Ok s1 →
  Missing order (m s1) (allPaths s1) = pre ++ p :: post →
  let before := fold_left whiteout pre s1 in
  (∀ d, d ∈ (pre ++ p :: post) → nested_under d p →
        Str.lt d p ∧ d ∈ pre ∧ Has (m before) d = false) ∧
  (filepath.Dir p ∈ (pre ++ p :: post) →
        Has (Remove (m before) p) (filepath.Dir p) = false ∧
        tw (whiteout before p) = tw before).
Proof.
  intros Hwf Hv HL before.
  destruct (missing_facts _ _ _ _ _ _ _ _ Hwf Hv HL)
    as (Hwf1 & Hdot & Hnorm & Hpre & Hpost & Hd & Hnotpost).
  assert (∀ d, d ∈ pre → Has (m before) d = false) as Hgone.
  { intros d Hin. apply Has_false_keys. subst before. rewrite loop_keys.
    rewrite (Hnorm d) by set_solver.
    assert (d ∈ normalize <$> pre); [|set_solver].
    apply list_elem_of_fmap. exists d. split; [|done].
    symmetry. apply Hnorm. set_solver. }
  split.
  - intros d Hin Hnest. pose proof (str_lt_nested _ _ Hnest) as Hlt.
    split; [done|].
    assert (d ∈ pre) as Hdpre.
    { apply elem_of_app in Hin as [|Hin]; [done|].
      apply elem_of_cons in Hin as [->|Hin].
      - by apply str_lt_irrefl in Hlt.
      - apply Hpost in Hin. destruct (str_lt_irrefl d). by eapply str_lt_trans. }
    split; [done|by apply Hgone].
  - intros Hin.
    assert (Has (Remove (m before) p) (filepath.Dir p) = false) as Hno.
    { apply Has_false_keys. rewrite keys_Remove, Hd.
      apply elem_of_app in Hin as [Hin|Hin].
      - apply Hgone, Has_false_keys in Hin. rewrite Hd in Hin. set_solver.
      - apply elem_of_cons in Hin as [E|Hin]; [|done].
        rewrite (Hnorm p) by set_solver. set_solver. }
    split; [done|]. rewrite whiteout_tw. rewrite Hno. apply app_nil_r.
Qed.

Lemma visit_all_app directory l1 l2 s s2 :
  visit_all directory s (l1 ++ l2) = Ok s2 ↔
  ∃ s1, visit_all directory s l1 = Ok s1 ∧ visit_all directory s1 l2 = Ok s2.
Proof.
  revert s. induction l1 as [|e l1 IH]; intros s; simpl.
  - split; [eauto|]. by intros (s1 & [= <-] & ?).
  - rewrite bind_Ok. setoid_rewrite bind_Ok. setoid_rewrite IH. naive_solver.
Qed.

Lemma visit_all_Has directory calls s s' p :
  visit_all directory s calls = Ok s' → Has (m s) p = true → Has (m s') p = true.
Proof.
  intros Hv Hp. apply Has_keys. apply Has_keys in Hp.
  apply visit_all_keys in Hv as (rels & _ & Hkeys). apply Hkeys. by left.
Qed.

Lemma visit_all_seen directory calls s s' path n rel :
  visit_all directory s calls = Ok s' →
  (path, n) ∈ calls → relative directory path = Ok rel →
  rel ∈ allPaths s' ∧ Has (m s') rel = true.
Proof.
  intros Hv Hin Hrel.
  apply list_elem_of_split in Hin as (before & after & ->).
  apply visit_all_app in Hv as (s1 & H1 & Hv). cbn [visit_all] in Hv.
  apply bind_Ok in Hv as (s2 & H2 & Hv).
  pose proof (visit_all_allPaths _ _ _ _ Hv) as (rels & _ & Hp).
  assert (rel ∈ allPaths s2 ∧ Has (m s2) rel = true) as [Hseen Hhas].
  { apply visit_inv in H2 as (info & i & rel' & _ & _ & Hrel' & Hp' & Hcase).
    rewrite Hrel in Hrel'. injection Hrel' as <-.
    split; [rewrite Hp'; apply elem_of_app; right; by left|].
    destruct Hcase as [(Hhas & -> & _)|(_ & Hadd & _)]; [done|].
    apply Has_keys. rewrite (keys_Add _ _ _ _ Hadd). set_solver. }
  split; [rewrite Hp; apply elem_of_app; by left|]. by eapply visit_all_Has.
Qed.

(** C5. A walked path which the baseline Manifest has is skipped: the call
    of the walk function for it leaves the Manifest, the count and the
    archive as they were, whatever the file now holds; and when the keys of
    the baseline are normalized paths, the Manifest the run ends with has
    the baseline's digest for it. *)
Theorem known_path_skipped (order : range_order) (directory : string)
    (root : node) (m0 m' : Manifest) (tw' : list tar.Entry) (count' : Z)
    (before after : list (string * node)) (path rel : string) (n : node) :
  writeNewFiles order directory root m0 = Ok (tw', count', m') →
  Walk.walk directory root = before ++ (path, n) :: after →
  relative directory path = Ok rel →
  Has m0 rel = true →
  (∃ s s', visit_all directory (initial m0) before = Ok s ∧
           visit directory s (path, n) = Ok s' ∧
           m s' = m s ∧ count s' = count s ∧ tw s' = tw s) ∧
  (wf m0 → mapping m' !! normalize rel = mapping m0 !! normalize rel).
Proof.
  intros Hrun Hwalk Hrel Hhas. unfold writeNewFiles in Hrun.
  apply bind_Ok in Hrun as (s1 & Hv & Hrun). cbv zeta in Hrun.
  injection Hrun as _ _ <-.
  split.
  - rewrite Hwalk in Hv. apply visit_all_app in Hv as (s & Hs & Hv).
    cbn [visit_all] in Hv. apply bind_Ok in Hv as (s' & Hs' & _).
    exists s, s'. split; [done|]. split; [done|].
    apply visit_inv in Hs' as (info & i & rel' & _ & _ & Hrel' & _ & Hcase).
    rewrite Hrel in Hrel'. injection Hrel' as <-.
    destruct Hcase as [(_ & ? & ? & ?)|(Hno & _)]; [done|].
    apply (visit_all_Has _ _ _ _ rel Hs) in Hhas. simpl in Hhas. congruence.
  - intros Hwf. rewrite loop_keeps.
    + apply (visit_all_keeps _ _ _ _ (normalize rel) Hv). by apply Has_keys.
    + intros (k & Ek & Hk)%list_elem_of_fmap.
      apply elem_of_Missing in Hk as [Hk Hnot].
      assert (wf (m s1)) as Hwf1 by by eapply visit_all_wf.
      rewrite (Hwf1 k Hk) in Ek. subst k. apply Hnot.
      apply list_elem_of_fmap. exists rel. split; [done|].
      apply (visit_all_seen _ _ _ _ path n rel Hv); [|done].
      rewrite Hwalk. apply elem_of_app. right. by left.
Qed.

(** ** What the walk covers *)

Lemma walk_Dir path perm entries :
  Walk.walk path (Dir perm entries) =
  (path, Dir perm entries) ::
  flat_map (λ sub, sub.2 (Join path sub.1))
    (merge_sort name_le (map (λ e, (e.1, λ p, Walk.walk p e.2)) entries)).
Proof.
  simpl. do 3 f_equal.
  induction entries as [|[name child] entries IH]; simpl; [done|].
  by rewrite IH.
Qed.

(** Every entry under the root is passed to the walk function, with the path
    obtained by joining the names on the way to it. *)
Lemma walk_complete path root names n :
  at_path root names n →
  (fold_left Join names path, n) ∈ Walk.walk path root.
Proof.
  intros Hat. revert path.
  induction Hat as [n|perm entries name child names n Hin _ IH]; intros path.
  - destruct (walk_root path n) as (rest & ->). by left.
  - rewrite walk_Dir. right. simpl fold_left.
    apply list_elem_of_In, in_flat_map.
    exists (name, λ p, Walk.walk p child). split.
    + apply list_elem_of_In. rewrite merge_sort_Permutation.
      apply list_elem_of_fmap. by exists (name, child).
    + apply list_elem_of_In. apply IH.
Qed.

Lemma str_length_app a b :
  String.length (a +:+ b) = (String.length a + String.length b)%nat.
Proof. induction a as [|c a IH]; simpl; [done|]. by rewrite IH. Qed.

Lemma drop_app_length a b : Str.drop (String.length a) (a +:+ b) = b.
Proof. induction a as [|c a IH]; simpl; [by destruct b|done]. Qed.

(** Under a directory given as a cleaned path other than [.] and [/], the
    joined path is the directory, a slash, and the names joined by slashes;
    the relative path is the latter. *)
Lemma relative_joined directory names :
  Clean directory = directory → directory ≠ "." → directory ≠ "/" →
  names ≠ [] → Forall real names →
  relative directory (fold_left Join names directory) = Ok (Str.join names).
Proof.
  intros Hclean Hdot Hroot Hnames Hreal.
  destruct (Clean_shape directory) as (l & Hl & E). rewrite Hclean in E.
  set (r := rooted directory) in *.
  assert (l ≠ []) as Hne.
  { intros ->. destruct r; [by apply Hroot|by apply Hdot]. }
  assert (∀ names l, clean_form r l → Forall real names →
            fold_left Join names (build r l) = build r (l ++ names)) as Hfold.
  { clear. intros names. induction names as [|x names IH]; intros l Hl Hr; simpl.
    - by rewrite app_nil_r.
    - apply Forall_cons in Hr as [Hx Hr]. rewrite Join_build by done.
      rewrite IH; [|by apply clean_form_snoc|done]. by rewrite <- app_assoc. }
  assert (∀ names, names ≠ [] →
            build r (l ++ names) = build r l +:+ String Str.slash (Str.join names))
    as Hbuild.
  { intros ns. induction ns as [|x ns IH] using rev_ind; [done|]. intros _.
    destruct ns as [|y ns].
    - simpl. by apply build_snoc.
    - rewrite app_assoc, build_snoc by by destruct l.
      rewrite IH by done. rewrite join_snoc by done.
      by rewrite !str_app_assoc. }
  rewrite E, Hfold, Hbuild by done. rewrite <- E.
  unfold relative. rewrite bool_decide_eq_true_2.
  - unfold Str.slice_from, Str.len. rewrite bool_decide_eq_true_2.
    + f_equal. replace (Z.to_nat (Z.of_nat (String.length directory) + 1))
        with (String.length (directory +:+ String Str.slash "")).
      * replace (directory +:+ String Str.slash (Str.join names))
          with ((directory +:+ String Str.slash "") +:+ Str.join names)
          by by rewrite str_app_assoc.
        apply drop_app_length.
      * rewrite str_length_app. simpl. lia.
    + rewrite str_length_app. simpl. lia.
  - intros Heq. apply (f_equal String.length) in Heq.
    rewrite str_length_app in Heq. simpl in Heq. lia.
Qed.

(** C4, as the code has it.  The walk function is also called on the root
    itself, for which the relative path is [.]: the root is added to the
    paths seen and is a key of the Manifest afterwards, and when the baseline
    does not have it, an entry for the mount path itself is the first one
    written.  Every file and directory strictly under the root is seen and
    is a key afterwards, under its names joined by slashes, for a directory
    given as a cleaned path other than [.] and [/]. *)
Theorem walk_covers_root_and_tree (directory : string) (root : node)
    (m0 : Manifest) (s1 : state) :
  Clean directory = directory → directory ≠ "." → directory ≠ "/" →
  valid_names root →
  visit_all directory (initial m0) (Walk.walk directory root) = Ok s1 →
  ("." ∈ allPaths s1 ∧ Has (m s1) "." = true ∧
   (Has m0 "." = false →
    ∃ e rest, tw s1 = e :: rest ∧ tar.Name (tar.header e) = BasePath)) ∧
  (∀ names n, names ≠ [] → at_path root names n →
     Str.join names ∈ allPaths s1 ∧ Has (m s1) (Str.join names) = true).
Proof.
  intros Hclean Hdot Hroot Hvalid Hv. split.
  - destruct (visit_all_seen _ _ _ _ directory root "." Hv) as [Hseen Hhas].
    { destruct (walk_root directory root) as (rest & ->). by left. }
    { apply relative_root. }
    split; [done|]. split; [done|]. intros Hno.
    destruct (walk_root directory root) as (rest & Hw). rewrite Hw in Hv.
    cbn [visit_all] in Hv. apply bind_Ok in Hv as (s & H1 & Hv).
    apply visit_all_count in Hv as (_ & new & _ & -> & _).
    apply visit_inv in H1 as (info & i & rel & _ & _ & Hrel & _ & Hcase).
    rewrite relative_root in Hrel. injection Hrel as <-.
    destruct Hcase as [(Hhas' & _)|(_ & _ & _ & e & He & Hname & _)].
    { simpl in Hhas'. congruence. }
    exists e, new. rewrite He. split; [done|]. by rewrite Hname.
  - intros names n Hne Hat.
    apply (visit_all_seen _ _ _ _ (fold_left Join names directory) n _ Hv).
    + by apply walk_complete.
    + apply relative_joined; try done. by eapply Hvalid.
Qed.

End delta.

(** ** The count, and the run that changes nothing *)

Section publish.
Context `{Hasher}.
Import os kontext remote kontext_main.

Definition quiet (e : event) : Prop :=
  match e with
  | Fetched _ | Logged _ => True
  | WroteManifest _ | Pushing _ _ => False
  end.

Lemma findBaseImage_quiet w targetTag : Forall quiet (findBaseImage w targetTag).1.
Proof.
  unfold findBaseImage. repeat case_match; simpl; repeat constructor.
Qed.

Lemma writeNewFiles_inv order directory root m0 layer delta m' :
  writeNewFiles order directory root m0 = Ok (layer, delta, m') →
  ∃ s1 markers,
    visit_all directory (initial m0) (Walk.walk directory root) = Ok s1 ∧
    count s1 = Z.of_nat (length (tw s1)) ∧
    layer = tw s1 ++ markers ∧
    delta = Z.of_nat (length (tw s1))
            + Z.of_nat (length (Missing order (m s1) (allPaths s1))) ∧
    (length markers ≤ length (Missing order (m s1) (allPaths s1)))%nat ∧
    Forall (λ e, ∃ p, p ∈ Missing order (m s1) (allPaths s1) ∧
                      tar.header e = whiteout_header p ∧ tar.body e = "")
           markers.
Proof.
  unfold writeNewFiles. intros Hrun.
  apply bind_Ok in Hrun as (s1 & Hv & Hrun). cbv zeta in Hrun.
  injection Hrun as <- <- _.
  destruct (visit_all_count _ _ _ _ Hv) as (rels & new & _ & Htw & Hcount & _).
  simpl in Htw, Hcount.
  destruct (loop_tw (Missing order (m s1) (allPaths s1)) s1)
    as (markers & -> & Hlen & Hall).
  exists s1, markers. rewrite loop_count, Hcount, Htw.
  repeat split; try done; lia.
Qed.

(** C3, as the code has it.  The count is the number of entries written for
    the walk plus the number of missing paths, each of which counts whether
    or not a marker is written for it; the markers are at most as many.  When
    the count is zero, [main] returns after its log line: it has neither
    built the manifest layer nor started a push. *)
Theorem changed_count_and_noop (order : range_order) (w : World)
    (directory tag targetTag : string) (root : node) (m0 m' : Manifest)
    (layer : list tar.Entry) (delta : Z) (evs : list event) (base : Image) :
  writeNewFiles order directory root m0 = Ok (layer, delta, m') →
  (∃ s1 markers,
      visit_all directory (initial m0) (Walk.walk directory root) = Ok s1 ∧
      layer = tw s1 ++ markers ∧
      delta = Z.of_nat (length (tw s1))
              + Z.of_nat (length (Missing order (m s1) (allPaths s1))) ∧
      (length markers ≤ length (Missing order (m s1) (allPaths s1)))%nat) ∧
  (directory ≠ "" → tag ≠ "" →
   NewTag w tag = Ok targetTag →
   findBaseImage w targetTag = (evs, Ok (base, m0)) →
   delta = 0 →
   main order w directory tag (Some root)
     = (evs ++ [Logged "No change in source context (or empty)"], Returned) ∧
   Forall quiet (evs ++ [Logged "No change in source context (or empty)"])).
Proof.
  intros Hrun. split.
  - destruct (writeNewFiles_inv _ _ _ _ _ _ _ Hrun)
      as (s1 & markers & ? & ? & ? & ? & ? & ?).
    by exists s1, markers.
  - intros Hd Ht Htag Hbase ->. split.
    + unfold main. rewrite !bool_decide_eq_false_2 by done.
      rewrite Htag, Hbase, Hrun. by rewrite bool_decide_eq_true_2.
    + apply Forall_app. split; [|by repeat constructor].
      pose proof (findBaseImage_quiet w targetTag) as Hq. by rewrite Hbase in Hq.
Qed.

(** ** The order of ranging over a map does not show *)

Lemma sorted_entries_order_irrel (o1 o2 : range_order) f :
  json.sorted_entries o1 f = json.sorted_entries o2 f.
Proof.
  unfold json.sorted_entries.
  assert (∀ o : range_order,
            ∀ x, x ∈ ((λ k, (k, default "" (f !! k))) <$> o f) →
                 x.2 = default "" (f !! x.1)) as Hval.
  { intros o x (k & -> & _)%list_elem_of_fmap. done. }
  assert (Transitive json.key_le) as Htrans.
  { intros a b c. unfold json.key_le. apply transitivity. }
  assert (Total json.key_le) as Htot.
  { intros a b. unfold json.key_le. apply total, _. }
  apply (StronglySorted_unique_strong json.key_le).
  - intros [k1 v1] [k2 v2] H1 H2 Hle Hge.
    rewrite merge_sort_Permutation in H1, H2.
    apply Hval in H1, H2. simpl in *. unfold json.key_le in *. simpl in *.
    assert (k1 = k2) as -> by by apply (anti_symm String.le). by subst.
  - by apply StronglySorted_merge_sort.
  - by apply StronglySorted_merge_sort.
  - rewrite !merge_sort_Permutation. apply fmap_Permutation.
    by rewrite (range_keys_perm o1), (range_keys_perm o2).
Qed.

Lemma Marshal_order_irrel (o1 o2 : range_order) m :
  json.Marshal o1 m = json.Marshal o2 m.
Proof.
  unfold json.Marshal. destruct (Files m) as [f|]; [|done].
  by rewrite (sorted_entries_order_irrel o1 o2).
Qed.

Lemma writeNewFiles_order_irrel (o1 o2 : range_order) directory root m0 :
  writeNewFiles o1 directory root m0 = writeNewFiles o2 directory root m0.
Proof.
  unfold writeNewFiles.
  destruct (visit_all directory (initial m0) (Walk.walk directory root))
    as [s| |]; simpl; [|done..].
  by rewrite (Missing_order_irrel o1 o2).
Qed.

End publish.

(** ** The properties on a small tree

    The baseline has a directory [gone] with a file in it; the directory
    walked is empty. *)

Lemma wf_list_to_map (l : list (string * string)) :
  Forall (λ kv, manifest.normalize kv.1 = kv.1) l →
  manifest.wf {| manifest.Files := Some (list_to_map l) |}.
Proof.
  intros Hl k. unfold manifest.keys, manifest.mapping. simpl.
  rewrite elem_of_dom. intros [v Hv].
  apply elem_of_list_to_map_2 in Hv. rewrite Forall_forall in Hl.
  apply (Hl (k, v)), Hv.
Qed.

Definition gone_baseline : manifest.Manifest :=
  {| manifest.Files :=
       Some (list_to_map [(".", ""); ("gone", ""); ("gone/x", "0a1b")]) |}.

Definition empty_dir : os.node := os.Dir mode_0555 [].

Definition after_empty_walk : kontext.state :=
  {| kontext.m := gone_baseline; kontext.count := 0;
     kontext.allPaths := ["."]; kontext.tw := [] |}.

Lemma gone_baseline_wf : manifest.wf gone_baseline.
Proof. apply wf_list_to_map. repeat constructor. Qed.

Lemma empty_walk_run :
  kontext.visit_all (H := example_hasher) "/src" (kontext.initial gone_baseline)
    (Walk.walk "/src" empty_dir) = Ok after_empty_walk.
Proof. vm_compute. reflexivity. Qed.

Lemma gone_missing :
  manifest.Missing range_default gone_baseline ["."] = ["gone"; "gone/x"].
Proof. vm_compute. reflexivity. Qed.

Lemma whiteout_containment_witness :
  (kontext.tw (kontext.whiteout
                 (fold_left kontext.whiteout ["gone"] after_empty_walk) "gone/x")
     ≠ kontext.tw (fold_left kontext.whiteout ["gone"] after_empty_walk) →
   manifest.Has
     (kontext.m (fold_left kontext.whiteout (["gone"] ++ "gone/x" :: [])
                   after_empty_walk))
     (filepath.Dir "gone/x") = true) ∧
  (filepath.Dir "gone/x" ∈ (["gone"] ++ "gone/x" :: []) →
   kontext.tw (kontext.whiteout
                 (fold_left kontext.whiteout ["gone"] after_empty_walk) "gone/x")
   = kontext.tw (fold_left kontext.whiteout ["gone"] after_empty_walk)).
Proof.
  pose proof (whiteout_containment (H := example_hasher) range_default "/src"
                empty_dir gone_baseline after_empty_walk ["gone"] [] "gone/x")
    as W.
  cbv zeta in W. apply W.
  - apply wf_list_to_map. repeat constructor.
  - vm_compute. reflexivity.
  - vm_compute. reflexivity.
Defined.

Lemma missing_parent_removed_first_witness :
  (∀ d, d ∈ (["gone"] ++ "gone/x" :: []) → nested_under d "gone/x" →
        Str.lt d "gone/x" ∧ d ∈ ["gone"] ∧
        manifest.Has
          (kontext.m (fold_left kontext.whiteout ["gone"] after_empty_walk)) d
        = false) ∧
  (filepath.Dir "gone/x" ∈ (["gone"] ++ "gone/x" :: []) →
   manifest.Has
     (manifest.Remove
        (kontext.m (fold_left kontext.whiteout ["gone"] after_empty_walk))
        "gone/x") (filepath.Dir "gone/x") = false ∧
   kontext.tw (kontext.whiteout
                 (fold_left kontext.whiteout ["gone"] after_empty_walk) "gone/x")
   = kontext.tw (fold_left kontext.whiteout ["gone"] after_empty_walk)).
Proof.
  pose proof (missing_parent_removed_first (H := example_hasher) range_default
                "/src" empty_dir gone_baseline after_empty_walk ["gone"] []
                "gone/x") as W.
  cbv zeta in W. apply W.
  - apply wf_list_to_map. repeat constructor.
  - vm_compute. reflexivity.
  - vm_compute. reflexivity.
Defined.

(** The count is 2, for the two missing paths, and one marker is written. *)
Lemma count_exceeds_entries :
  ∃ marker m',
    kontext.writeNewFiles (H := example_hasher) range_default "/src" empty_dir
      gone_baseline = Ok ([marker], 2, m') ∧
    tar.Name (tar.header marker) = "/var/run/kontext/.wh.gone" ∧
    2 ≠ Z.of_nat (length [marker]).
Proof.
  eexists _, _. split; [vm_compute; reflexivity|]. split; [reflexivity|].
  simpl. lia.
Qed.

(** The walk of an empty directory, from the empty baseline: the root is
    seen as [.], is added to the Manifest, and an entry is written for it. *)
Lemma root_entry_produced :
  kontext.visit_all (H := example_hasher) "/src"
    (kontext.initial manifest.empty) (Walk.walk "/src" empty_dir)
  = Ok {| kontext.m := {| manifest.Files := Some {[ "." := "" ]} |};
          kontext.count := 1;
          kontext.allPaths := ["."];
          kontext.tw :=
            [ {| tar.header :=
                   {| tar.Name := "/var/run/kontext"; tar.Size := 0;
                      tar.Typeflag := tar.TypeDir; tar.Mode := mode_0555 |};
                 tar.body := "" |} ] |}.
Proof. vm_compute. reflexivity. Qed.

Definition small_tree : os.node :=
  os.Dir mode_0555 [("a", os.Reg 420 "a's bytes")].

Lemma small_tree_valid : os.valid_names small_tree.
Proof.
  intros names n Hat. unfold small_tree in Hat.
  inversion Hat as [|perm entries name child names' n' Hin Hat']; subst.
  - constructor.
  - apply list_elem_of_singleton in Hin. injection Hin as -> ->.
    inversion Hat'; subst. by repeat constructor.
Qed.

Definition small_tree_state : kontext.state :=
  Eval vm_compute in
    match kontext.visit_all (H := example_hasher) "/src"
            (kontext.initial manifest.empty) (Walk.walk "/src" small_tree) with
    | Ok s => s
    | _ => kontext.initial manifest.empty
    end.

Lemma walk_covers_root_and_tree_witness :
  ("." ∈ kontext.allPaths small_tree_state ∧
   manifest.Has (kontext.m small_tree_state) "." = true ∧
   (manifest.Has manifest.empty "." = false →
    ∃ e rest, kontext.tw small_tree_state = e :: rest ∧
              tar.Name (tar.header e) = BasePath)) ∧
  (∀ names n, names ≠ [] → os.at_path small_tree names n →
     Str.join names ∈ kontext.allPaths small_tree_state ∧
     manifest.Has (kontext.m small_tree_state) (Str.join names) = true).
Proof.
  apply (walk_covers_root_and_tree (H := example_hasher) "/src" small_tree
           manifest.empty small_tree_state).
  - reflexivity.
  - discriminate.
  - discriminate.
  - apply small_tree_valid.
  - vm_compute. reflexivity.
Defined.

(** The file [a] has changed since the baseline was taken. *)
Definition stale_baseline : manifest.Manifest :=
  {| manifest.Files := Some (list_to_map [(".", ""); ("a", "0a1b")]) |}.

Lemma known_path_skipped_witness :
  (∃ s s',
     kontext.visit_all (H := example_hasher) "/src"
       (kontext.initial stale_baseline) [("/src", small_tree)] = Ok s ∧
     kontext.visit (H := example_hasher) "/src" s
       ("/src/a", os.Reg 420 "a's bytes") = Ok s' ∧
     kontext.m s' = kontext.m s ∧ kontext.count s' = kontext.count s ∧
     kontext.tw s' = kontext.tw s) ∧
  (manifest.wf stale_baseline →
   manifest.mapping stale_baseline !! manifest.normalize "a"
   = manifest.mapping stale_baseline !! manifest.normalize "a").
Proof.
  apply (known_path_skipped (H := example_hasher) range_default "/src"
           small_tree stale_baseline stale_baseline [] 0
           [("/src", small_tree)] [] "/src/a" "a" (os.Reg 420 "a's bytes")).
  - vm_compute. reflexivity.
  - vm_compute. reflexivity.
  - vm_compute. reflexivity.
  - vm_compute. reflexivity.
Defined.

(** *** Baselines with keys that are not normalized

    [findBaseImage] decodes the baseline from a layer of the image and hands
    it on as it is, so a key may be any string.  With [a/b/..] among the
    keys, the marker for [a/b] is written and then the removal of [a/b/..]
    deletes the key [a]: the parent is not a key when the round is over. *)
Definition dotdot_baseline : manifest.Manifest :=
  {| manifest.Files :=
       Some (list_to_map [(".", ""); ("a", ""); ("a/b", ""); ("a/b/..", "")]) |}.

Definition a_tree : os.node := os.Dir mode_0555 [("a", os.Dir mode_0555 [])].

Definition after_a_walk : kontext.state :=
  {| kontext.m := dotdot_baseline; kontext.count := 0;
     kontext.allPaths := ["."; "a"]; kontext.tw := [] |}.

Lemma marker_under_removed_parent :
  kontext.visit_all (H := example_hasher) "/src"
    (kontext.initial dotdot_baseline) (Walk.walk "/src" a_tree)
  = Ok after_a_walk ∧
  manifest.Missing range_default (kontext.m after_a_walk)
    (kontext.allPaths after_a_walk) = [] ++ "a/b" :: ["a/b/.."] ∧
  kontext.tw (fold_left kontext.whiteout [] after_a_walk) = [] ∧
  kontext.tw (kontext.whiteout (fold_left kontext.whiteout [] after_a_walk) "a/b")
  = [ {| tar.header :=
           {| tar.Name := "/var/run/kontext/a/.wh.b"; tar.Size := 0;
              tar.Typeflag := tar.TypeReg; tar.Mode := 0 |};
         tar.body := "" |} ] ∧
  manifest.Has
    (kontext.m (fold_left kontext.whiteout ([] ++ "a/b" :: ["a/b/.."])
                  after_a_walk))
    (filepath.Dir "a/b") = false.
Proof. repeat split; vm_compute; reflexivity. Qed.

(** With the key [./x/y], the path sorts before its parent [x]: the marker
    is written while [x], which is missing too, is still a key. *)
Definition dotted_baseline : manifest.Manifest :=
  {| manifest.Files :=
       Some (list_to_map [(".", ""); ("x", ""); ("./x/y", "0a1b")]) |}.

Definition after_dotted_walk : kontext.state :=
  {| kontext.m := dotted_baseline; kontext.count := 0;
     kontext.allPaths := ["."]; kontext.tw := [] |}.

Lemma marker_before_parent_removed :
  kontext.visit_all (H := example_hasher) "/src"
    (kontext.initial dotted_baseline) (Walk.walk "/src" empty_dir)
  = Ok after_dotted_walk ∧
  manifest.Missing range_default (kontext.m after_dotted_walk)
    (kontext.allPaths after_dotted_walk) = [] ++ "./x/y" :: ["x"] ∧
  filepath.Dir "./x/y" = "x" ∧
  manifest.Has
    (manifest.Remove
       (kontext.m (fold_left kontext.whiteout [] after_dotted_walk)) "./x/y")
    (filepath.Dir "./x/y") = true ∧
  kontext.tw (fold_left kontext.whiteout [] after_dotted_walk) = [] ∧
  kontext.tw (kontext.whiteout
                (fold_left kontext.whiteout [] after_dotted_walk) "./x/y")
  = [ {| tar.header :=
           {| tar.Name := "/var/run/kontext/x/.wh.y"; tar.Size := 0;
              tar.Typeflag := tar.TypeReg; tar.Mode := 0 |};
         tar.body := "" |} ].
Proof. repeat split; vm_compute; reflexivity. Qed.

(** With the key [a/] next to [a], the key [a/] is reported missing although
    the file [a] was walked, and its removal deletes the entry of [a]. *)
Definition slash_baseline : manifest.Manifest :=
  {| manifest.Files :=
       Some (list_to_map [(".", ""); ("a", "0a1b"); ("a/", "zz")]) |}.

Lemma known_path_loses_digest :
  ∃ m',
    kontext.writeNewFiles (H := example_hasher) range_default "/src" small_tree
      slash_baseline = Ok ([], 1, m') ∧
    Walk.walk "/src" small_tree
    = [("/src", small_tree)] ++ ("/src/a", os.Reg 420 "a's bytes") :: [] ∧
    kontext.relative "/src" "/src/a" = Ok "a" ∧
    manifest.Has slash_baseline "a" = true ∧
    manifest.mapping slash_baseline !! manifest.normalize "a" = Some "0a1b" ∧
    manifest.mapping m' !! manifest.normalize "a" = None.
Proof. eexists. repeat split; vm_compute; reflexivity. Qed.

(** Such a baseline is what the decoder gives for a manifest layer. *)
Example unclean_baseline_decoded :
  json.Decode (json.Marshal range_default dotdot_baseline) manifest.empty
  = Ok dotdot_baseline.
Proof. vm_compute. reflexivity. Qed.

(** A registry in which the target already holds the empty directory. *)
Definition dot_manifest : manifest.Manifest :=
  {| manifest.Files := Some {[ "." := "" ]} |}.

Definition published : remote.Image :=
  {| remote.layers :=
       [ kontext_main.layer_of [];
         kontext_main.layer_of
           (kontext_main.writeManifest range_default dot_manifest) ];
     remote.Layers_fails := false |}.

Definition example_world : remote.World :=
  {| remote.NewTag := λ tag, Ok tag;
     remote.Image_at := λ ref, Ok published;
     remote.Resolve := λ ref, Ok "token";
     remote.Write := λ ref img auth, Ok () |}.

Lemma changed_count_and_noop_witness :
  (∃ s1 markers,
      kontext.visit_all (H := example_hasher) "/src"
        (kontext.initial dot_manifest) (Walk.walk "/src" empty_dir) = Ok s1 ∧
      [] = kontext.tw s1 ++ markers ∧
      0 = Z.of_nat (length (kontext.tw s1))
          + Z.of_nat (length (manifest.Missing range_default (kontext.m s1)
                                (kontext.allPaths s1))) ∧
      (length markers ≤ length (manifest.Missing range_default (kontext.m s1)
                                  (kontext.allPaths s1)))%nat) ∧
  ("/src" ≠ "" → "registry/image:tag" ≠ "" →
   remote.NewTag example_world "registry/image:tag" = Ok "registry/image:tag" →
   kontext_main.findBaseImage example_world "registry/image:tag"
     = ([kontext_main.Fetched "registry/image:tag"], Ok (published, dot_manifest)) →
   0 = 0 →
   kontext_main.main (H := example_hasher) range_default example_world "/src"
     "registry/image:tag" (Some empty_dir)
     = ([kontext_main.Fetched "registry/image:tag"] ++
        [kontext_main.Logged "No change in source context (or empty)"],
        kontext_main.Returned) ∧
   Forall quiet
     ([kontext_main.Fetched "registry/image:tag"] ++
      [kontext_main.Logged "No change in source context (or empty)"])).
Proof.
  apply (changed_count_and_noop (H := example_hasher) range_default
           example_world "/src" "registry/image:tag" "registry/image:tag"
           empty_dir dot_manifest dot_manifest [] 0
           [kontext_main.Fetched "registry/image:tag"] published).
  vm_compute. reflexivity.
Defined.

Example published_manifest_found :
  kontext_main.findBaseImage example_world "registry/image:tag"
  = ([kontext_main.Fetched "registry/image:tag"], Ok (published, dot_manifest)).
Proof. vm_compute. reflexivity. Qed.

(** ** UTF-8: decoding a rune and encoding it again *)

Import utf8.

Ltac euclid := Z.to_euclidean_division_equations; lia.

Lemma land_disjoint X y k :
  0 ≤ k → X mod 2 ^ k = 0 → 0 ≤ y < 2 ^ k → Z.land X y = 0.
Proof.
  intros Hk HX Hy. apply Z.bits_inj'. intros n Hn.
  rewrite Z.land_spec, Z.bits_0.
  destruct (Z.lt_ge_cases n k) as [Hlt|Hge].
  - rewrite <- (Z.mod_pow2_bits_low X k n) by lia. rewrite HX.
    by rewrite Z.bits_0.
  - assert (Z.testbit y n = false) as ->; [|by rewrite andb_false_r].
    apply Z.testbit_false; [done|].
    assert (2 ^ k ≤ 2 ^ n) by (apply Z.pow_le_mono_r; lia).
    rewrite Z.div_small; [done|lia].
Qed.

Lemma lor_disjoint X y k :
  0 ≤ k → X mod 2 ^ k = 0 → 0 ≤ y < 2 ^ k → Z.lor X y = X + y.
Proof.
  intros Hk HX Hy. pose proof (Z.add_lor_land X y) as E.
  rewrite (land_disjoint X y k) in E by done. lia.
Qed.


Lemma chr_byte c : chr (byte c) = c.
Proof.
  unfold chr, byte.
  assert (0 <= Z.of_N (N_of_ascii c) < 256) as Hr.
  { pose proof (N_ascii_bounded c) as Hb. lia. }
  rewrite Z.mod_small by done. rewrite N2Z.id. apply ascii_N_embedding.
Qed.

Lemma byte_range c : 0 ≤ byte c < 256.
Proof. unfold byte. pose proof (N_ascii_bounded c). lia. Qed.

Lemma lor_cont x : Z.lor 128 (x mod 64) = 128 + x mod 64.
Proof.
  apply (lor_disjoint 128 _ 6); [lia|done|]. change (2 ^ 6) with 64.
  apply Z.mod_pos_bound. lia.
Qed.

Lemma lor_lead2 y : 0 ≤ y < 64 → Z.lor 192 y = 192 + y.
Proof. intros. by apply (lor_disjoint 192 _ 6). Qed.

Lemma lor_lead3 y : 0 ≤ y < 16 → Z.lor 224 y = 224 + y.
Proof. intros. by apply (lor_disjoint 224 _ 4). Qed.

Lemma lor_lead4 y : 0 ≤ y < 16 → Z.lor 240 y = 240 + y.
Proof. intros. by apply (lor_disjoint 240 _ 4). Qed.


Lemma rune2_value b0 b1 : rune2 b0 b1 = (b0 mod 32) * 64 + b1 mod 64.
Proof.
  unfold rune2. change 0x1F with (Z.ones 5). change 0x3F with (Z.ones 6).
  rewrite !Z.land_ones by lia. rewrite !Z.shiftl_mul_pow2 by lia.
  change (2 ^ 5) with 32. change (2 ^ 6) with 64.
  pose proof (Z.mod_pos_bound b1 64).
  apply (lor_disjoint _ _ 6); [lia| |change (2 ^ 6) with 64; lia].
  change (2 ^ 6) with 64. by rewrite Z.mod_mul.
Qed.

Lemma rune3_value b0 b1 b2 :
  rune3 b0 b1 b2 = (b0 mod 16) * 4096 + (b1 mod 64) * 64 + b2 mod 64.
Proof.
  unfold rune3. change 0x0F with (Z.ones 4). change 0x3F with (Z.ones 6).
  rewrite !Z.land_ones by lia. rewrite !Z.shiftl_mul_pow2 by lia.
  change (2 ^ 4) with 16. change (2 ^ 6) with 64. change (2 ^ 12) with 4096.
  pose proof (Z.mod_pos_bound b1 64). pose proof (Z.mod_pos_bound b2 64).
  rewrite (lor_disjoint (b0 mod 16 * 4096) _ 12);
    [|lia| |change (2 ^ 12) with 4096; lia].
  2:{ change (2 ^ 12) with 4096. by rewrite Z.mod_mul. }
  apply (lor_disjoint _ _ 6); [lia| |change (2 ^ 6) with 64; lia].
  change (2 ^ 6) with 64.
  replace (b0 mod 16 * 4096 + b1 mod 64 * 64)
    with ((b0 mod 16 * 64 + b1 mod 64) * 64) by lia.
  by rewrite Z.mod_mul.
Qed.

Lemma rune4_value b0 b1 b2 b3 :
  rune4 b0 b1 b2 b3
  = (b0 mod 8) * 262144 + (b1 mod 64) * 4096 + (b2 mod 64) * 64 + b3 mod 64.
Proof.
  unfold rune4.
  change 0x07 with (Z.ones 3). change 0x3F with (Z.ones 6).
  rewrite !Z.land_ones by lia. rewrite !Z.shiftl_mul_pow2 by lia.
  change (2 ^ 3) with 8. change (2 ^ 6) with 64. change (2 ^ 18) with 262144.
  change (2 ^ 12) with 4096.
  pose proof (Z.mod_pos_bound b0 8). pose proof (Z.mod_pos_bound b1 64).
  pose proof (Z.mod_pos_bound b2 64). pose proof (Z.mod_pos_bound b3 64).
  rewrite (lor_disjoint (b0 mod 8 * 262144) _ 18); [|lia| |lia].
  2:{ change (2 ^ 18) with 262144. by rewrite Z.mod_mul. }
  rewrite (lor_disjoint _ (b2 mod 64 * 64) 12); [|lia| |change (2^12) with 4096; lia].
  2:{ change (2 ^ 12) with 4096.
      replace (b0 mod 8 * 262144 + b1 mod 64 * 4096)
        with ((b0 mod 8 * 64 + b1 mod 64) * 4096) by lia.
      by rewrite Z.mod_mul. }
  rewrite (lor_disjoint _ (b3 mod 64) 6); [done|lia| |change (2^6) with 64; lia].
  change (2 ^ 6) with 64.
  replace (b0 mod 8 * 262144 + b1 mod 64 * 4096 + b2 mod 64 * 64)
    with ((b0 mod 8 * 4096 + b1 mod 64 * 64 + b2 mod 64) * 64) by lia.
  by rewrite Z.mod_mul.
Qed.


Lemma EncodeRune_2 b0 b1 :
  0xC2 ≤ b0 ≤ 0xDF → 0x80 ≤ b1 ≤ 0xBF →
  EncodeRune (rune2 b0 b1) = String (chr b0) (String (chr b1) "").
Proof.
  intros H0 H1. rewrite rune2_value.
  set (r := b0 mod 32 * 64 + b1 mod 64).
  assert (0x80 ≤ r ≤ 0x7FF) as Hr by (subst r; euclid).
  unfold EncodeRune. rewrite (Z.mod_small r) by lia.
  destruct (Z.leb_spec r 127); [lia|].
  destruct (Z.leb_spec r 2047); [|lia].
  rewrite !Z.shiftr_div_pow2 by lia. change 0x3F with (Z.ones 6).
  rewrite !Z.land_ones by lia. change (2 ^ 6) with 64.
  rewrite lor_lead2 by (subst r; euclid). rewrite !lor_cont.
  repeat f_equal; subst r; euclid.
Qed.

Lemma EncodeRune_3 b0 b1 b2 :
  0xE0 ≤ b0 ≤ 0xEF → 0x80 ≤ b1 ≤ 0xBF → 0x80 ≤ b2 ≤ 0xBF →
  (b0 = 0xE0 → 0xA0 ≤ b1) → (b0 = 0xED → b1 ≤ 0x9F) →
  EncodeRune (rune3 b0 b1 b2)
  = String (chr b0) (String (chr b1) (String (chr b2) "")).
Proof.
  intros H0 H1 H2 Hlo Hhi. rewrite rune3_value.
  set (r := b0 mod 16 * 4096 + b1 mod 64 * 64 + b2 mod 64).
  assert (0x800 ≤ r ≤ 0xFFFF ∧ ¬ (0xD800 ≤ r ≤ 0xDFFF)) as [Hr Hs]
    by (subst r; euclid).
  unfold EncodeRune, MaxRune, surrogateMin, surrogateMax, encode3.
  rewrite (Z.mod_small r) by lia.
  destruct (Z.leb_spec r 127); [lia|].
  destruct (Z.leb_spec r 2047); [lia|].
  destruct (Z.ltb_spec 1114111 r); [lia|].
  destruct (Z.leb_spec 55296 r), (Z.leb_spec r 57343); simpl; try lia;
    (destruct (Z.leb_spec r 65535); [|lia]);
    rewrite !Z.shiftr_div_pow2 by lia; change 0x3F with (Z.ones 6);
    rewrite !Z.land_ones by lia; change (2 ^ 6) with 64;
    change (2 ^ 12) with 4096;
    rewrite lor_lead3 by (subst r; euclid); rewrite !lor_cont;
    repeat f_equal; subst r; euclid.
Qed.

Lemma EncodeRune_4 b0 b1 b2 b3 :
  0xF0 ≤ b0 ≤ 0xF4 → 0x80 ≤ b1 ≤ 0xBF → 0x80 ≤ b2 ≤ 0xBF → 0x80 ≤ b3 ≤ 0xBF →
  (b0 = 0xF0 → 0x90 ≤ b1) → (b0 = 0xF4 → b1 ≤ 0x8F) →
  EncodeRune (rune4 b0 b1 b2 b3)
  = String (chr b0) (String (chr b1) (String (chr b2) (String (chr b3) ""))).
Proof.
  intros H0 H1 H2 H3 Hlo Hhi. rewrite rune4_value.
  set (r := b0 mod 8 * 262144 + b1 mod 64 * 4096 + b2 mod 64 * 64 + b3 mod 64).
  assert (0x10000 ≤ r ≤ 0x10FFFF) as Hr by (subst r; euclid).
  unfold EncodeRune, MaxRune, surrogateMin, surrogateMax.
  rewrite (Z.mod_small r) by lia.
  destruct (Z.leb_spec r 127); [lia|].
  destruct (Z.leb_spec r 2047); [lia|].
  destruct (Z.ltb_spec 1114111 r); [lia|].
  destruct (Z.leb_spec r 57343); [lia|].
  rewrite andb_false_r. simpl.
  destruct (Z.leb_spec r 65535); [lia|].
  rewrite !Z.shiftr_div_pow2 by lia. change 0x3F with (Z.ones 6).
  rewrite !Z.land_ones by lia.
  change (2 ^ 6) with 64. change (2 ^ 18) with 262144. change (2 ^ 12) with 4096.
  rewrite lor_lead4 by (subst r; euclid).
  rewrite !lor_cont.
  repeat f_equal; subst r; euclid.
Qed.


Lemma first_Lead b sz lo hi : first b = Lead sz lo hi → lead_ok b sz lo hi.
Proof.
  unfold first, lead_ok.
  repeat match goal with
  | |- context [?a <? ?b] => destruct (Z.ltb_spec a b)
  | |- context [?a =? ?b] => destruct (Z.eqb_spec a b)
  end; intros [=]; subst; lia.
Qed.

Lemma first_Single b : first b = Single → b < 0x80.
Proof.
  unfold first.
  repeat match goal with
  | |- context [?a <? ?b] => destruct (Z.ltb_spec a b)
  | |- context [?a =? ?b] => destruct (Z.eqb_spec a b)
  end; intros [=]; lia.
Qed.


Lemma continuation_range b : continuation b = true → 0x80 ≤ b ≤ 0xBF.
Proof. unfold continuation. intros [?%Z.leb_le ?%Z.leb_le]%andb_true_iff. lia. Qed.

(** A rune of more than one byte: re-encoding it gives back its bytes, all
    of which are at least [0x80], and what follows them plays no part. *)
Lemma DecodeRune_multi c s r size :
  RuneSelf ≤ byte c → DecodeRune (String c s) = (r, size) → size ≠ 1%nat →
  ∃ chunk rest,
    String c s = chunk +:+ rest ∧ String.length chunk = size ∧
    (2 ≤ size)%nat ∧ EncodeRune r = chunk ∧ all_high chunk ∧
    ∀ X, DecodeRune (chunk +:+ X) = (r, size).
Proof.
  intros Hc Hd Hsize. unfold DecodeRune in Hd. unfold RuneSelf in Hc.
  destruct (first (byte c)) as [| |sz lo hi] eqn:Hf.
  { apply first_Single in Hf. lia. }
  { by injection Hd as _ <-. }
  pose proof (first_Lead _ _ _ _ Hf) as (Hlo & Hhi & Hcases).
  destruct (String.length (String c s) <? sz)%nat eqn:Hlen;
    [by injection Hd as _ <-|].
  destruct s as [|c1 s2]; [by injection Hd as _ <-|].
  destruct ((byte c1 <? lo) || (hi <? byte c1)) eqn:Hacc;
    [by injection Hd as _ <-|].
  apply orb_false_elim in Hacc as [H1lo%Z.ltb_ge H1hi%Z.ltb_ge].
  destruct (sz <=? 2)%nat eqn:Hsz2.
  { injection Hd as <- <-. apply Nat.leb_le in Hsz2.
    exists (String c (String c1 "")), s2.
    split; [done|]. split; [done|]. split; [lia|]. split.
    - rewrite <- (chr_byte c) at 2. rewrite <- (chr_byte c1) at 2.
      apply (EncodeRune_2 (byte c) (byte c1)); lia.
    - split; [simpl; lia|]. intros X. simpl. unfold DecodeRune. rewrite Hf.
      destruct (Nat.ltb_spec (S (S (String.length X))) sz); [lia|].
      rewrite (proj2 (Z.ltb_ge _ _) H1lo), (proj2 (Z.ltb_ge _ _) H1hi). simpl.
      by rewrite (proj2 (Nat.leb_le _ _) Hsz2). }
  apply Nat.leb_gt in Hsz2.
  destruct s2 as [|c2 s3]; [by injection Hd as _ <-|].
  destruct (continuation (byte c2)) eqn:Hc2; simpl in Hd;
    [|by injection Hd as _ <-].
  pose proof (continuation_range _ Hc2) as H2.
  destruct (sz <=? 3)%nat eqn:Hsz3.
  { injection Hd as <- <-. apply Nat.leb_le in Hsz3.
    exists (String c (String c1 (String c2 ""))), s3.
    split; [done|]. split; [done|]. split; [lia|]. split.
    - rewrite <- (chr_byte c) at 2. rewrite <- (chr_byte c1) at 2.
      rewrite <- (chr_byte c2) at 2.
      apply (EncodeRune_3 (byte c) (byte c1) (byte c2)); lia.
    - split; [simpl; lia|]. intros X. simpl. unfold DecodeRune. rewrite Hf.
      destruct (Nat.ltb_spec (S (S (S (String.length X)))) sz); [lia|].
      rewrite (proj2 (Z.ltb_ge _ _) H1lo), (proj2 (Z.ltb_ge _ _) H1hi). simpl.
      rewrite (proj2 (Nat.leb_gt _ _) Hsz2), Hc2. simpl.
      by rewrite (proj2 (Nat.leb_le _ _) Hsz3). }
  apply Nat.leb_gt in Hsz3.
  destruct s3 as [|c3 s4]; [by injection Hd as _ <-|].
  destruct (continuation (byte c3)) eqn:Hc3; simpl in Hd;
    [|by injection Hd as _ <-].
  pose proof (continuation_range _ Hc3) as H3.
  injection Hd as <- <-.
  exists (String c (String c1 (String c2 (String c3 "")))), s4.
  split; [done|]. split; [done|]. split; [lia|]. split.
  - rewrite <- (chr_byte c) at 2. rewrite <- (chr_byte c1) at 2.
    rewrite <- (chr_byte c2) at 2. rewrite <- (chr_byte c3) at 2.
    apply (EncodeRune_4 (byte c) (byte c1) (byte c2) (byte c3)); lia.
  - split; [simpl; lia|]. intros X. simpl. unfold DecodeRune. rewrite Hf.
    destruct (Nat.ltb_spec (S (S (S (S (String.length X))))) sz); [lia|].
    rewrite (proj2 (Z.ltb_ge _ _) H1lo), (proj2 (Z.ltb_ge _ _) H1hi). simpl.
    rewrite (proj2 (Nat.leb_gt _ _) Hsz2), Hc2. simpl.
    rewrite (proj2 (Nat.leb_gt _ _) Hsz3), Hc3. done.
Qed.

(** ** JSON: writing a Manifest and reading it back *)

Import json manifest.

Lemma drop_length_le n s : (String.length (Str.drop n s) ≤ String.length s)%nat.
Proof.
  revert s. induction n as [|n IH]; intros [|c s]; simpl; try lia.
  specialize (IH s). lia.
Qed.

Lemma drop_S_length n c s :
  (String.length (Str.drop (S n) (String c s)) ≤ String.length s)%nat.
Proof. simpl. apply drop_length_le. Qed.

Lemma DecodeRune_size_pos c s : (1 ≤ (DecodeRune (String c s)).2)%nat.
Proof.
  unfold DecodeRune. repeat case_match; simpl; lia.
Qed.

Lemma DecodeRune_size_1 c s r :
  RuneSelf ≤ byte c → DecodeRune (String c s) = (r, 1%nat) → r = RuneError.
Proof.
  unfold RuneSelf. intros Hc. unfold DecodeRune.
  destruct (first (byte c)) eqn:Hf.
  - apply first_Single in Hf. lia.
  - by intros [= <-].
  - repeat case_match; intros [=]; subst; done.
Qed.

Lemma valid_fuel_wellformed fuel s : valid_fuel fuel s = true → wellformed s.
Proof.
  revert s. induction fuel as [|fuel IH]; intros [|c s]; cbn [valid_fuel];
    [intros _; apply wf_nil|done|intros _; apply wf_nil|].
  destruct (Z.ltb_spec (byte c) RuneSelf) as [Hlt|Hge].
  - intros Hv. constructor; [done|by apply IH].
  - destruct (DecodeRune (String c s)) as [r size] eqn:Hd.
    destruct (Nat.eqb_spec size 1); [done|]. intros Hv.
    eapply wf_rune; [done|done|done|by apply IH].
Qed.

Lemma ValidString_wellformed s : ValidString s = true → wellformed s.
Proof. apply valid_fuel_wellformed. Qed.

(** The fuel plays no part once it covers the length. *)
Lemma string_body_fuel f1 f2 s :
  (String.length s ≤ f1)%nat → (String.length s ≤ f2)%nat →
  string_body f1 s = string_body f2 s.
Proof.
  revert f2 s. induction f1 as [|f1 IH]; intros [|f2] [|c s];
    cbn [string_body String.length]; try done; try lia.
  intros H1 H2.
  rewrite (IH f2 s) by lia.
  destruct (byte c <? RuneSelf); [done|].
  pose proof (DecodeRune_size_pos c s) as Hpos.
  destruct (DecodeRune (String c s)) as [r size] eqn:Hd. simpl in Hpos.
  destruct size as [|size]; [lia|].
  pose proof (drop_S_length size c s).
  by rewrite (IH f2 (Str.drop (S size) (String c s))) by lia.
Qed.

Lemma enc_nil : enc "" = "".
Proof. done. Qed.

Lemma enc_ascii c s :
  byte c < RuneSelf → enc (String c s) = escape_ascii c +:+ enc s.
Proof.
  intros Hc. unfold enc. simpl. by rewrite (proj2 (Z.ltb_lt _ _) Hc).
Qed.

Lemma enc_rune c s r size :
  RuneSelf ≤ byte c → DecodeRune (String c s) = (r, size) → size ≠ 1%nat →
  enc (String c s) =
  (if (r =? 0x2028) || (r =? 0x2029)
   then "\u202" +:+ String (hex_digit (Z.land r 0xF)) ""
   else Str.take size (String c s)) +:+ enc (Str.drop size (String c s)).
Proof.
  intros Hc Hd Hsize. unfold enc. cbn [string_body String.length].
  rewrite (proj2 (Z.ltb_ge _ _) Hc), Hd.
  rewrite (proj2 (Nat.eqb_neq _ _) Hsize), andb_false_r.
  pose proof (DecodeRune_size_pos c s) as Hpos. rewrite Hd in Hpos.
  simpl in Hpos. destruct size as [|size]; [lia|].
  pose proof (drop_S_length size c s).
  rewrite (string_body_fuel (String.length s)
             (String.length (Str.drop (S size) (String c s)))
             (Str.drop (S size) (String c s))) by lia.
  destruct ((r =? 8232) || (r =? 8233)); [|done].
  simpl. done.
Qed.

Lemma escape_ascii_escaped c : byte c < RuneSelf → escaped c (escape_ascii c).
Proof.
  destruct c as [b0 b1 b2 b3 b4 b5 b6 b7].
  destruct b7; [by destruct b0, b1, b2, b3, b4, b5, b6|]. intros _.
  destruct b0, b1, b2, b3, b4, b5, b6;
    first
      [ by apply esc_safe
      | by apply esc_short
      | eapply esc_hex; by vm_compute ].
Qed.

Lemma byte_eq c d : byte c = byte d → c = d.
Proof. intros E. rewrite <- (chr_byte c), <- (chr_byte d). by rewrite E. Qed.

Lemma htmlSafe_inv b :
  htmlSafe b = true → 0x20 ≤ b < 0x80 ∧ b ≠ 0x22 ∧ b ≠ 0x5C.
Proof.
  unfold htmlSafe. rewrite !andb_true_iff, negb_true_iff, !orb_false_iff.
  rewrite !Z.eqb_neq, Z.leb_le, Z.ltb_lt. lia.
Qed.

Lemma plain_byte c :
  0x20 ≤ byte c → byte c ≠ 0x22 → byte c ≠ 0x5C →
  bool_decide (c = dquote) = false ∧ bool_decide (c = backslash) = false ∧
  (byte c <? 0x20) = false ∧ (byte c =? 0x5C) = false ∧ (byte c =? 0x22) = false.
Proof.
  intros H1 H2 H3. repeat split.
  - apply bool_decide_eq_false_2. by intros ->.
  - apply bool_decide_eq_false_2. by intros ->.
  - by apply Z.ltb_ge.
  - by apply Z.eqb_neq.
  - by apply Z.eqb_neq.
Qed.

(** The scanner passes over what [string_body] writes. *)
Lemma scan_plain c X raw rest :
  0x20 ≤ byte c → byte c ≠ 0x22 → byte c ≠ 0x5C →
  scan_string X = Ok (raw, rest) →
  scan_string (String c X) = Ok (String c raw, rest).
Proof.
  intros H1 H2 H3 HX.
  destruct (plain_byte c H1 H2 H3) as (Hq & Hb & Hlt & _).
  cbn [scan_string]. rewrite Hq, Hb, Hlt, HX. done.
Qed.

Lemma scan_escaped c esc X raw rest :
  escaped c esc →
  scan_string X = Ok (raw, rest) →
  scan_string (esc +:+ X) = Ok (esc +:+ raw, rest).
Proof.
  intros Hesc HX. destruct Hesc as [Hsafe|e He Hu Hun|h1 h2 a b Ha Hb Hab].
  - apply htmlSafe_inv in Hsafe as (? & ? & ?). apply scan_plain; [lia..|done].
  - cbn [String.append scan_string]. rewrite He, HX. done.
  - cbn [String.append scan_string]. simpl hex_value. rewrite Ha, Hb, HX. done.
Qed.

Lemma scan_high chunk X raw rest :
  all_high chunk →
  scan_string X = Ok (raw, rest) →
  scan_string (chunk +:+ X) = Ok (chunk +:+ raw, rest).
Proof.
  induction chunk as [|c chunk IH]; [done|]. intros [Hc Hhigh] HX.
  cbn [String.append]. apply scan_plain; [lia..|]. by apply IH.
Qed.

Lemma take_drop_chunk chunk X :
  Str.take (String.length chunk) (chunk +:+ X) = chunk ∧
  Str.drop (String.length chunk) (chunk +:+ X) = X.
Proof. split; [apply take_app_length|apply drop_app_length]. Qed.

Lemma scan_enc s X raw rest :
  wellformed s →
  scan_string X = Ok (raw, rest) →
  scan_string (enc s +:+ X) = Ok (enc s +:+ raw, rest).
Proof.
  intros Hs HX. induction Hs as [|c s Hc _ IH|c s r size Hc Hd Hsize _ IH].
  - done.
  - rewrite enc_ascii by done. rewrite !str_app_assoc.
    apply (scan_escaped c); [by apply escape_ascii_escaped|done].
  - rewrite (enc_rune c s r size) by done.
    destruct (DecodeRune_multi c s r size Hc Hd Hsize)
      as (chunk & rest' & E & Hlen & H2 & Henc & Hhigh & Hany).
    rewrite !str_app_assoc.
    destruct ((r =? 8232) || (r =? 8233)) eqn:Hr.
    + apply orb_true_iff in Hr as [->%Z.eqb_eq| ->%Z.eqb_eq];
        cbn [String.append scan_string]; simpl; by rewrite IH.
    + assert (Str.take size (String c s) = chunk) as ->
        by (rewrite E, <- Hlen; apply take_app_length).
      by apply scan_high.
Qed.

(** Unquoting gives back what [string_body] was given. *)
Lemma unquote_plain f c X t :
  0x20 ≤ byte c < 0x80 → byte c ≠ 0x22 → byte c ≠ 0x5C →
  unquote_rest f X = Some t →
  unquote_rest (S f) (String c X) = Some (String c t).
Proof.
  intros H1 H2 H3 HX.
  destruct (plain_byte c) as (_ & _ & Hlt & Hb & Hq); [lia..|].
  cbn [unquote_rest]. rewrite Hb, Hq, Hlt. simpl.
  rewrite (proj2 (Z.ltb_lt (byte c) RuneSelf)) by (unfold RuneSelf; lia).
  by rewrite HX.
Qed.

Lemma EncodeRune_ascii c : byte c < RuneSelf → EncodeRune (byte c) = String c "".
Proof.
  unfold RuneSelf. intros Hc. pose proof (byte_range c). unfold EncodeRune.
  rewrite Z.mod_small by lia.
  destruct (Z.leb_spec (byte c) 127); [|lia]. by rewrite chr_byte.
Qed.

Lemma getu4_hex h1 h2 a b X :
  hex_value h1 = Some a → hex_value h2 = Some b →
  getu4 (String backslash (String "u" (String "0" (String "0"
           (String h1 (String h2 X)))))) = a * 16 + b.
Proof.
  intros Ha Hb. unfold getu4. rewrite !bool_decide_eq_true_2 by done.
  change (hex_value "0") with (Some 0). rewrite Ha, Hb. cbn [andb]. lia.
Qed.

Lemma unquote_escaped f c esc X t :
  byte c < RuneSelf → escaped c esc →
  unquote_rest f X = Some t →
  unquote_rest (S f) (esc +:+ X) = Some (String c t).
Proof.
  intros Hc Hesc HX. destruct Hesc as [Hsafe|e He Hu Hun|h1 h2 a b Ha Hb Hab].
  - apply htmlSafe_inv in Hsafe as (? & ? & ?). apply unquote_plain; [lia..|done].
  - cbn [String.append unquote_rest]. change (byte backslash =? 92) with true.
    cbv iota. rewrite bool_decide_eq_false_2 by done. by rewrite Hun, HX.
  - cbn [String.append unquote_rest]. change (byte backslash =? 92) with true.
    cbv iota. rewrite bool_decide_eq_true_2 by done.
    rewrite (getu4_hex h1 h2 a b) by done.
    rewrite Hab. pose proof (byte_range c). unfold RuneSelf in Hc.
    destruct (Z.ltb_spec (byte c) 0); [lia|].
    destruct (Z.leb_spec 55296 (byte c)); [lia|]. cbn [andb].
    simpl Str.drop. rewrite HX. simpl.
    by rewrite EncodeRune_ascii.
Qed.

Lemma all_high_head chunk :
  all_high chunk → chunk ≠ "" →
  ∃ c t, chunk = String c t ∧ 0x80 ≤ byte c.
Proof. destruct chunk as [|c t]; [done|]. intros [? _] _. eauto. Qed.

Lemma unquote_rune f c s r size X t :
  RuneSelf ≤ byte c → DecodeRune (String c s) = (r, size) → size ≠ 1%nat →
  unquote_rest f X = Some t →
  unquote_rest (S f) (Str.take size (String c s) +:+ X)
  = Some (Str.take size (String c s) +:+ t).
Proof.
  intros Hc Hd Hsize HX.
  destruct (DecodeRune_multi c s r size Hc Hd Hsize)
    as (chunk & rest' & E & Hlen & H2 & Henc & Hhigh & Hany).
  assert (Str.take size (String c s) = chunk) as ->
    by (rewrite E, <- Hlen; apply take_app_length).
  destruct chunk as [|c' chunk'] eqn:Hchunk; [simpl in Hlen; lia|].
  injection E as <- _. rewrite <- Hchunk in *. specialize (Hany X).
  rewrite Hchunk in Hany |- *. cbn [String.append] in Hany |- *.
  unfold RuneSelf in Hc.
  cbn [unquote_rest].
  destruct (Z.eqb_spec (byte c) 92); [lia|].
  destruct (Z.eqb_spec (byte c) 34); [lia|].
  destruct (Z.ltb_spec (byte c) 32); [lia|]. cbn [orb].
  destruct (Z.ltb_spec (byte c) RuneSelf); [unfold RuneSelf in *; lia|].
  rewrite Hany.
  assert (Str.drop size (String c (chunk' +:+ X)) = X) as ->.
  { rewrite <- Hlen, Hchunk.
    change (String c (chunk' +:+ X)) with (String c chunk' +:+ X).
    apply drop_app_length. }
  rewrite HX. simpl. by rewrite Henc, Hchunk.
Qed.

Lemma unquote_rest_mono f g s t :
  unquote_rest f s = Some t → (f ≤ g)%nat → unquote_rest g s = Some t.
Proof.
  revert g s t. induction f as [|f IH]; intros [|g] [|c s] t; try done; try lia.
  intros Hu Hg. cbn [unquote_rest] in Hu |- *.
  repeat case_match; try done;
    match type of Hu with
    | (unquote_rest f ?y ≫= _) = Some _ =>
        destruct (unquote_rest f y) as [t'|] eqn:Hy; [|done];
        rewrite (IH g y t' Hy) by lia; done
    end.
Qed.

Lemma unquote_enc s :
  wellformed s →
  ∀ f, (String.length (enc s) ≤ f)%nat → unquote_rest f (enc s) = Some s.
Proof.
  induction 1 as [|c s Hc _ IH|c s r size Hc Hd Hsize _ IH]; intros f Hf.
  - by destruct f.
  - rewrite enc_ascii in Hf |- * by done. rewrite str_length_app in Hf.
    pose proof (escape_ascii_escaped c Hc) as Hesc.
    assert (1 ≤ String.length (escape_ascii c))%nat by (destruct Hesc; simpl; lia).
    destruct f as [|f]; [lia|].
    apply (unquote_escaped _ c); [done|done|]. apply IH. lia.
  - rewrite (enc_rune c s r size) in Hf |- * by done.
    rewrite str_length_app in Hf.
    destruct (DecodeRune_multi c s r size Hc Hd Hsize)
      as (chunk & rest' & E & Hlen & H2 & Henc & Hhigh & Hany).
    assert (Str.take size (String c s) = chunk) as Htake
      by (rewrite E, <- Hlen; apply take_app_length).
    assert (Str.drop size (String c s) = rest') as Hdrop
      by (rewrite E, <- Hlen; apply drop_app_length).
    rewrite Hdrop in *.
    destruct ((r =? 8232) || (r =? 8233)) eqn:Hr.
    + simpl in Hf. destruct f as [|f]; [lia|].
      assert (unquote_rest f (enc rest') = Some rest') as Hrest
        by (apply IH; lia).
      rewrite E, <- Henc.
      apply orb_true_iff in Hr as [->%Z.eqb_eq| ->%Z.eqb_eq];
        cbn [String.append unquote_rest]; simpl; by rewrite Hrest.
    + rewrite Htake in Hf. destruct f as [|f]; [lia|].
      rewrite (unquote_rune f c s r size _ rest'); try done.
      * by rewrite Htake, E.
      * apply IH. lia.
Qed.

Lemma take_add_app chunk n X :
  Str.take (String.length chunk + n) (chunk +:+ X) = chunk +:+ Str.take n X.
Proof. induction chunk as [|c chunk IH]; simpl; [done|]. by rewrite IH. Qed.

Lemma drop_add_app chunk n X :
  Str.drop (String.length chunk + n) (chunk +:+ X) = Str.drop n X.
Proof. induction chunk as [|c chunk IH]; simpl; [done|]. by rewrite IH. Qed.

Lemma plain_prefix_backslash f X : plain_prefix f (String backslash X) = 0%nat.
Proof. by destruct f. Qed.

(** The first loop of [unquoteBytes] only saves work: what it skips is what
    the second loop would have copied. *)
Lemma unquote_fast_path s :
  wellformed s →
  ∀ f, (String.length (enc s) ≤ f)%nat →
    ∃ t, unquote_rest f (Str.drop (plain_prefix f (enc s)) (enc s)) = Some t ∧
         Str.take (plain_prefix f (enc s)) (enc s) +:+ t = s.
Proof.
  intros Hs. pose proof (unquote_enc s Hs) as Hslow. revert Hslow.
  induction Hs as [|c s Hc Hs IH|c s r size Hc Hd Hsize Hs IH];
    intros Hslow f Hf.
  - exists "". by destruct f.
  - pose proof (escape_ascii_escaped c Hc) as Hesc.
    rewrite enc_ascii in Hf, Hslow |- * by done.
    destruct Hesc as [Hsafe|e He Hu Hun|h1 h2 a b Ha Hb Hab].
    + apply htmlSafe_inv in Hsafe as (? & ? & ?).
      cbn [String.append String.length] in Hf |- *.
      destruct f as [|f]; [lia|].
      destruct (IH (unquote_enc s Hs) f) as (t & Ht & Es); [lia|].
      exists t. cbn [plain_prefix].
      destruct (plain_byte c) as (_ & _ & -> & -> & ->); [lia..|].
      cbn [orb]. rewrite (proj2 (Z.ltb_lt (byte c) RuneSelf)) by done.
      cbn [Str.drop Str.take String.append]. rewrite Es.
      split; [|done]. apply (unquote_rest_mono f); [done|lia].
    + cbn [String.append]. rewrite plain_prefix_backslash.
      exists (String c s). split; [|done]. by apply Hslow.
    + cbn [String.append]. rewrite plain_prefix_backslash.
      exists (String c s). split; [|done]. by apply Hslow.
  - rewrite (enc_rune c s r size) in Hf, Hslow |- * by done.
    destruct (DecodeRune_multi c s r size Hc Hd Hsize)
      as (chunk & rest' & E & Hlen & H2 & Henc & Hhigh & Hany).
    assert (Str.take size (String c s) = chunk) as Htake
      by (rewrite E, <- Hlen; apply take_app_length).
    assert (Str.drop size (String c s) = rest') as Hdrop
      by (rewrite E, <- Hlen; apply drop_app_length).
    rewrite Hdrop, Htake in *.
    destruct ((r =? 8232) || (r =? 8233)) eqn:Hr.
    + cbn [String.append]. rewrite plain_prefix_backslash.
      exists (String c s). split; [|done]. by apply Hslow.
    + rewrite str_length_app in Hf.
      destruct f as [|f]; [lia|].
      destruct (IH (unquote_enc rest' Hs) f) as (t & Ht & Es); [lia|].
      exists t.
      assert (plain_prefix (S f) (chunk +:+ enc rest')
              = (String.length chunk + plain_prefix f (enc rest'))%nat) as ->.
      { destruct chunk as [|c' chunk']; [simpl in Hlen; lia|].
        injection E as <- _. specialize (Hany (enc rest')).
        cbn [String.append] in Hany |- *. cbn [plain_prefix].
        unfold RuneSelf in Hc.
        destruct (Z.eqb_spec (byte c) 92); [lia|].
        destruct (Z.eqb_spec (byte c) 34); [lia|].
        destruct (Z.ltb_spec (byte c) 32); [lia|]. cbn [orb].
        destruct (Z.ltb_spec (byte c) RuneSelf); [unfold RuneSelf in *; lia|].
        rewrite Hany, (proj2 (Nat.eqb_neq _ _) Hsize), andb_false_r.
        rewrite Hlen.
        change (String c (chunk' +:+ enc rest'))
          with (String c chunk' +:+ enc rest').
        rewrite <- Hlen at 2. by rewrite drop_app_length. }
      rewrite take_add_app, drop_add_app, str_app_assoc, Es.
      split; [apply (unquote_rest_mono f); [done|lia]|by rewrite E].
Qed.

Lemma take_all s : Str.take (String.length s) s = s.
Proof. induction s as [|c s IH]; simpl; [done|]. by rewrite IH. Qed.

Lemma drop_all s : Str.drop (String.length s) s = "".
Proof. induction s as [|c s IH]; simpl; done. Qed.

(** A literal written by [string_body] unquotes to the string it was
    written for. *)
Lemma unquoteBytes_enc s : wellformed s → unquoteBytes (enc s) = Some s.
Proof.
  intros Hs. unfold unquoteBytes.
  destruct (unquote_fast_path s Hs (String.length (enc s))) as (t & Ht & Es);
    [done|].
  destruct (Nat.eqb_spec (plain_prefix (String.length (enc s)) (enc s))
              (String.length (enc s))) as [Hall|Hnot].
  - rewrite Hall in Ht, Es. rewrite drop_all in Ht. rewrite take_all in Es.
    assert (t = "") as -> by (destruct (String.length (enc s)); by injection Ht).
    rewrite str_app_nil_r in Es. by rewrite Es.
  - rewrite Ht. simpl. by rewrite Es.
Qed.


Lemma quote_app s Y :
  quote s +:+ Y = String dquote (enc s +:+ String dquote Y).
Proof. unfold quote. fold (enc s). cbn [String.append]. by rewrite str_app_assoc. Qed.

Lemma scan_quoted s Y :
  wellformed s → scan_string (enc s +:+ String dquote Y) = Ok (enc s, Y).
Proof.
  intros Hs. rewrite (scan_enc s (String dquote Y) "" Y Hs); [|done].
  by rewrite str_app_nil_r.
Qed.

Lemma parse_value_string fuel v Y :
  wellformed v → parse_value (S fuel) (quote v +:+ Y) = Ok (Str v, Y).
Proof.
  intros Hv. rewrite quote_app. cbn [parse_value skip_space].
  change (is_space dquote) with false. cbv iota.
  rewrite bool_decide_eq_true_2 by done.
  rewrite scan_quoted by done. cbn [bind fst snd].
  by rewrite unquoteBytes_enc.
Qed.


Lemma parse_members_entries entries :
  entries ≠ [] →
  Forall (λ kv, wellformed kv.1 ∧ wellformed kv.2) entries →
  ∀ fuel Y, (length entries < fuel)%nat →
    parse_members fuel (join_with "," (member <$> entries) +:+ String "}" Y)
    = Ok (as_members entries, Y).
Proof.
  induction entries as [|[k v] entries IH]; [done|].
  intros _ [[Hk Hv] Hall]%Forall_cons fuel Y Hfuel.
  destruct fuel as [|fuel]; [lia|]. simpl in Hfuel.
  destruct fuel as [|fuel]; [lia|].
  assert (∀ Z, parse_members (S (S fuel))
                 (member (k, v) +:+ Z)
               = (let* r := Ok (Str v, Z) in
                  match skip_space r.2 with
                  | String ","%char rest =>
                      let* r' := parse_members (S fuel) rest in
                      Ok ((k, r.1) :: r'.1, r'.2)
                  | String "}"%char rest => Ok ([(k, r.1)], rest)
                  | _ => Err "invalid character after object key:value pair"
                  end)) as Hstep.
  { intros Z. unfold member. cbn [fst snd]. rewrite !str_app_assoc.
    rewrite quote_app. cbn [parse_members skip_space].
    change (is_space dquote) with false. cbv iota.
    rewrite bool_decide_eq_true_2 by done.
    rewrite scan_quoted by done. cbn [bind fst snd].
    rewrite unquoteBytes_enc by done.
    cbn [String.append skip_space]. change (is_space ":") with false.
    cbv iota. by rewrite parse_value_string. }
  destruct entries as [|kv' entries].
  - cbn [fmap list_fmap join_with]. rewrite Hstep. done.
  - change (join_with "," (member <$> (k, v) :: kv' :: entries))
      with (member (k, v) +:+ "," +:+ join_with "," (member <$> kv' :: entries)).
    rewrite !str_app_assoc, Hstep. cbn [bind snd fst String.append skip_space].
    change (is_space ",") with false. cbv iota.
    rewrite IH; [done|done|done|simpl in *; lia].
Qed.

Lemma store_entries_strings entries f :
  store_entries f (as_members entries)
  = Ok (fold_left (λ acc kv, <[kv.1 := kv.2]> acc) entries f).
Proof.
  revert f. induction entries as [|[k v] entries IH]; intros f; [done|].
  cbn [as_members fmap list_fmap store_entries fst snd fold_left].
  apply IH.
Qed.

Lemma fold_insert_list_to_map (entries : list (string * string))
    (f : gmap string string) :
  NoDup entries.*1 →
  fold_left (λ acc kv, <[kv.1 := kv.2]> acc) entries f
  = list_to_map entries ∪ f.
Proof.
  revert f. induction entries as [|[k v] entries IH]; intros f Hnd.
  - cbn. by rewrite (left_id_L ∅ (∪)).
  - apply NoDup_cons in Hnd as [Hk Hnd]. cbn [fold_left fst snd].
    rewrite IH by done. cbn [list_to_map foldr uncurry fst snd].
    rewrite <- insert_union_l. rewrite insert_union_r; [done|].
    by apply not_elem_of_list_to_map_1.
Qed.

Lemma sorted_entries_perm order f :
  sorted_entries order f ≡ₚ map_to_list f.
Proof.
  unfold sorted_entries. rewrite merge_sort_Permutation.
  assert (order f ≡ₚ (map_to_list f).*1) as -> by apply range_keys_perm.
  rewrite <- list_fmap_compose.
  rewrite <- (list_fmap_id (map_to_list f)) at 2.
  apply Permutation_refl'. apply list_fmap_ext.
  intros i [k v] Hkv. cbn.
  apply list_elem_of_lookup_2, elem_of_map_to_list in Hkv.
  by rewrite Hkv.
Qed.

Lemma length_member_pos kv : (0 < String.length (member kv))%nat.
Proof. unfold member, quote. cbn. lia. Qed.

Lemma length_join_members (l : list (string * string)) :
  (length l ≤ String.length (join_with "," (member <$> l)))%nat.
Proof.
  induction l as [|kv l IH]; [cbn; lia|].
  destruct l as [|kv' l].
  - cbn [fmap list_fmap join_with length]. pose proof (length_member_pos kv). lia.
  - change (join_with "," (member <$> kv :: kv' :: l))
      with (member kv +:+ "," +:+ join_with "," (member <$> kv' :: l)).
    rewrite !str_length_app. pose proof (length_member_pos kv).
    cbn [length] in *. lia.
Qed.

Lemma wellformed_files : wellformed "files".
Proof. repeat (apply wf_ascii; [by vm_compute|]). apply wf_nil. Qed.

Lemma join_members_head kv l Y :
  ∃ Z, join_with "," (member <$> kv :: l) +:+ Y = String dquote Z.
Proof.
  destruct l as [|kv' l].
  - cbn [fmap list_fmap join_with]. unfold member. rewrite !str_app_assoc, quote_app. eauto.
  - change (join_with "," (member <$> kv :: kv' :: l))
      with (member kv +:+ "," +:+ join_with "," (member <$> kv' :: l)).
    unfold member. rewrite !str_app_assoc, quote_app. eauto.
Qed.

Lemma parse_object entries fuel :
  entries ≠ [] →
  Forall (λ kv, wellformed kv.1 ∧ wellformed kv.2) entries →
  (length entries + 3 < fuel)%nat →
  parse_value fuel ("{" +:+ quote "files" +:+ ":{" +:+
                    join_with "," (member <$> entries) +:+ "}}")
  = Ok (Obj [("files", Obj (as_members entries))], "").
Proof.
  intros Hne Hall Hfuel.
  destruct fuel as [|fuel]; [lia|]. destruct fuel as [|fuel]; [lia|].
  destruct fuel as [|fuel]; [lia|].
  rewrite quote_app.
  cbn [String.append parse_value skip_space].
  change (is_space "{") with false. cbv iota.
  rewrite bool_decide_eq_false_2 by done.
  rewrite bool_decide_eq_true_2 by done.
  cbn [skip_space]. change (is_space dquote) with false. cbv iota.
  cbn [parse_members skip_space]. change (is_space dquote) with false. cbv iota.
  rewrite bool_decide_eq_true_2 by done.
  rewrite scan_quoted by apply wellformed_files. cbn [bind fst snd].
  rewrite unquoteBytes_enc by apply wellformed_files.
  cbn [String.append skip_space]. change (is_space ":") with false. cbv iota.
  cbn [parse_value skip_space]. change (is_space "{") with false. cbv iota.
  rewrite bool_decide_eq_false_2 by done.
  rewrite bool_decide_eq_true_2 by done.
  destruct entries as [|kv entries]; [done|].
  destruct (join_members_head kv entries "}}") as [Z HZ].
  rewrite HZ. cbn [skip_space]. change (is_space dquote) with false. cbv iota.
  rewrite <- HZ.
  change "}}" with (String "}" "}").
  rewrite parse_members_entries; [|done|done|cbn [length] in *; lia].
  done.
Qed.

Lemma wellformed_entries order f :
  map_Forall (λ k v, ValidString k = true ∧ ValidString v = true) f →
  Forall (λ kv, wellformed kv.1 ∧ wellformed kv.2) (sorted_entries order f).
Proof.
  intros Hf. apply Forall_forall. intros [k v] Hkv.
  rewrite sorted_entries_perm in Hkv. apply elem_of_map_to_list in Hkv.
  destruct (Hf k v Hkv) as [Hk Hv]. cbn.
  split; by apply ValidString_wellformed.
Qed.

Lemma Decode_Marshal_files order f :
  map_Forall (λ k v, ValidString k = true ∧ ValidString v = true) f →
  size f ≠ 0%nat →
  Decode (Marshal order {| Files := Some f |}) {| Files := None |}
  = Ok {| Files := Some f |}.
Proof.
  intros Hvalid Hsize. unfold Marshal. cbn [Files].
  rewrite bool_decide_eq_false_2 by done.
  assert (sorted_entries order f ≠ []) as Hne.
  { intros Hnil. apply Hsize. rewrite <- length_map_to_list.
    by rewrite <- sorted_entries_perm, Hnil. }
  unfold Decode. rewrite parse_object; [|done|by apply wellformed_entries|].
  - cbn [bind fst unmarshal store_fields].
    change (is_files "files") with true. cbv iota. cbn [Files default].
    rewrite store_entries_strings. cbn [bind store_fields].
    assert (NoDup (sorted_entries order f).*1) as Hnd.
    { rewrite sorted_entries_perm. apply NoDup_fst_map_to_list. }
    rewrite fold_insert_list_to_map by done.
    rewrite (right_id_L ∅ (∪)).
    rewrite (list_to_map_proper _ (map_to_list f)) by (done || apply sorted_entries_perm).
    by rewrite list_to_map_to_list.
  - pose proof (length_join_members (sorted_entries order f)).
    rewrite !str_length_app. cbn [String.length]. lia.
Qed.


(** C7 (amended): a Manifest whose paths and digests are valid UTF-8 is
    restored by decoding what [Marshal] writes: the decoder succeeds and the
    mapping it yields has the same keys with the same digests. *)
Theorem manifest_round_trip (order : range_order) (m : Manifest) :
  valid_strings m →
  ∃ m', Decode (Marshal order m) manifest.empty = Ok m' ∧ mapping m' = mapping m.
Proof.
  intros Hvalid. destruct m as [[f|]].
  - destruct (decide (size f = 0%nat)) as [Hsize|Hsize].
    + exists manifest.empty. unfold Marshal. cbn [Files].
      rewrite bool_decide_eq_true_2 by done. split; [by vm_compute|].
      apply map_size_empty_iff in Hsize. by subst f.
    + exists {| Files := Some f |}. split; [|done].
      by apply Decode_Marshal_files.
  - exists manifest.empty. split; [by vm_compute|done].
Qed.

Definition accented : Manifest :=
  {| Files := Some (list_to_map
       [("caf" +:+ String (chr 0xC3) (String (chr 0xA9) "") +:+ "/<menu>", "sha256:0a");
        ("src/main.go", "sha256:1b")]) |}.

Lemma manifest_round_trip_witness :
  ∃ m', Decode (Marshal range_default accented) manifest.empty = Ok m'
        ∧ mapping m' = mapping accented.
Proof.
  apply (manifest_round_trip range_default accented).
  unfold valid_strings, accented, mapping. cbn [Files default list_to_map foldr uncurry fst snd].
  apply map_Forall_insert_2; [by vm_compute|].
  apply map_Forall_insert_2; [by vm_compute|].
  apply map_Forall_empty.
Defined.

Definition latin1_name : string := String (chr 0xE9) ".txt".

Definition latin1 : Manifest :=
  {| Files := Some {[ latin1_name := "sha256:0a" ]} |}.

Lemma invalid_utf8_key_replaced :
  ∃ m', Decode (Marshal range_default latin1) manifest.empty = Ok m'
        ∧ mapping m' !! latin1_name = None
        ∧ mapping latin1 !! latin1_name = Some "sha256:0a"
        ∧ mapping m' ≠ mapping latin1.
Proof.
  eexists. split; [by vm_compute|].
  split; [by vm_compute|]. split; [by vm_compute|].
  intros Heq. apply (f_equal (λ g, g !! latin1_name)) in Heq. by vm_compute in Heq.
Qed.

(** ** The extractor *)

Import filepath extractor.

(** *** Paths under the workspace *)

Lemma real_workspace : real "workspace".
Proof. by repeat split. Qed.

Lemma clean_form_real l : Forall real l → clean_form true l.
Proof. intros Hl. exists 0%nat, l. by repeat split. Qed.

Lemma clean_form_target names :
  Forall real names → clean_form true ("workspace" :: names).
Proof. intros Hl. apply clean_form_real. constructor; [apply real_workspace|done]. Qed.

Lemma under_target_nil : under_target [] = TargetPath.
Proof. done. Qed.

Lemma under_target_snoc names x :
  under_target (names ++ [x]) = under_target names +:+ String Str.slash x.
Proof. unfold under_target. by rewrite app_comm_cons, build_snoc. Qed.

Lemma split_join_real l : l ≠ [] → Forall real l → Str.split (Str.join l) = l.
Proof.
  intros Hne Hl. apply split_join; [done|].
  eapply Forall_impl; [done|]. intros x. apply real_noslash.
Qed.

Lemma Join_target names :
  names ≠ [] → Forall real names →
  Join TargetPath (Str.join names) = under_target names.
Proof.
  intros Hne Hl. unfold Join. rewrite bool_decide_eq_true_2 by done.
  change TargetPath with (build true ["workspace"]).
  rewrite Clean_build_app by (apply clean_form_real; repeat constructor; apply real_workspace).
  rewrite split_join_real, clean_elems_real by done.
  unfold under_target, build. simpl. by rewrite rev_app_distr, rev_involutive.
Qed.

Lemma Dir_under_target names x :
  Forall real (names ++ [x]) → Dir (under_target (names ++ [x])) = under_target names.
Proof.
  intros [Hl [Hx _]%Forall_cons]%Forall_app.
  rewrite under_target_snoc. unfold Dir.
  rewrite take_last_slash_app by by apply real_noslash.
  unfold under_target. rewrite Clean_build_app by by apply clean_form_target.
  simpl. done.
Qed.

Lemma under_target_inj a b :
  Forall real a → Forall real b → under_target a = under_target b → a = b.
Proof.
  intros Ha Hb E. unfold under_target in E. rewrite !build_rooted in E.
  assert (Str.join ("workspace" :: a) = Str.join ("workspace" :: b)) as E'
    by congruence.
  apply (f_equal Str.split) in E'.
  rewrite !split_join_real in E'; try done.
  - by injection E'.
  - constructor; [apply real_workspace|done].
  - constructor; [apply real_workspace|done].
Qed.

Lemma under_target_not_root names : under_target names ≠ "/".
Proof.
  unfold under_target. rewrite build_rooted. destruct names; [done|].
  by rewrite join_cons.
Qed.

Lemma trim_slashes_noslash x : noslash x → Str.trim_slashes x = x.
Proof.
  unfold noslash. induction x as [|c x IH]; [done|]. simpl.
  intros [Hc Hx]%orb_false_elim. rewrite IH by done.
  destruct x; [by rewrite Hc|done].
Qed.

Lemma trim_slashes_app a x :
  x ≠ "" → noslash x → Str.trim_slashes (a +:+ x) = a +:+ x.
Proof.
  intros Hne Hx. induction a as [|c a IH]; simpl.
  - by apply trim_slashes_noslash.
  - rewrite IH. destruct (a +:+ x) eqn:E; [|done].
    destruct a; [done|done].
Qed.

(** The parent [MkdirAll] computes for a path under the workspace. *)
Lemma parent_slice names x :
  Forall real (names ++ [x]) →
  let path := under_target (names ++ [x]) in
  let j := Str.last_slash (Str.trim_slashes path) in
  (1 <? j)%nat = true ∧ Str.take (j - 1) path = under_target names.
Proof.
  intros [Hl [Hx _]%Forall_cons]%Forall_app. cbv zeta.
  destruct Hx as (Hne & _ & _ & Hns).
  assert (1 ≤ String.length (under_target names))%nat as Hlen.
  { unfold under_target. rewrite build_rooted. simpl. lia. }
  rewrite under_target_snoc.
  assert (Str.last_slash (Str.trim_slashes
            (under_target names +:+ String Str.slash x))
          = S (String.length (under_target names))) as ->.
  { replace (under_target names +:+ String Str.slash x)
      with ((under_target names +:+ String Str.slash "") +:+ x)
      by by rewrite str_app_assoc.
    rewrite trim_slashes_app by done. rewrite str_app_assoc.
    change (String Str.slash "" +:+ x) with (String Str.slash x).
    by rewrite last_slash_app. }
  split.
  - apply Nat.ltb_lt. lia.
  - replace (S (String.length (under_target names)) - 1)%nat
      with (String.length (under_target names)) by lia.
    apply take_app_length.
Qed.

Lemma parent_slice_target :
  Str.last_slash (Str.trim_slashes TargetPath) = 1%nat.
Proof. done. Qed.

Lemma length_under_target names x :
  ∃ f, String.length (under_target (names ++ [x])) = S (S f).
Proof.
  rewrite under_target_snoc, str_length_app. unfold under_target.
  rewrite build_rooted. simpl. eauto.
Qed.

(** The path the walk gives for an entry, its relative path, and where the
    extractor puts it. *)
Lemma walk_path_relative names :
  names ≠ [] → Forall real names →
  fold_left Join names BasePath ≠ BasePath ∧
  Str.slice_from (fold_left Join names BasePath) (Str.len BasePath + 1)
  = Ok (Str.join names).
Proof.
  intros Hne Hl.
  pose proof (relative_joined BasePath names) as Hrel.
  unfold kontext.relative in Hrel.
  destruct (decide (fold_left Join names BasePath = BasePath)) as [E|E].
  - rewrite bool_decide_eq_false_2 in Hrel by naive_solver.
    assert (Ok "." = Ok (Str.join names)) as [= Hj] by by apply Hrel.
    apply (f_equal Str.split) in Hj. rewrite split_join_real in Hj by done.
    subst names. apply Forall_cons in Hl as [(_ & Hdot & _) _]. done.
  - split; [done|]. rewrite bool_decide_eq_true_2 in Hrel by done.
    by apply Hrel.
Qed.


(** *** Making directories under the workspace *)

Section extraction.
Context (umask : Z).
Import os disk extractor.

Lemma is_dir_lookup d p : is_dir d p = true ↔ ∃ m, d !! p = Some (Directory m).
Proof.
  unfold is_dir. split.
  - destruct (d !! p) as [[|m]|]; try done. eauto.
  - by intros [m ->].
Qed.

Lemma MkdirAll_from_existing f p perm d :
  is_dir d p = true → MkdirAll_from umask f p perm d = Ok d.
Proof. intros [m Hm]%is_dir_lookup. destruct f; simpl; by rewrite Hm. Qed.

Lemma MkdirAll_existing p perm d :
  is_dir d p = true → MkdirAll umask p perm d = Ok d.
Proof. apply MkdirAll_from_existing. Qed.

Lemma MkdirAll_from_absent f path perm d :
  d !! path = None →
  MkdirAll_from umask (S f) path perm d =
  let j := Str.last_slash (Str.trim_slashes path) in
  let* d :=
    if (1 <? j)%nat
    then MkdirAll_from umask f (Str.take (j - 1) path) perm d
    else Ok d in
  match Mkdir umask path perm d with
  | Ok d' => Ok d'
  | Err e => if is_dir d path then Ok d else Err e
  | Panic e => Panic e
  end.
Proof. intros Hp. cbn [MkdirAll_from]. by rewrite Hp. Qed.

Lemma Mkdir_Ok p perm d d' :
  Mkdir umask p perm d = Ok d' →
  d !! p = None ∧ is_dir d (filepath.Dir p) = true ∧
  d' = <[p := Directory (created umask perm)]> d.
Proof.
  unfold Mkdir, is_dir. destruct (d !! p); [done|].
  destruct (d !! filepath.Dir p) as [[|m]|]; try done. by intros [= <-].
Qed.

Lemma Mkdir_absent p perm d :
  d !! p = None → is_dir d (filepath.Dir p) = true →
  Mkdir umask p perm d = Ok (<[p := Directory (created umask perm)]> d).
Proof.
  intros Hp [m Hm]%is_dir_lookup. unfold Mkdir. by rewrite Hp, Hm.
Qed.

Lemma MkdirAll_from_workspace f perm d d' :
  MkdirAll_from umask (S f) TargetPath perm d = Ok d' →
  (is_dir d TargetPath = true ∧ d' = d) ∨
  (d !! TargetPath = None ∧
   d' = <[TargetPath := Directory (created umask perm)]> d).
Proof.
  cbn [MkdirAll_from]. unfold is_dir.
  destruct (d !! TargetPath) as [[|m]|] eqn:Ht; [done|intros [= <-]; by left|].
  rewrite parent_slice_target. change (1 <? 1)%nat with false.
  cbn [bind]. destruct (Mkdir umask TargetPath perm d) as [d1|e|e] eqn:Hm.
  - intros [= <-]. apply Mkdir_Ok in Hm as (_ & _ & ->). by right.
  - unfold is_dir. by rewrite Ht.
  - done.
Qed.

Lemma MkdirAll_workspace perm d d' :
  MkdirAll umask TargetPath perm d = Ok d' →
  (is_dir d TargetPath = true ∧ d' = d) ∨
  (d !! TargetPath = None ∧
   d' = <[TargetPath := Directory (created umask perm)]> d).
Proof. apply MkdirAll_from_workspace. Qed.

Lemma MkdirAll_entry names x perm d d' :
  Forall real (names ++ [x]) →
  names = [] ∨ is_dir d (under_target names) = true →
  MkdirAll umask (under_target (names ++ [x])) perm d = Ok d' →
  let path := under_target (names ++ [x]) in
  (is_dir d path = true ∧ d' = d) ∨
  (d !! path = None ∧ is_dir d (under_target names) = true ∧
   d' = <[path := Directory (created umask perm)]> d) ∨
  (d !! path = None ∧ names = [] ∧ d !! TargetPath = None ∧
   d' = <[path := Directory (created umask perm)]>
          (<[TargetPath := Directory (created umask perm)]> d)).
Proof.
  intros Hreal Hparent. cbv zeta. unfold MkdirAll.
  destruct (length_under_target names x) as [f ->].
  set (path := under_target (names ++ [x])).
  assert (filepath.Dir path = under_target names) as Hdir by by apply Dir_under_target.
  destruct (d !! path) as [[|m]|] eqn:Hp.
  { cbn [MkdirAll_from]. by rewrite Hp. }
  { cbn [MkdirAll_from]. rewrite Hp. intros [= <-]. left.
    by unfold is_dir; rewrite Hp. }
  rewrite MkdirAll_from_absent by done. cbv zeta.
  pose proof (parent_slice names x Hreal) as Hps. cbv zeta in Hps.
  fold path in Hps. destruct Hps as [-> ->].
  destruct (is_dir d (under_target names)) eqn:Hup.
  - rewrite MkdirAll_from_existing by done. cbn [bind].
    rewrite Mkdir_absent by (done || by rewrite Hdir).
    intros [= <-]. right. left. done.
  - destruct Hparent as [->|?]; [|done]. intros Hrun. right. right.
    change (under_target []) with TargetPath in *.
    destruct (MkdirAll_from umask (S f) TargetPath perm d) as [d1|e|e] eqn:Hw;
      cbn [bind] in Hrun; [|done|done].
    apply MkdirAll_from_workspace in Hw as [[Hw _]|[Hw ->]]; [congruence|].
    rewrite Mkdir_absent in Hrun.
    + by injection Hrun as <-.
    + rewrite lookup_insert_ne; [done|].
      change TargetPath with (under_target []). unfold path.
      intros E. apply under_target_inj in E; [done|constructor|done].
    + rewrite Hdir. unfold is_dir. by rewrite lookup_insert_eq.
Qed.


(** *** One call of the walk function *)

Lemma effect_refl scope s : effect scope s s.
Proof. split; [done|by left|done|]. exists []. by rewrite app_nil_r. Qed.

Lemma effect_trans scope s1 s2 s3 :
  effect scope s1 s2 → effect scope s2 s3 → effect scope s1 s3.
Proof.
  intros [F1 W1 R1 [m1 L1]] [F2 W2 R2 [m2 L2]]. split.
  - intros l Hl Hne Hp. by rewrite F2, F1.
  - destruct W2 as [W2|[W2 [m W2']]].
    + rewrite W2. done.
    + destruct W1 as [W1|[W1 [m' W1']]]; [|congruence].
      right. rewrite <- W1. eauto.
  - by rewrite R2.
  - exists (m1 ++ m2). by rewrite L2, L1, app_assoc.
Qed.

Lemma effect_weaken (scope scope' : list string → Prop) s s' :
  (∀ l, scope' l → scope l) → effect scope' s s' → effect scope s s'.
Proof.
  intros Hp [F W R L]. split; [|done|done|done].
  intros l Hl Hne Hn. apply F; [done|done|]. intros Hp'. by apply Hn, Hp.
Qed.

Lemma effect_is_dir_workspace scope s s' :
  effect scope s s' → is_dir (files s) TargetPath = true →
  is_dir (files s') TargetPath = true.
Proof.
  intros [_ W _ _] Hd. change TargetPath with (under_target []) in *.
  unfold is_dir, at_target in *.
  destruct W as [->|[W _]]; [done|]. by rewrite W in Hd.
Qed.

Lemma effect_is_dir scope s s' l :
  effect scope s s' → Forall real l → ¬ scope l →
  is_dir (files s) (under_target l) = true →
  is_dir (files s') (under_target l) = true.
Proof.
  intros He Hl Hp Hd. destruct l as [|x l].
  - by eapply effect_is_dir_workspace.
  - unfold is_dir. pose proof (effect_frame _ _ _ He (x :: l) Hl) as Hf.
    unfold at_target in Hf. rewrite Hf by done. done.
Qed.

(** What has been left for an entry stays when the walk goes on elsewhere. *)
Lemma copied_stays scope n l before s s' :
  effect scope s s' → Forall real l → l ≠ [] →
  ¬ scope l → ¬ scope (removelast l) →
  copied umask n l before s → copied umask n l before s'.
Proof.
  intros He Hl Hne Hp Hp' Hc.
  assert (Forall real (removelast l)) as Hl'.
  { destruct l as [|x l _] using rev_ind; [done|].
    rewrite removelast_last. by apply Forall_app in Hl as [? _]. }
  pose proof (effect_frame _ _ _ He l Hl Hne Hp) as Hf.
  destruct (effect_log _ _ _ He) as [more Hlog].
  destruct n as [perm data|perm entries|t|perm]; cbn [copied] in *.
  - destruct Hc as [Hd Hc]. split; [by eapply effect_is_dir|]. by rewrite Hf.
  - rewrite Hf. destruct before; [done|]. destruct Hc as [Hc Hd].
    split; [done|]. by eapply effect_is_dir.
  - destruct Hc as [Hc Hs]. rewrite Hf, Hlog. split; [done|].
    apply elem_of_app. by left.
  - destruct Hc as [Hc Hs]. rewrite Hf, Hlog. split; [done|].
    apply elem_of_app. by left.
Qed.

Lemma prefix_snoc_not_self {A} (l : list A) x : ¬ (l ++ [x]) `prefix_of` l.
Proof. intros Hp%prefix_length. rewrite length_app in Hp. simpl in Hp. lia. Qed.

Lemma under_target_ne a b :
  Forall real a → Forall real b → a ≠ b → under_target a ≠ under_target b.
Proof. intros Ha Hb Hne E. by apply Hne, under_target_inj. Qed.

(** An update at the target of an entry is an effect in its scope. *)
Lemma effect_same scope s s' sk :
  files s' = files s → skipped s' = skipped s ++ sk → effect scope s s'.
Proof.
  intros Hf Hs. split.
  - intros l' _ _ _. unfold at_target. by rewrite Hf.
  - left. unfold at_target. by rewrite Hf.
  - by rewrite Hf.
  - by exists sk.
Qed.

Lemma effect_insert l s s' o sk :
  Forall real l → l ≠ [] →
  files s' = <[under_target l := o]> (files s) →
  skipped s' = skipped s ++ sk →
  effect (eq l) s s'.
Proof.
  intros Hl Hne Hf Hs. split.
  - intros l' Hl' Hne' Hp. unfold at_target. rewrite Hf.
    by apply lookup_insert_ne, under_target_ne.
  - left. unfold at_target. rewrite Hf.
    apply lookup_insert_ne, under_target_ne; [done|constructor|done].
  - rewrite Hf. apply lookup_insert_ne, under_target_not_root.
  - by exists sk.
Qed.

Lemma effect_insert_workspace l s s' o m sk :
  Forall real l → l ≠ [] → at_target s [] = None →
  files s' = <[under_target l := o]> (<[TargetPath := Directory m]> (files s)) →
  skipped s' = skipped s ++ sk →
  effect (eq l) s s'.
Proof.
  intros Hl Hne Hw Hf Hs. split.
  - intros l' Hl' Hne' Hp. unfold at_target. rewrite Hf.
    rewrite lookup_insert_ne.
    + apply lookup_insert_ne. change TargetPath with (under_target []).
      apply under_target_ne; [constructor|done|done].
    + by apply under_target_ne.
  - right. split; [done|]. exists m. unfold at_target. rewrite Hf.
    rewrite lookup_insert_ne by (apply under_target_ne; [done|constructor|done]).
    apply lookup_insert_eq.
  - rewrite Hf. rewrite !lookup_insert_ne; [done|done|].
    apply under_target_not_root.
  - by exists sk.
Qed.

Lemma is_dir_insert_ne (d : tree) p q o :
  p ≠ q → is_dir (<[p := o]> d) q = is_dir d q.
Proof. intros Hne. unfold is_dir. by rewrite lookup_insert_ne. Qed.

Lemma is_dir_insert (d : tree) p m : is_dir (<[p := Directory m]> d) p = true.
Proof. unfold is_dir. by rewrite lookup_insert_eq. Qed.

Lemma overwrite_empty data : overwrite data "" = data.
Proof.
  unfold overwrite. replace (Str.drop (String.length data) "") with "".
  - apply str_app_nil_r.
  - by destruct (String.length data).
Qed.

(** Opening the destination and writing the data to it. *)
Lemma open_write p perm data d d1 :
  OpenFile umask p perm d = Ok d1 →
  ∃ o, Write p data d1 = <[p := o]> d ∧
       match d !! p with
       | None => o = File (created umask perm) data
       | Some (File m old) => o = File m (overwrite data old)
       | Some (Directory _) => False
       end.
Proof.
  unfold OpenFile, Write. destruct (d !! p) as [[m old|m]|] eqn:Hp; [|done|].
  - intros [= <-]. rewrite Hp. eauto.
  - destruct (d !! filepath.Dir p) as [[|m]|]; try done. intros [= <-].
    rewrite lookup_insert_eq. exists (File (created umask perm) data).
    split; [|done]. by rewrite insert_insert_eq, overwrite_empty.
Qed.

(** The parent of a target, after the directories on the way to it have
    been made. *)
Lemma parent_made names perm d d1 :
  Forall real names →
  names = [] ∨ is_dir d (under_target names) = true →
  MkdirAll umask (under_target names) perm d = Ok d1 →
  (d1 = d ∧ is_dir d (under_target names) = true) ∨
  (names = [] ∧ d !! TargetPath = None ∧
   d1 = <[TargetPath := Directory (created umask perm)]> d).
Proof.
  intros Hreal [->|Hd] Hmk.
  - apply MkdirAll_workspace in Hmk as [[? ->]|[? ->]]; [by left|by right].
  - rewrite MkdirAll_existing in Hmk by done. injection Hmk as <-. by left.
Qed.

Lemma visit_entry names x n s s' :
  Forall real (names ++ [x]) →
  names = [] ∨ is_dir (files s) (under_target names) = true →
  visit umask s (fold_left Join (names ++ [x]) BasePath, n) = Ok s' →
  effect (eq (names ++ [x])) s s' ∧
  copied umask n (names ++ [x]) (at_target s (names ++ [x])) s'.
Proof.
  intros Hreal Hparent.
  assert (Forall real names) as Hnames by by apply Forall_app in Hreal as [? _].
  assert (removelast (names ++ [x]) = names) as Hrl by apply removelast_last.
  pose proof (Dir_under_target names x Hreal) as Hdir.
  assert (under_target (names ++ [x]) ≠ under_target names) as Hup.
  { apply under_target_ne; [done|done|].
    intros E. apply (f_equal length) in E. rewrite length_app in E. simpl in E. lia. }
  set (l := names ++ [x]) in *.
  assert (l ≠ []) as Hne by by destruct names.
  destruct (walk_path_relative l Hne Hreal) as [Hpath Hrel].
  unfold visit. rewrite bool_decide_eq_false_2 by done. rewrite Hrel.
  cbn [bind]. rewrite Join_target by done.
  unfold copied. rewrite Hrl.
  destruct (at_target s l) as [before|] eqn:Hb; unfold at_target in Hb.
  all: destruct n as [perm data|perm entries|t|perm];
    cbn [Lstat IsDir IsRegular Perm negb]; intros Hrun.
  all: try (injection Hrun as <-; split;
            [by eapply (effect_same _ _ _ [Str.join l])|];
            unfold at_target; cbn [files skipped]; split; [done|];
            apply elem_of_app; right; by left).
  all: apply bind_Ok in Hrun as (d1 & Hmk & Hrun).
  - (* a file where there is something already *)
    apply bind_Ok in Hrun as (d2 & Hcopy & Hrun). injection Hrun as <-.
    unfold copy in Hcopy. cbn [ReadAll bind] in Hcopy.
    apply bind_Ok in Hcopy as (d3 & Hopen & Hcopy). injection Hcopy as <-.
    rewrite Hdir in Hmk. apply parent_made in Hmk; [|done|done].
    destruct (open_write _ _ data _ _ Hopen) as (o & -> & Ho).
    unfold at_target. cbn [files].
    destruct Hmk as [[-> Hd]|(-> & Hw & ->)].
    + rewrite Hb in Ho. split.
      * by eapply (effect_insert _ _ _ o []); cbn; rewrite ?app_nil_r.
      * rewrite is_dir_insert_ne, lookup_insert_eq by done.
        split; [done|]. destruct before; [by subst o|done].
    + rewrite lookup_insert_ne, Hb in Ho by done. split.
      * by eapply (effect_insert_workspace _ _ _ o _ []); cbn; rewrite ?app_nil_r.
      * rewrite is_dir_insert_ne, lookup_insert_eq by done.
        split; [apply is_dir_insert|]. destruct before; [by subst o|done].
  - (* a directory where there is something already *)
    injection Hrun as <-.
    apply MkdirAll_entry in Hmk; [|done|done]. cbv zeta in Hmk. fold l in Hmk.
    unfold at_target. cbn [files].
    destruct Hmk as [[Hd ->]|[(Hp & _)|(Hp & _)]]; [|congruence|congruence].
    apply is_dir_lookup in Hd as [m Hm]. split.
    + by eapply (effect_same _ _ _ []); cbn; rewrite ?app_nil_r.
    + rewrite Hm in Hb. injection Hb as <-. rewrite Hm. eauto.
  - (* a file where there is nothing *)
    apply bind_Ok in Hrun as (d2 & Hcopy & Hrun). injection Hrun as <-.
    unfold copy in Hcopy. cbn [ReadAll bind] in Hcopy.
    apply bind_Ok in Hcopy as (d3 & Hopen & Hcopy). injection Hcopy as <-.
    rewrite Hdir in Hmk. apply parent_made in Hmk; [|done|done].
    destruct (open_write _ _ data _ _ Hopen) as (o & -> & Ho).
    unfold at_target. cbn [files].
    destruct Hmk as [[-> Hd]|(-> & Hw & ->)].
    + rewrite Hb in Ho. subst o. split.
      * by eapply (effect_insert _ _ _ _ []); cbn; rewrite ?app_nil_r.
      * by rewrite is_dir_insert_ne, lookup_insert_eq by done.
    + rewrite lookup_insert_ne, Hb in Ho by done. subst o. split.
      * by eapply (effect_insert_workspace _ _ _ _ _ []); cbn; rewrite ?app_nil_r.
      * rewrite is_dir_insert_ne, lookup_insert_eq by done.
        split; [apply is_dir_insert|done].
  - (* a directory where there is nothing *)
    injection Hrun as <-.
    apply MkdirAll_entry in Hmk; [|done|done]. cbv zeta in Hmk. fold l in Hmk.
    unfold at_target. cbn [files].
    destruct Hmk as [[Hd ->]|[(Hp & Hd & ->)|(Hp & -> & Hw & ->)]].
    + apply is_dir_lookup in Hd as [m Hm]. congruence.
    + split.
      * by eapply (effect_insert _ _ _ _ []); cbn; rewrite ?app_nil_r.
      * by rewrite is_dir_insert_ne, lookup_insert_eq by done.
    + split.
      * by eapply (effect_insert_workspace _ _ _ _ _ []); cbn; rewrite ?app_nil_r.
      * rewrite is_dir_insert_ne, lookup_insert_eq by done.
        split; [done|apply is_dir_insert].
Qed.


(** *** The whole walk *)

Lemma node_induction (P : node → Prop) :
  (∀ perm data, P (Reg perm data)) →
  (∀ perm entries, Forall (λ e, P e.2) entries → P (Dir perm entries)) →
  (∀ t, P (Symlink t)) →
  (∀ perm content, P (Irregular perm content)) →
  ∀ n, P n.
Proof.
  intros HR HD HS HI. fix IH 1.
  intros [perm data|perm entries|t|perm content]; [apply HR| |apply HS|apply HI].
  apply HD. revert entries. fix IHe 1.
  intros [|[name child] entries]; constructor; [apply IH|apply IHe].
Qed.

Lemma valid_names_child perm entries name child :
  valid_names (Dir perm entries) → (name, child) ∈ entries →
  real name ∧ valid_names child.
Proof.
  intros Hv Hin. split.
  - assert (Forall real [name]) as [? _]%Forall_cons; [|done].
    apply (Hv [name] child). econstructor; [done|constructor].
  - intros ms e Hat.
    assert (Forall real (name :: ms)) as [_ ?]%Forall_cons; [|done].
    apply (Hv (name :: ms) e). by econstructor.
Qed.

Lemma unique_names_child perm entries name child :
  unique_names (Dir perm entries) → (name, child) ∈ entries →
  unique_names child.
Proof.
  intros Hu Hin ms p es Hat. apply (Hu (name :: ms) p es). by econstructor.
Qed.

Lemma extractor_visit_all_app l1 l2 s s' :
  visit_all umask s (l1 ++ l2) = Ok s' ↔
  ∃ s1, visit_all umask s l1 = Ok s1 ∧ visit_all umask s1 l2 = Ok s'.
Proof.
  revert s. induction l1 as [|e l1 IH]; intros s; cbn [visit_all app].
  - split; [eauto|]. by intros (s1 & [= <-] & ?).
  - destruct (visit umask s e) as [s1|?|?]; cbn [bind].
    + apply IH.
    + split; [done|]. by intros (? & ? & _).
    + split; [done|]. by intros (? & ? & _).
Qed.

(** The walk under a directory, entry by entry in the order of the walk. *)
Lemma walk_children path perm entries :
  ∃ subs, subs ≡ₚ entries ∧
    Walk.walk path (Dir perm entries) =
    (path, Dir perm entries) ::
    flat_map (λ e, Walk.walk (Join path e.1) e.2) subs.
Proof.
  rewrite walk_Dir.
  set (f := λ e : string * node, (e.1, λ p, Walk.walk p e.2)).
  pose proof (merge_sort_Permutation name_le (map f entries)) as Hp.
  apply Permutation_map_inv in Hp as (subs & Hs & Hp).
  exists subs. split; [done|]. rewrite Hs. f_equal.
  clear. induction subs as [|e subs IH]; [done|]. simpl. by rewrite IH.
Qed.

Lemma prefix_snoc_cons {A} (l : list A) a b ms :
  (l ++ [a]) `prefix_of` (l ++ b :: ms) → a = b.
Proof. intros Hp%prefix_app_inv. by apply prefix_cons_inv_1 in Hp. Qed.

Lemma not_under_children_short l subs l' :
  (length l' ≤ length l)%nat → ¬ under_children l subs l'.
Proof.
  intros Hlen (name & _ & Hp%prefix_length). rewrite length_app in Hp.
  simpl in Hp. lia.
Qed.

Lemma not_under_children_other l subs name ms :
  name ∉ subs.*1 → ¬ under_children l subs (l ++ name :: ms).
Proof. intros Hn (name' & Hin & Hp). apply prefix_snoc_cons in Hp. by subst. Qed.

Lemma removelast_under l (name : string) ms :
  removelast (l ++ name :: ms) = l ∨
  ∃ ms', removelast (l ++ name :: ms) = l ++ name :: ms'.
Proof.
  destruct ms as [|y ms _] using rev_ind.
  - left. apply removelast_last.
  - right. exists ms.
    replace (l ++ name :: ms ++ [y]) with ((l ++ name :: ms) ++ [y])
      by by rewrite <- app_assoc.
    apply removelast_last.
Qed.

Lemma children_ok l entries :
  Forall (λ e, walk_ok umask e.2) entries →
  Forall real l →
  (∀ name child, (name, child) ∈ entries →
     real name ∧ valid_names child ∧ unique_names child) →
  ∀ subs, NoDup subs.*1 → (∀ e, e ∈ subs → e ∈ entries) →
  ∀ s s',
    l = [] ∨ is_dir (files s) (under_target l) = true →
    visit_all umask s
      (flat_map (λ e, Walk.walk (Join (fold_left Join l BasePath) e.1) e.2) subs)
    = Ok s' →
    effect (under_children l subs) s s' ∧
    ∀ name child ms e, (name, child) ∈ subs → at_path child ms e →
      copied umask e (l ++ name :: ms) (at_target s (l ++ name :: ms)) s'.
Proof.
  intros IH Hl Hentries subs. induction subs as [|[name child] subs IHs];
    intros Hnd Hsub s s' Hparent Hrun.
  - injection Hrun as <-. split; [apply effect_refl|].
    intros ???? Hin. by apply elem_of_nil in Hin.
  - cbn [flat_map fst snd] in Hrun.
    apply extractor_visit_all_app in Hrun as (s1 & Hchild & Hrest).
    apply NoDup_cons in Hnd as [Hname Hnd].
    assert ((name, child) ∈ entries) as Hin by (apply Hsub; by left).
    destruct (Hentries _ _ Hin) as (Hreal & Hv & Hu).
    assert (Forall real (l ++ [name])) as Hl'.
    { apply Forall_app. split; [done|by constructor]. }
    assert (walk_ok umask child) as Hok.
    { rewrite Forall_forall in IH. apply (IH (name, child)), Hin. }
    replace (Join (fold_left Join l BasePath) name)
      with (fold_left Join (l ++ [name]) BasePath) in Hchild
      by by rewrite fold_left_app.
    destruct (Hok l name s s1 Hl' Hv Hu Hparent Hchild) as [He1 Hc1].
    assert (l = [] ∨ is_dir (files s1) (under_target l) = true) as Hparent1.
    { destruct Hparent as [?|Hd]; [by left|right].
      eapply effect_is_dir; [exact He1|done| |done].
      apply prefix_snoc_not_self. }
    destruct (IHs Hnd (λ e He, Hsub e (list_elem_of_further _ _ _ He))
                s1 s' Hparent1 Hrest) as [He2 Hc2].
    split.
    + eapply effect_trans.
      * eapply effect_weaken; [|exact He1]. intros l' Hp.
        exists name. split; [by left|done].
      * eapply effect_weaken; [|exact He2]. intros l' (name' & Hn & Hp).
        exists name'. split; [by right|done].
    + intros name' child' ms e Hin' Hat.
      apply elem_of_cons in Hin' as [[= -> ->]|Hin'].
      * specialize (Hc1 ms e Hat). rewrite <- app_assoc in Hc1.
        assert (Forall real (l ++ name :: ms)) as Hall.
        { apply Forall_app. split; [done|]. constructor; [done|].
          by apply (Hv ms e). }
        eapply copied_stays; [exact He2|done|by destruct l| | |exact Hc1].
        -- by apply not_under_children_other.
        -- destruct (removelast_under l name ms) as [->|[ms' ->]].
           ++ by apply not_under_children_short.
           ++ by apply not_under_children_other.
      * specialize (Hc2 name' child' ms e Hin' Hat).
        assert (name ≠ name') as Hne.
        { intros ->. apply Hname. apply list_elem_of_fmap.
          by exists (name', child'). }
        assert ((name', child') ∈ entries) as Hin2
          by (apply Hsub; by right).
        destruct (Hentries _ _ Hin2) as (Hreal' & Hv' & _).
        rewrite (effect_frame _ _ _ He1) in Hc2; [done| |by destruct l|].
        -- apply Forall_app. split; [done|]. constructor; [done|].
           by apply (Hv' ms e).
        -- intros Hp. by apply prefix_snoc_cons in Hp.
Qed.

Lemma copied_is_dir perm entries l before s :
  copied umask (Dir perm entries) l before s →
  is_dir (files s) (under_target l) = true.
Proof.
  unfold copied, at_target, is_dir. destruct before as [o|].
  - intros [-> [m ->]]. done.
  - by intros [-> _].
Qed.

Lemma walk_single path n :
  (∀ perm entries, n ≠ Dir perm entries) → Walk.walk path n = [(path, n)].
Proof. destruct n; try done. intros Hn. by destruct (Hn perm entries). Qed.

Lemma at_path_leaf n ms e :
  (∀ perm entries, n ≠ Dir perm entries) → at_path n ms e → ms = [] ∧ e = n.
Proof. intros Hn Hat. destruct Hat; [done|]. by destruct (Hn perm entries). Qed.

Lemma walk_ok_leaf n : (∀ perm entries, n ≠ Dir perm entries) → walk_ok umask n.
Proof.
  intros Hn names x s s' Hreal _ _ Hparent Hrun.
  rewrite walk_single in Hrun by done. cbn [visit_all] in Hrun.
  apply bind_Ok in Hrun as (s1 & Hvisit & [= <-]).
  apply visit_entry in Hvisit as [He Hc]; [|done|done]. split.
  - eapply effect_weaken; [|exact He]. by intros l' <-.
  - intros ms e [-> ->]%at_path_leaf; [|done]. by rewrite app_nil_r.
Qed.

Lemma walk_ok_all n : walk_ok umask n.
Proof.
  induction n as [perm data|perm entries IH|t|perm content] using node_induction;
    try (by apply walk_ok_leaf).
  intros names x s s' Hreal Hv Hu Hparent Hrun.
  set (l := names ++ [x]) in *.
  assert (l ≠ []) as Hlne by by destruct names.
  destruct (walk_children (fold_left Join l BasePath) perm entries)
    as (subs & Hperm & Hwalk).
  rewrite Hwalk in Hrun. cbn [visit_all] in Hrun.
  apply bind_Ok in Hrun as (s1 & Hvisit & Hrun).
  apply visit_entry in Hvisit as [He1 Hc1]; [|done|done]. fold l in He1, Hc1.
  assert (∀ name child, (name, child) ∈ entries →
            real name ∧ valid_names child ∧ unique_names child) as Hentries.
  { intros name child Hin.
    destruct (valid_names_child _ _ _ _ Hv Hin) as [? ?].
    split; [done|]. split; [done|]. by eapply unique_names_child. }
  assert (NoDup subs.*1) as Hnd.
  { rewrite Hperm. apply (Hu [] perm entries). constructor. }
  assert (∀ e, e ∈ subs → e ∈ entries) as Hsub by (intros e; by rewrite Hperm).
  assert (l = [] ∨ is_dir (files s1) (under_target l) = true) as Hparent1.
  { right. by eapply copied_is_dir. }
  destruct (children_ok l entries IH Hreal Hentries subs Hnd Hsub s1 s'
              Hparent1 Hrun) as [He2 Hc2].
  split.
  - eapply effect_trans.
    + eapply effect_weaken; [|exact He1]. by intros l' <-.
    + eapply effect_weaken; [|exact He2]. intros l' (name & _ & Hp).
      etrans; [|exact Hp]. by apply prefix_app_r.
  - intros ms e Hat. inversion Hat as [|p es name child ms' e' Hin Hat']; subst.
    + rewrite app_nil_r.
      eapply copied_stays; [exact He2|done|done| | |exact Hc1].
      * by apply not_under_children_short.
      * apply not_under_children_short. unfold l.
        rewrite removelast_last, length_app. lia.
    + assert ((name, child) ∈ subs) as Hin' by by rewrite Hperm.
      specialize (Hc2 name child ms' e Hin' Hat').
      rewrite (effect_frame _ _ _ He1) in Hc2; [done| |by destruct l|].
      * apply Forall_app. split; [done|].
        apply (Hv (name :: ms') e Hat).
      * intros E. apply (f_equal length) in E. rewrite length_app in E.
        simpl in E. lia.
Qed.


(** *** A workspace with nothing in it *)


Lemma MkdirAll_workspace_succeeds f perm d :
  is_dir d "/" = true →
  d !! TargetPath = None ∨ is_dir d TargetPath = true →
  ∃ d', MkdirAll_from umask (S f) TargetPath perm d = Ok d'.
Proof.
  intros Hroot [Hw|Hw].
  - rewrite MkdirAll_from_absent by done. cbv zeta.
    rewrite parent_slice_target. change (1 <? 1)%nat with false. cbn [bind].
    rewrite Mkdir_absent by done. eauto.
  - rewrite MkdirAll_from_existing by done. eauto.
Qed.






(** *** The extractor as a whole *)



Lemma main_walk perm entries d :
  valid_names (Dir perm entries) → unique_names (Dir perm entries) →
  ∃ subs, subs ≡ₚ entries ∧ NoDup subs.*1 ∧
    (∀ name child, (name, child) ∈ entries →
       real name ∧ valid_names child ∧ unique_names child) ∧
    (∀ s', main umask (Some (Dir perm entries)) d = Ok s' ↔
       visit_all umask {| files := d; skipped := [] |}
         (flat_map (λ e, Walk.walk (Join (fold_left Join [] BasePath) e.1) e.2)
            subs)
       = Ok s').
Proof.
  intros Hv Hu.
  destruct (walk_children BasePath perm entries) as (subs & Hperm & Hwalk).
  exists subs. split; [done|]. split; [|split].
  - rewrite Hperm. apply (Hu [] perm entries). constructor.
  - intros name child Hin.
    destruct (valid_names_child _ _ _ _ Hv Hin) as [? ?].
    split; [done|]. split; [done|]. by eapply unique_names_child.
  - intros s'. unfold main. rewrite Hwalk. cbn [visit_all visit].
    rewrite bool_decide_eq_true_2 by done. done.
Qed.




End extraction.

(** *** The extractor on small trees *)

Lemma small_tree_unique : os.unique_names small_tree.
Proof.
  intros names perm entries Hat. unfold small_tree in Hat.
  inversion Hat as [|p es name child names' n' Hin Hat']; subst.
  - repeat constructor. by apply not_elem_of_nil.
  - apply list_elem_of_singleton in Hin. injection Hin as -> ->.
    inversion Hat'.
Qed.

(** A file system with the root directory only, and a umask of 022. *)
Definition bare_disk : gmap string disk.entry := {[ "/" := disk.Directory 493 ]}.

Definition umask_022 : Z := 18.


Lemma bare_disk_vacant : vacant bare_disk.
Proof.
  split; [done|]. split; [by left|]. intros p Hp.
  apply lookup_singleton_ne. intros <-. done.
Qed.

Definition mixed_tree : os.node :=
  os.Dir 493 [("src", os.Dir 488 [("main.go", os.Reg 420 "package main")]);
              ("README", os.Reg 384 "read me");
              ("tty", os.Irregular 400 None);
              ("latest", os.Symlink None)].

(** A run on a bare disk: the workspace directory is made for the first
    regular file, with the bits [0444]; the link and the device are
    skipped. *)
Example extraction_on_bare_disk :
  ∃ s', main umask_022 (Some mixed_tree) bare_disk = Ok s' ∧
        map_to_list (files s') =
          [("/workspace/src/main.go", disk.File 420 "package main");
           ("/workspace/src", disk.Directory 488);
           ("/workspace/README", disk.File 384 "read me");
           ("/workspace", disk.Directory 292); ("/", disk.Directory 493)] ∧
        skipped s' = ["latest"; "tty"].
Proof. eexists. split; [by vm_compute|]. split; by vm_compute. Qed.


(** ** Determinism

    What may vary between two runs over one tree: the order in which the
    system lists the entries of a directory, and the order in which a run
    ranges over a map.  The headers written carry no time. *)

Section determinism.
Context `{Hasher}.
Import filepath os manifest kontext kontext_main.

Lemma same_tree_link target b :
  same_tree (Symlink (Some target)) b →
  ∃ target', b = Symlink (Some target') ∧ same_tree target target'.
Proof. inversion 1; subst. eauto. Qed.

(** What [os.Stat] and a read give does not depend on the listing. *)
Lemma same_tree_read : ∀ a b,
  same_tree a b → Stat a = Stat b ∧ ReadAll a = ReadAll b.
Proof.
  fix IH 1. intros [perm data|perm entries|[target|]|perm content] b Hs.
  - by inversion Hs.
  - by inversion Hs.
  - destruct (same_tree_link _ _ Hs) as (target' & -> & Ht).
    apply (IH target _ Ht).
  - by inversion Hs.
  - by inversion Hs.
Qed.

Lemma visit_same directory s path a b :
  same_tree a b → visit directory s (path, a) = visit directory s (path, b).
Proof.
  intros [Hstat Hread]%same_tree_read. unfold visit, Value.
  by rewrite Hstat, Hread.
Qed.

Lemma visit_all_same directory calls calls' :
  Forall2 same_entry calls calls' →
  ∀ s, visit_all directory s calls = visit_all directory s calls'.
Proof.
  induction 1 as [|[p a] [p' b] calls calls' [Hp Hs] _ IH]; intros s; [done|].
  simpl in Hp, Hs. subst p'. cbn [visit_all].
  rewrite (visit_same _ _ _ a b Hs). destruct (visit _ _ _); simpl; auto.
Qed.

Lemma name_unique {A} (l : list (string * A)) x y1 y2 :
  NoDup l.*1 → (x, y1) ∈ l → (x, y2) ∈ l → y1 = y2.
Proof.
  induction l as [|[k v] l IH]; simpl; [by intros _ ?%elem_of_nil|].
  intros [Hk Hl]%NoDup_cons [E1|H1]%elem_of_cons [E2|H2]%elem_of_cons.
  - congruence.
  - injection E1 as -> ->. destruct Hk. apply list_elem_of_fmap. by exists (k, y2).
  - injection E2 as -> ->. destruct Hk. apply list_elem_of_fmap. by exists (k, y1).
  - by apply IH.
Qed.

Lemma same_entry_names l l' : Forall2 same_entry l l' → l.*1 = l'.*1.
Proof.
  induction 1 as [|e e' l l' [He _] _ IH]; [done|].
  rewrite !fmap_cons. by f_equal.
Qed.

(** A directory has one listing in the order of the names. *)
Lemma sorted_listing entries entries' listed subs subs' :
  NoDup entries.*1 →
  Forall2 same_entry entries listed → listed ≡ₚ entries' →
  subs ≡ₚ entries → StronglySorted name_le subs →
  subs' ≡ₚ entries' → StronglySorted name_le subs' →
  Forall2 same_entry subs subs'.
Proof.
  intros Hnd Hsame Hlisted Hp Hs Hp' Hs'.
  pose proof (same_entry_names _ _ Hsame) as Hnames.
  assert (subs.*1 = subs'.*1) as Heq.
  { apply (StronglySorted_unique String.le).
    - by apply (StronglySorted_fmap fst name_le String.le).
    - by apply (StronglySorted_fmap fst name_le String.le).
    - by rewrite Hp, Hp', <- Hlisted, Hnames. }
  assert (∀ name c c', (name, c) ∈ subs → (name, c') ∈ subs' → same_tree c c')
    as Hchild.
  { intros name c c' Hin Hin'. rewrite Hp in Hin. rewrite Hp', <- Hlisted in Hin'.
    apply list_elem_of_lookup in Hin as [i Hi].
    destruct (Forall2_lookup_l _ _ _ _ _ Hsame Hi) as ([name' c''] & Hi' & E & Hc).
    simpl in E, Hc. subst name'.
    assert (c'' = c') as ->; [|done].
    apply (name_unique listed name); [by rewrite <- Hnames| |done].
    by eapply list_elem_of_lookup_2. }
  clear -Heq Hchild. revert subs' Heq Hchild.
  induction subs as [|[name c] subs IH]; intros [|[name' c'] subs'] Heq Hchild;
    rewrite ?fmap_cons in Heq; [constructor|done|done|].
  simpl in Heq. injection Heq as <- Heq. constructor.
  - split; [done|]. apply (Hchild name); by left.
  - apply IH; [done|]. intros x y y' Hy Hy'. apply (Hchild x); by right.
Qed.

Lemma walk_sorted_children path perm entries :
  ∃ subs, subs ≡ₚ entries ∧ StronglySorted name_le subs ∧
    Walk.walk path (os.Dir perm entries) =
    (path, os.Dir perm entries) ::
    flat_map (λ e, Walk.walk (Join path e.1) e.2) subs.
Proof.
  rewrite walk_Dir.
  set (f := λ e : string * node, (e.1, λ p, Walk.walk p e.2)).
  pose proof (merge_sort_Permutation name_le (map f entries)) as Hp.
  pose proof (StronglySorted_merge_sort name_le (map f entries)) as Hs.
  apply Permutation_map_inv in Hp as (subs & Hsubs & Hp).
  exists subs. split; [done|]. rewrite Hsubs in Hs |- *. split.
  - clear -Hs. induction subs as [|e subs IH]; [constructor|].
    simpl in Hs. apply StronglySorted_cons in Hs as [Hall Hs].
    constructor; [by apply IH|].
    apply Forall_forall. intros x Hx. rewrite Forall_forall in Hall.
    apply (Hall (f x)). apply list_elem_of_fmap. by exists x.
  - f_equal. clear. induction subs as [|e subs IH]; [done|]. simpl. by rewrite IH.
Qed.

Lemma Forall2_flat_map {A B C D} (R : A → B → Prop) (Q : C → D → Prop)
    (f : A → list C) (g : B → list D) l l' :
  Forall2 (λ a b, R a b ∧ Forall2 Q (f a) (g b)) l l' →
  Forall2 Q (flat_map f l) (flat_map g l').
Proof.
  induction 1 as [|a b l l' [_ Hab] _ IH]; simpl; [constructor|].
  by apply Forall2_app.
Qed.

(** The walk calls its function on the same entries in the same order,
    however the directories are listed. *)
Lemma walk_same a : ∀ b path,
  unique_names a → same_tree a b →
  Forall2 same_entry (Walk.walk path a) (Walk.walk path b).
Proof.
  induction a as [perm data|perm entries IH|t|perm content] using node_induction;
    intros b path Hu Hs.
  - inversion Hs; subst. simpl. repeat constructor.
  - inversion Hs as [|p es es' listed Hlisted Hall| | |]; subst.
    destruct (walk_sorted_children path perm entries) as (subs & Hp & Hsorted & ->).
    destruct (walk_sorted_children path perm es') as (subs' & Hp' & Hsorted' & ->).
    constructor; [by split|].
    assert (NoDup entries.*1) as Hnd by (apply (Hu [] perm entries); constructor).
    pose proof (sorted_listing _ _ _ _ _ Hnd Hall Hlisted Hp Hsorted Hp' Hsorted')
      as Hsubs.
    apply (Forall2_flat_map same_entry).
    assert (∀ e, e ∈ subs → e ∈ entries) as Hin by (intros e; by rewrite Hp).
    clear -IH Hu Hsubs Hin. induction Hsubs as [|[name c] [name' c'] subs subs' [E Hc] _ IHs];
      [constructor|].
    simpl in E, Hc. subst name'. constructor.
    + split; [by split|]. simpl. rewrite Forall_forall in IH.
      apply (IH (name, c)); [apply Hin; by left| |done].
      apply (unique_names_child perm entries name); [done|]. apply Hin. by left.
    + apply IHs. intros e He. apply Hin. by right.
  - destruct t; inversion Hs; subst; simpl; repeat constructor; done.
  - inversion Hs; subst. simpl. repeat constructor.
Qed.

Lemma writeNewFiles_same o1 o2 directory root root' m0 :
  unique_names root → same_tree root root' →
  writeNewFiles o1 directory root m0 = writeNewFiles o2 directory root' m0.
Proof.
  intros Hu Hs. unfold writeNewFiles.
  rewrite (visit_all_same directory _ _ (walk_same root root' directory Hu Hs)).
  destruct (visit_all _ _ _) as [s| |]; simpl; [|done..].
  by rewrite (Missing_order_irrel o1 o2).
Qed.

(** C6. Two runs over the same tree from the same baseline, the empty one
    in particular, produce the same data layer and the same manifest layer
    (the second run ends as the first does), however the system lists the
    directories of the tree in each run and in whatever order each run ranges
    over its maps: the walk takes the entries of a directory in the order of
    their names, the missing paths and the keys written are sorted, and the
    archives carry no time stamp.  A directory holds each name once. *)
Theorem synthesis_deterministic (o1 o2 o1' o2' : range_order)
    (directory : string) (root root' : node) (m0 : Manifest) :
  unique_names root → same_tree root root' →
  writeNewFiles o1 directory root m0 = writeNewFiles o2 directory root' m0 ∧
  (∀ layer delta m',
     writeNewFiles o1 directory root m0 = Ok (layer, delta, m') →
     writeNewFiles o2 directory root' m0 = Ok (layer, delta, m') ∧
     writeManifest o1' m' = writeManifest o2' m').
Proof.
  intros Hu Hs.
  pose proof (writeNewFiles_same o1 o2 directory root root' m0 Hu Hs) as Hsame.
  split; [done|]. intros layer delta m' Hrun. split; [by rewrite <- Hsame|].
  unfold writeManifest. by rewrite (Marshal_order_irrel o1' o2').
Qed.

End determinism.

(** Two listings of a directory with a file and an empty directory. *)
Definition listed_ba : os.node :=
  os.Dir mode_0555 [("b", os.Reg 420 "b's bytes"); ("a", os.Dir 493 [])].

Definition listed_ab : os.node :=
  os.Dir mode_0555 [("a", os.Dir 493 []); ("b", os.Reg 420 "b's bytes")].

Lemma listed_ba_unique : os.unique_names listed_ba.
Proof.
  intros names perm entries Hat. unfold listed_ba in Hat.
  inversion Hat as [|p es name child names' n' Hin Hat']; subst.
  - repeat constructor; set_solver.
  - apply elem_of_cons in Hin as [Hin|Hin%list_elem_of_singleton];
      injection Hin as -> ->; inversion Hat' as [|? ? ? ? ? ? Hin' ?]; subst.
    + constructor.
    + by apply elem_of_nil in Hin'.
Qed.

Lemma listed_ba_ab : os.same_tree listed_ba listed_ab.
Proof.
  apply (os.same_Dir _ _ _ [("b", os.Reg 420 "b's bytes"); ("a", os.Dir 493 [])]).
  - apply perm_swap.
  - repeat constructor. by apply (os.same_Dir _ _ _ []).
Qed.

Lemma synthesis_deterministic_witness :
  kontext.writeNewFiles (H := example_hasher) range_default "/src" listed_ba
    gone_baseline
  = kontext.writeNewFiles (H := example_hasher) range_reversed "/src" listed_ab
      gone_baseline ∧
  (∀ layer delta m',
     kontext.writeNewFiles (H := example_hasher) range_default "/src" listed_ba
       gone_baseline = Ok (layer, delta, m') →
     kontext.writeNewFiles (H := example_hasher) range_reversed "/src" listed_ab
       gone_baseline = Ok (layer, delta, m') ∧
     kontext_main.writeManifest range_default m'
     = kontext_main.writeManifest range_reversed m').
Proof.
  apply (synthesis_deterministic (H := example_hasher) range_default
           range_reversed range_default range_reversed "/src" listed_ba
           listed_ab gone_baseline).
  - apply listed_ba_unique.
  - apply listed_ba_ab.
Defined.

(** Both listings give this data layer: the file [b] after the directory
    [a], then the marker for the directory that is gone. *)
Example listings_give_one_layer :
  ∃ m',
    kontext.writeNewFiles (H := example_hasher) range_default "/src" listed_ba
      gone_baseline
    = Ok ([ {| tar.header :=
                 {| tar.Name := "/var/run/kontext/a"; tar.Size := 0;
                    tar.Typeflag := tar.TypeDir; tar.Mode := mode_0555 |};
               tar.body := "" |};
            {| tar.header :=
                 {| tar.Name := "/var/run/kontext/b"; tar.Size := 9;
                    tar.Typeflag := tar.TypeReg; tar.Mode := mode_0555 |};
               tar.body := "b's bytes" |};
            {| tar.header :=
                 {| tar.Name := "/var/run/kontext/.wh.gone"; tar.Size := 0;
                    tar.Typeflag := tar.TypeReg; tar.Mode := 0 |};
               tar.body := "" |} ], 4, m').
Proof. eexists. vm_compute. reflexivity. Qed.

(** * Further properties *)

(** ** The Manifest operations, one against the other *)

Lemma Has_mapping m p :
  Has m p = bool_decide (is_Some (mapping m !! normalize p)).
Proof.
  unfold Has, mapping, map_get. destruct (Files m) as [f|]; simpl.
  - destruct (f !! normalize p) eqn:E.
    + by rewrite bool_decide_eq_true_2.
    + rewrite bool_decide_eq_false_2; [done|]. by intros [? ?].
  - rewrite lookup_empty. rewrite bool_decide_eq_false_2; [done|]. by intros [? ?].
Qed.

(** X1.  [Add] does not fail; afterwards the Manifest has the path, with the
    digest given, and a path with another normal form is as it was. *)
Theorem Add_then_Has (m : Manifest) (p h q : string) :
  ∃ m', Add m p h = Ok m' ∧
        Has m' p = true ∧ mapping m' !! normalize p = Some h ∧
        (normalize q ≠ normalize p →
         Has m' q = Has m q ∧
         mapping m' !! normalize q = mapping m !! normalize q).
Proof.
  destruct (Add_Ok m p h) as (m' & E & Hm). exists m'. split; [done|].
  rewrite !Has_mapping, Hm. rewrite lookup_insert_eq.
  split; [by rewrite bool_decide_eq_true_2|]. split; [done|].
  intros Hne. by rewrite lookup_insert_ne.
Qed.

(** X2.  After [Remove] the Manifest does not have the path; a path with
    another normal form is as it was, and removing a path the Manifest does
    not have changes nothing. *)
Theorem Remove_then_Has (m : Manifest) (p q : string) :
  Has (Remove m p) p = false ∧
  (normalize q ≠ normalize p →
   Has (Remove m p) q = Has m q ∧
   mapping (Remove m p) !! normalize q = mapping m !! normalize q) ∧
  (Has m p = false → mapping (Remove m p) = mapping m).
Proof.
  rewrite !Has_mapping, Remove_mapping. rewrite lookup_delete_eq.
  split; [by rewrite bool_decide_eq_false_2 by by intros [? ?]|]. split.
  - intros Hne. by rewrite lookup_delete_ne.
  - intros Hno. apply delete_id.
    apply bool_decide_eq_false in Hno.
    destruct (mapping m !! normalize p) eqn:E; [|done]. destruct Hno. eauto.
Qed.

(** X3.  [Remove] undoes an [Add] of a path the Manifest did not have, and
    of two [Add]s of a path the second one counts. *)
Theorem Remove_undoes_Add (m m1 : Manifest) (p h : string) :
  Has m p = false → Add m p h = Ok m1 →
  mapping (Remove m1 p) = mapping m ∧
  ∀ h' m2, Add m1 p h' = Ok m2 →
           ∃ m3, Add m p h' = Ok m3 ∧ mapping m2 = mapping m3.
Proof.
  intros Hno Hadd. rewrite Has_mapping in Hno.
  apply bool_decide_eq_false in Hno.
  assert (mapping m !! normalize p = None) as Hnone.
  { destruct (mapping m !! normalize p) eqn:E; [|done]. destruct Hno. eauto. }
  apply Add_mapping in Hadd. split.
  - rewrite Remove_mapping, Hadd. by apply delete_insert_id.
  - intros h' m2 Hadd2. apply Add_mapping in Hadd2.
    destruct (Add_Ok m p h') as (m3 & E3 & H3). exists m3. split; [done|].
    by rewrite Hadd2, Hadd, H3, insert_insert_eq.
Qed.

Lemma Remove_undoes_Add_witness :
  mapping (Remove {| Files := Some {[ "a/b" := "0a" ]} |} "./a/b//") = mapping empty ∧
  ∀ h' m2, Add {| Files := Some {[ "a/b" := "0a" ]} |} "./a/b//" h' = Ok m2 →
           ∃ m3, Add empty "./a/b//" h' = Ok m3 ∧ mapping m2 = mapping m3.
Proof.
  apply (Remove_undoes_Add empty {| Files := Some {[ "a/b" := "0a" ]} |}
           "./a/b//" "0a"); by vm_compute.
Defined.

Lemma split_trailing_slash p : Str.split (p +:+ "/") = Str.split p ++ [""].
Proof. apply (split_app p ""). Qed.

Lemma Clean_trailing_slash p : p ≠ "" → Clean (p +:+ "/") = Clean p.
Proof.
  intros Hne. unfold Clean.
  rewrite !bool_decide_eq_false_2 by (done || by apply str_app_nonempty).
  rewrite rooted_app by done.
  by rewrite split_trailing_slash, clean_elems_app.
Qed.

Lemma Clean_leading_dot p :
  p ≠ "" → rooted p = false → Clean ("./" +:+ p) = Clean p.
Proof.
  intros Hne Hr. unfold Clean.
  rewrite !bool_decide_eq_false_2 by done.
  change ("./" +:+ p) with ("." +:+ String Str.slash p).
  rewrite split_app. change (rooted ("." +:+ String Str.slash p)) with false.
  by rewrite Hr.
Qed.

(** X4.  A path names the same entry of the Manifest with a slash after it,
    and, when it is relative, with [./] before it. *)
Theorem Has_ignores_spelling (m : Manifest) (p : string) :
  p ≠ "" →
  Has m (p +:+ "/") = Has m p ∧
  (rooted p = false → Has m ("./" +:+ p) = Has m p).
Proof.
  intros Hne. rewrite !Has_mapping. unfold normalize.
  rewrite Clean_trailing_slash by done. split; [done|].
  intros Hr. by rewrite Clean_leading_dot.
Qed.

Lemma Has_ignores_spelling_witness :
  Has gone_baseline ("gone/x" +:+ "/") = Has gone_baseline "gone/x" ∧
  (rooted "gone/x" = false →
   Has gone_baseline ("./" +:+ "gone/x") = Has gone_baseline "gone/x").
Proof. apply (Has_ignores_spelling gone_baseline "gone/x"). done. Defined.

Import updates.

Lemma wf_empty : wf empty.
Proof. intros k Hk. unfold keys, mapping in Hk. simpl in Hk. set_solver. Qed.

(** X5.  Updates do not fail, and whatever the paths they are given, the
    keys of a Manifest built from the zero value are normalized paths. *)
Theorem updates_keep_keys_normalized (us : list update) :
  ∃ m, apply_all empty us = Ok m ∧ wf m.
Proof.
  assert (∀ m0, wf m0 → ∃ m, apply_all m0 us = Ok m ∧ wf m) as Hgen.
  { induction us as [|u us IH]; intros m0 Hwf; [by exists m0|].
    cbn [apply_all]. destruct u as [p h|p]; cbn [apply].
    - destruct (Add_Ok m0 p h) as (m1 & E & _). rewrite E. cbn [bind].
      apply IH. by eapply wf_Add.
    - cbn [bind]. apply IH. by apply wf_Remove. }
  apply Hgen, wf_empty.
Qed.

Lemma Missing_nil_intro (order : range_order) (m : Manifest)
    (paths : list string) :
  (∀ k, k ∈ keys m → k ∈ normalize <$> paths) → Missing order m paths = [].
Proof.
  intros Hall. destruct (Missing order m paths) as [|k l] eqn:E; [done|].
  assert (k ∈ Missing order m paths) as Hin by (rewrite E; by left).
  apply elem_of_Missing in Hin as [Hk Hno]. destruct Hno. by apply Hall.
Qed.

(** X6.  [Missing] is empty exactly when every key is among the paths
    given, normalized. *)
Theorem Missing_nil_iff (order : range_order) (m : Manifest)
    (paths : list string) :
  Missing order m paths = [] ↔ ∀ k, k ∈ keys m → k ∈ normalize <$> paths.
Proof.
  split.
  - intros Hnil k Hk.
    destruct (decide (k ∈ normalize <$> paths)) as [|Hno]; [done|].
    assert (k ∈ Missing order m paths) as Hin by by apply elem_of_Missing.
    rewrite Hnil in Hin. by apply elem_of_nil in Hin.
  - intros Hall. apply elem_of_nil_inv. intros k Hin.
    apply elem_of_Missing in Hin as [Hk Hno]. destruct Hno. by apply Hall.
Qed.

Lemma keys_fold_Remove L m :
  keys (fold_left Remove L m) = keys m ∖ list_to_set (normalize <$> L).
Proof.
  revert m. induction L as [|p L IH]; intros m; simpl.
  - set_solver.
  - rewrite IH, keys_Remove. set_solver.
Qed.

(** X7.  Once the paths [Missing] returns have been removed, nothing is
    missing any more, whatever order the map is ranged over. *)
Theorem Missing_cleared (order order' : range_order) (m : Manifest)
    (paths : list string) :
  wf m →
  Missing order' (fold_left Remove (Missing order m paths) m) paths = [].
Proof.
  intros Hwf. apply Missing_nil_intro. intros k Hk.
  rewrite keys_fold_Remove in Hk. apply elem_of_difference in Hk as [Hk Hno].
  destruct (decide (k ∈ normalize <$> paths)) as [|Hout]; [done|].
  destruct Hno. apply elem_of_list_to_set, list_elem_of_fmap.
  exists k. split; [symmetry; by apply Hwf|]. by apply elem_of_Missing.
Qed.

Lemma Missing_cleared_witness :
  Missing range_reversed
    (fold_left Remove (Missing range_default gone_baseline ["."]) gone_baseline)
    ["."] = [].
Proof.
  apply (Missing_cleared range_default range_reversed gone_baseline ["."]).
  apply gone_baseline_wf.
Defined.

(** X8.  [Missing] depends on the paths only through the set of their
    normal forms: their order, their repetitions and their spelling play no
    part, nor does the order the map is ranged over. *)
Theorem Missing_depends_on_set (o1 o2 : range_order) (m : Manifest)
    (paths1 paths2 : list string) :
  (∀ k, k ∈ normalize <$> paths1 ↔ k ∈ normalize <$> paths2) →
  Missing o1 m paths1 = Missing o2 m paths2.
Proof.
  intros Hsame.
  apply (StronglySorted_unique String.le);
    [apply sort_strings_sorted | apply sort_strings_sorted |].
  apply NoDup_Permutation; [apply NoDup_Missing | apply NoDup_Missing |].
  intros k. rewrite !elem_of_Missing. by rewrite Hsame.
Qed.

Lemma Missing_depends_on_set_witness :
  Missing range_default gone_baseline ["gone/"; "."; "./gone"]
  = Missing range_reversed gone_baseline ["."; "gone"].
Proof.
  apply (Missing_depends_on_set range_default range_reversed gone_baseline).
  intros k. vm_compute fmap. set_solver.
Defined.

(** ** The walk, call by call *)

(** Every call of the walk function is for an entry of the tree, with the
    path obtained by joining the names on the way to it. *)
Lemma walk_sound path root p n :
  (p, n) ∈ Walk.walk path root →
  ∃ names, os.at_path root names n ∧ p = fold_left Join names path.
Proof.
  revert path.
  induction root as [perm data|perm entries IH|t|perm content] using node_induction;
    intros path Hin.
  2:{ destruct (walk_children path perm entries) as (subs & Hperm & Hwalk).
      rewrite Hwalk in Hin. apply elem_of_cons in Hin as [[= -> ->]|Hin].
      { exists []. split; [constructor|done]. }
      apply list_elem_of_In, in_flat_map in Hin as ([name child] & Hsub & Hin).
      apply list_elem_of_In in Hsub, Hin. rewrite Hperm in Hsub.
      rewrite Forall_forall in IH.
      destruct (IH _ Hsub _ Hin) as (names & Hat & ->).
      exists (name :: names). split; [by econstructor|done]. }
  all: apply list_elem_of_singleton in Hin as [= -> ->].
  all: exists []; split; [constructor|done].
Qed.

Section further.
Context `{Hasher}.
Import kontext os.

Lemma join_normalized names :
  names ≠ [] → Forall real names → normalize (Str.join names) = Str.join names.
Proof.
  intros Hne Hreal. unfold normalize.
  rewrite <- (build_relative names) by done.
  apply Clean_build. exists 0%nat, names. by repeat split.
Qed.

(** The relative path of a call of the walk. *)
Lemma walked_relative directory root path n :
  Clean directory = directory → directory ≠ "." → directory ≠ "/" →
  valid_names root →
  (path, n) ∈ Walk.walk directory root →
  ∃ names, at_path root names n ∧
    relative directory path
    = Ok (if bool_decide (names = []) then "." else Str.join names).
Proof.
  intros Hclean Hdot Hroot Hvalid Hin.
  apply walk_sound in Hin as (names & Hat & ->). exists names.
  split; [done|]. case_bool_decide as Hn.
  - subst names. apply relative_root.
  - apply relative_joined; try done. by eapply Hvalid.
Qed.

Lemma relative_normalized (names : list string) :
  Forall real names →
  normalize (if bool_decide (names = []) then "." else Str.join names)
  = if bool_decide (names = []) then "." else Str.join names.
Proof.
  intros Hreal. case_bool_decide; [done|]. by apply join_normalized.
Qed.

Lemma loop_lookup L s k h :
  mapping (m (fold_left whiteout L s)) !! k = Some h →
  mapping (m s) !! k = Some h.
Proof.
  revert s. induction L as [|p L IH]; intros s; simpl; [done|].
  intros Hk. apply IH in Hk. rewrite whiteout_m, Remove_mapping in Hk.
  by apply lookup_delete_Some in Hk as [_ ?].
Qed.

(** X9.  After [writeNewFiles] the keys of the Manifest are the relative
    paths of the directory walked: [.] for the directory itself, and the
    names joined by slashes for every entry below it; nothing else. *)
Theorem manifest_lists_directory (order : range_order) (directory : string)
    (root : node) (m0 m' : Manifest) (layer : list tar.Entry) (delta : Z) :
  wf m0 →
  Clean directory = directory → directory ≠ "." → directory ≠ "/" →
  valid_names root →
  writeNewFiles order directory root m0 = Ok (layer, delta, m') →
  ∀ k, k ∈ keys m' ↔
       k = "." ∨
       ∃ names n, names ≠ [] ∧ at_path root names n ∧ k = Str.join names.
Proof.
  intros Hwf Hclean Hdot Hroot Hvalid Hrun. unfold writeNewFiles in Hrun.
  apply bind_Ok in Hrun as (s1 & Hv & Hrun). cbv zeta in Hrun.
  injection Hrun as _ _ <-.
  pose proof (visit_all_wf _ _ _ _ Hv Hwf) as Hwf1.
  intros k. rewrite loop_keys. rewrite elem_of_difference, elem_of_list_to_set.
  split.
  - intros [Hk Hno].
    assert (k ∈ normalize <$> allPaths s1) as Hin.
    { destruct (decide (k ∈ normalize <$> allPaths s1)) as [|Hout]; [done|].
      destruct Hno. apply list_elem_of_fmap. exists k.
      split; [symmetry; by apply Hwf1|]. by apply elem_of_Missing. }
    apply list_elem_of_fmap in Hin as (rel & -> & Hrel).
    destruct (visit_all_allPaths _ _ _ _ Hv) as (rels & Hall & Hpaths).
    simpl in Hpaths. subst rels.
    apply list_elem_of_lookup in Hrel as [i Hi].
    destruct (Forall2_lookup_r _ _ _ _ _ Hall Hi) as ([path n] & Hc & Hr).
    apply list_elem_of_lookup_2 in Hc.
    destruct (walked_relative directory root path n) as (names & Hat & Hr');
      try done.
    simpl in Hr. rewrite Hr in Hr'. injection Hr' as ->.
    rewrite relative_normalized by by eapply Hvalid.
    case_bool_decide; [by left|right]. eauto.
  - intros Hk.
    assert (∃ path n rel, (path, n) ∈ Walk.walk directory root ∧
              relative directory path = Ok rel ∧ normalize rel = k)
      as (path & n & rel & Hin & Hrel & Hnorm).
    { destruct Hk as [->|(names & n & Hne & Hat & ->)].
      - destruct (walk_root directory root) as (rest & Hw).
        exists directory, root, ".". rewrite Hw.
        split; [by left|]. split; [apply relative_root|done].
      - exists (fold_left Join names directory), n, (Str.join names).
        split; [by apply walk_complete|].
        split; [apply relative_joined; try done; by eapply Hvalid|].
        apply join_normalized; [done|by eapply Hvalid]. }
    destruct (visit_all_seen _ _ _ _ path n rel Hv Hin Hrel) as [Hseen Hhas].
    apply Has_keys in Hhas. rewrite Hnorm in Hhas. split; [done|].
    intros Hmiss. apply list_elem_of_fmap in Hmiss as (p & Hp & Hmiss).
    apply elem_of_Missing in Hmiss as [Hpk Hpno].
    rewrite (Hwf1 p Hpk) in Hp. subst p. apply Hpno.
    rewrite <- Hnorm. apply list_elem_of_fmap. eauto.
Qed.

Lemma visit_all_digests directory calls s s' k h :
  visit_all directory s calls = Ok s' →
  mapping (m s') !! k = Some h →
  mapping (m s) !! k = Some h ∨
  ∃ path n info rel,
    (path, n) ∈ calls ∧ Stat n = Ok info ∧ Value n info = Ok h ∧
    relative directory path = Ok rel ∧ normalize rel = k.
Proof.
  revert s. induction calls as [|[path n] calls IH]; intros s; cbn [visit_all].
  - intros [= <-]. by left.
  - intros Hv Hk. apply bind_Ok in Hv as (s1 & H1 & Hv).
    destruct (IH s1 Hv Hk) as [Hk1|(p & n' & info & rel & Hin & ?)].
    2:{ right. exists p, n', info, rel. split; [by right|done]. }
    apply visit_inv in H1 as (info & i & rel & Hinfo & Hi & Hrel & _ & Hcase).
    destruct Hcase as [(_ & Hm & _)|(_ & Hadd & _)].
    + left. by rewrite <- Hm.
    + apply Add_mapping in Hadd. rewrite Hadd in Hk1.
      apply lookup_insert_Some in Hk1 as [[E1 E2]|[_ Hk1]]; [|by left].
      right. exists path, n, info, rel. split; [by left|]. by rewrite <- E2.
Qed.

(** X10.  For a directory given as a cleaned path other than [.] and [/]:
    a digest in the Manifest after [writeNewFiles] is the one the baseline
    had for the path, or the value of an entry of the directory at that
    path: the empty string for a directory, the digest of the bytes read
    (through links, from a device as from a file) otherwise. *)
Theorem digests_from_baseline_or_directory (order : range_order)
    (directory : string) (root : node) (m0 m' : Manifest)
    (layer : list tar.Entry) (delta : Z) (k h : string) :
  Clean directory = directory → directory ≠ "." → directory ≠ "/" →
  valid_names root →
  writeNewFiles order directory root m0 = Ok (layer, delta, m') →
  mapping m' !! k = Some h →
  mapping m0 !! k = Some h ∨
  ∃ names n info,
    at_path root names n ∧ Stat n = Ok info ∧
    k = (if bool_decide (names = []) then "." else Str.join names) ∧
    h = (if IsDir info then ""
         else match ReadAll n with Ok data => sha256_hex data | _ => "" end).
Proof.
  intros Hclean Hdot Hroot Hvalid Hrun Hk. unfold writeNewFiles in Hrun.
  apply bind_Ok in Hrun as (s1 & Hv & Hrun). cbv zeta in Hrun.
  injection Hrun as _ _ <-. apply loop_lookup in Hk.
  destruct (visit_all_digests _ _ _ _ _ _ Hv Hk)
    as [?|(path & n & info & rel & Hin & Hinfo & Hval & Hrel & Hnorm)];
    [by left|right].
  destruct (walked_relative directory root path n) as (names & Hat & Hr');
    try done.
  rewrite Hrel in Hr'. injection Hr' as ->.
  rewrite relative_normalized in Hnorm by by eapply Hvalid.
  exists names, n, info. split; [done|]. split; [done|]. split; [done|].
  unfold Value in Hval. destruct (IsDir info); [by injection Hval|].
  destruct (ReadAll n); [by injection Hval|done|done].
Qed.

Lemma visit_all_unchanged directory calls s s' :
  visit_all directory s calls = Ok s' → tw s' = tw s → m s' = m s.
Proof.
  revert s. induction calls as [|[path n] calls IH]; intros s; cbn [visit_all].
  - by intros [= <-].
  - intros Hv Htw. apply bind_Ok in Hv as (s1 & H1 & Hv).
    destruct (visit_all_count _ _ _ _ Hv) as (_ & new & _ & Hnew & _).
    apply visit_inv in H1 as (info & i & rel & _ & _ & _ & _ & Hcase).
    destruct Hcase as [(_ & Hm & _ & Htw1)|(_ & _ & _ & e & Htw1 & _)].
    + rewrite <- Hm. apply IH; [done|]. by rewrite Htw1.
    + rewrite Hnew, Htw1 in Htw. apply (f_equal length) in Htw.
      rewrite !length_app in Htw. simpl in Htw. lia.
Qed.

(** X11.  When the count is zero, for which [main] returns without
    publishing, nothing was to be published: the archive is empty and the
    Manifest is the baseline. *)
Theorem zero_count_nothing_changed (order : range_order) (directory : string)
    (root : node) (m0 m' : Manifest) (layer : list tar.Entry) :
  writeNewFiles order directory root m0 = Ok (layer, 0, m') →
  layer = [] ∧ m' = m0.
Proof.
  intros Hrun.
  destruct (writeNewFiles_inv _ _ _ _ _ _ _ Hrun)
    as (s1 & markers & Hv & _ & -> & Hdelta & Hlen & _).
  unfold writeNewFiles in Hrun. rewrite Hv in Hrun. cbn [bind] in Hrun.
  injection Hrun as _ _ <-.
  assert (tw s1 = []) as Htw by (apply length_zero_iff_nil; lia).
  assert (Missing order (m s1) (allPaths s1) = []) as ->
    by (apply length_zero_iff_nil; lia).
  assert (markers = []) as ->.
  { apply length_zero_iff_nil.
    destruct (Missing order (m s1) (allPaths s1)); simpl in *; lia. }
  rewrite Htw. split; [done|]. simpl. by apply (visit_all_unchanged _ _ _ _ Hv).
Qed.

Lemma visit_all_reads directory calls s s' :
  visit_all directory s calls = Ok s' →
  Forall (λ c, ∃ info i rel, Stat c.2 = Ok info ∧ Value c.2 info = Ok i ∧
                             relative directory c.1 = Ok rel) calls.
Proof.
  revert s. induction calls as [|[path n] calls IH]; intros s; cbn [visit_all];
    [constructor|].
  intros Hv. apply bind_Ok in Hv as (s1 & H1 & Hv). constructor; [|by eapply IH].
  apply visit_inv in H1 as (info & i & rel & ? & ? & ? & _).
  by exists info, i, rel.
Qed.

Lemma visit_all_known directory calls :
  ∀ m1 paths,
  Forall (λ c, ∃ info i rel, Stat c.2 = Ok info ∧ Value c.2 info = Ok i ∧
                 relative directory c.1 = Ok rel ∧ Has m1 rel = true) calls →
  ∃ rels,
    Forall2 (λ c rel, relative directory c.1 = Ok rel) calls rels ∧
    visit_all directory {| m := m1; count := 0; allPaths := paths; tw := [] |}
      calls
    = Ok {| m := m1; count := 0; allPaths := paths ++ rels; tw := [] |}.
Proof.
  induction calls as [|[path n] calls IH]; intros m1 paths Hall.
  - exists []. split; [constructor|]. by rewrite app_nil_r.
  - apply Forall_cons in Hall as [(info & i & rel & Hinfo & Hi & Hrel & Hhas) Hall].
    destruct (IH m1 (paths ++ [rel]) Hall) as (rels & Hrels & Hrun).
    exists (rel :: rels). split; [by constructor|].
    cbn [visit_all visit fst snd] in *. rewrite Hinfo. cbn [bind].
    rewrite Hi. cbn [bind]. rewrite Hrel. cbn [bind m]. rewrite Hhas.
    cbn [bind count allPaths tw]. rewrite Hrun. by rewrite <- app_assoc.
Qed.

Lemma Forall2_functional {A B} (R : A → B → Prop) l k1 k2 :
  (∀ a b1 b2, R a b1 → R a b2 → b1 = b2) →
  Forall2 R l k1 → Forall2 R l k2 → k1 = k2.
Proof.
  intros Hf H1. revert k2. induction H1 as [|a b l k1 Hab _ IH]; intros k2 H2.
  - by inversion H2.
  - inversion H2 as [|a' b' l' k2' Hab' H2']; subst. f_equal; [by eapply Hf|].
    by apply IH.
Qed.

(** X12.  When the keys of the baseline are normalized paths, a second run
    over the same directory, against the Manifest the first run left,
    changes nothing: no entry, no marker, a count of zero and the same
    Manifest, whatever order maps are ranged over.  (A path the Manifest has
    is skipped without a look at its digest.) *)
Theorem second_run_changes_nothing (order order' : range_order)
    (directory : string) (root : node) (m0 m1 : Manifest)
    (layer : list tar.Entry) (delta : Z) :
  wf m0 →
  writeNewFiles order directory root m0 = Ok (layer, delta, m1) →
  writeNewFiles order' directory root m1 = Ok ([], 0, m1).
Proof.
  intros Hwf Hrun. unfold writeNewFiles in Hrun.
  apply bind_Ok in Hrun as (s1 & Hv & Hrun). cbv zeta in Hrun.
  injection Hrun as _ _ Hm1.
  pose proof (visit_all_wf _ _ _ _ Hv Hwf) as Hwf1.
  destruct (visit_all_allPaths _ _ _ _ Hv) as (rels1 & Hrels1 & Hpaths1).
  simpl in Hpaths1.
  assert (∀ k, k ∈ keys m1 ↔ k ∈ keys (m s1) ∧ k ∈ normalize <$> allPaths s1)
    as Hkeys.
  { intros k. rewrite <- Hm1, loop_keys, elem_of_difference, elem_of_list_to_set.
    split.
    - intros [Hk Hno]. split; [done|].
      destruct (decide (k ∈ normalize <$> allPaths s1)) as [|Hout]; [done|].
      destruct Hno. apply list_elem_of_fmap. exists k.
      split; [symmetry; by apply Hwf1|]. by apply elem_of_Missing.
    - intros [Hk Hin]. split; [done|]. intros Hmiss.
      apply list_elem_of_fmap in Hmiss as (p & Hp & Hmiss).
      apply elem_of_Missing in Hmiss as [Hpk Hpno].
      rewrite (Hwf1 p Hpk) in Hp. by subst p. }
  assert (Forall (λ c, ∃ info i rel, Stat c.2 = Ok info ∧ Value c.2 info = Ok i ∧
                   relative directory c.1 = Ok rel ∧ Has m1 rel = true)
            (Walk.walk directory root)) as Hknown.
  { pose proof (visit_all_reads _ _ _ _ Hv) as Hreads.
    rewrite Forall_forall in Hreads. apply Forall_forall. intros [path n] Hin.
    destruct (Hreads _ Hin) as (info & i & rel & Hinfo & Hi & Hrel).
    exists info, i, rel. repeat (split; [done|]).
    destruct (visit_all_seen _ _ _ _ path n rel Hv Hin Hrel) as [Hseen Hhas].
    apply Has_keys. apply Hkeys. split; [by apply Has_keys|].
    apply list_elem_of_fmap. eauto. }
  destruct (visit_all_known directory _ m1 [] Hknown) as (rels2 & Hrels2 & Hrun2).
  assert (rels2 = rels1) as ->.
  { eapply Forall2_functional; [|exact Hrels2|exact Hrels1].
    simpl. intros a b1 b2 E1 E2. congruence. }
  unfold writeNewFiles, initial. rewrite Hrun2. cbn [bind]. cbv zeta.
  cbn [m allPaths app]. rewrite <- Hpaths1.
  assert (Missing order' m1 (allPaths s1) = []) as ->.
  { apply Missing_nil_intro. intros k Hk. by apply Hkeys in Hk as [_ ?]. }
  done.
Qed.

End further.

(** The Manifest a first run over [small_tree] leaves, from a baseline with
    paths that are gone. *)
Definition after_first_run : manifest.Manifest :=
  Eval vm_compute in
    match kontext.writeNewFiles (H := example_hasher) range_default "/src"
            small_tree gone_baseline with
    | Ok (_, _, m) => m
    | _ => manifest.empty
    end.

Lemma second_run_changes_nothing_witness :
  kontext.writeNewFiles (H := example_hasher) range_reversed "/src" small_tree
    after_first_run = Ok ([], 0, after_first_run).
Proof.
  eapply (second_run_changes_nothing (H := example_hasher)
            range_default range_reversed "/src" small_tree gone_baseline).
  - apply gone_baseline_wf.
  - vm_compute. reflexivity.
Defined.

(** ** What is published, and what the next run finds *)

Section registry.
Context `{Hasher}.
Import os kontext remote kontext_main.

Lemma Decode_Marshal_valid order m :
  valid_strings m →
  ∃ m', Decode (Marshal order m) manifest.empty = Ok m' ∧ mapping m' = mapping m.
Proof.
  intros Hvalid. destruct m as [[f|]].
  - destruct (decide (size f = 0%nat)) as [Hsize|Hsize].
    + exists manifest.empty. unfold Marshal. cbn [Files].
      rewrite bool_decide_eq_true_2 by done. split; [by vm_compute|].
      apply map_size_empty_iff in Hsize. by subst f.
    + exists {| Files := Some f |}. split; [|done].
      by apply Decode_Marshal_files.
  - exists manifest.empty. split; [by vm_compute|done].
Qed.

(** X13.  The next run finds what this run published: from an image made
    by [combineImage] with the layer of [writeManifest], [findBaseImage]
    returns that image and a Manifest with the same mapping, without a
    fallback, when paths and digests are valid UTF-8. *)
Theorem published_manifest_is_found (order : range_order) (w : World)
    (tag : string) (base : Image) (layer : list tar.Entry) (m : Manifest) :
  valid_strings m →
  Layers_fails base = false →
  Image_at w tag = Ok (combineImage base layer (writeManifest order m)) →
  ∃ m', findBaseImage w tag
        = ([Fetched tag],
           Ok (combineImage base layer (writeManifest order m), m')) ∧
        mapping m' = mapping m.
Proof.
  intros Hvalid Hbase Himg.
  destruct (Decode_Marshal_valid order m Hvalid) as (m' & Hdec & Hm).
  exists m'. split; [|done]. unfold findBaseImage. rewrite Himg.
  cbn [combineImage Layers_fails layers]. rewrite Hbase.
  replace (last (layers base ++ [layer_of layer; layer_of (writeManifest order m)]))
    with (Some (layer_of (writeManifest order m))).
  - cbn [layer_of Uncompressed_fails entries writeManifest find_manifest
         tar.header tar.Name tar.body].
    rewrite bool_decide_eq_false_2 by (intros Hne; by apply Hne).
    change {| Files := None |} with manifest.empty. by rewrite Hdec.
  - change [layer_of layer; layer_of (writeManifest order m)]
      with ([layer_of layer] ++ [layer_of (writeManifest order m)]).
    by rewrite app_assoc, last_snoc.
Qed.

(** X14.  What [findBaseImage] returns goes together: the image at the
    target with the Manifest decoded from the first entry named
    [ManifestPath] of its last layer, or else the default base image with the
    zero Manifest, after the log line that tells of the fallback. *)
Theorem findBaseImage_consistent (w : World) (tag : string)
    (evs : list event) (img : Image) (m : Manifest) :
  findBaseImage w tag = (evs, Ok (img, m)) →
  (Image_at w tag = Ok img ∧ evs = [Fetched tag] ∧
   ∃ l, last (layers img) = Some l ∧ find_manifest (entries l) = Some (Ok m)) ∨
  (Image_at w defaultBaseImage = Ok img ∧ m = manifest.empty ∧
   Logged "Error accessing the target, falling back on a clean slate" ∈ evs).
Proof.
  unfold findBaseImage.
  assert (∀ evs' (r : res Image),
            (evs', let* base := r in Ok (base, {| Files := None |}))
            = (evs, Ok (img, m)) → r = Ok img ∧ m = manifest.empty ∧ evs' = evs)
    as Hfallback.
  { intros evs' [b| |]; cbn [bind]; intros [= <- <- <-]; done. }
  destruct (Image_at w tag) as [base| |] eqn:Hbase.
  2,3: intros (? & ? & <-)%Hfallback; right;
       repeat (split; [done|]); right; by left.
  destruct (Layers_fails base).
  { intros (? & ? & <-)%Hfallback; right.
    repeat (split; [done|]). right. by left. }
  destruct (last (layers base)) as [l|] eqn:Hlast; [|done].
  destruct (Uncompressed_fails l).
  { intros (? & ? & <-)%Hfallback; right.
    repeat (split; [done|]). right. by left. }
  destruct (find_manifest (entries l)) as [[m1| |]|] eqn:Hfind.
  - intros [= <- <- <-]. left. eauto.
  - intros (? & ? & <-)%Hfallback; right.
    repeat (split; [done|]). right. by left.
  - intros (? & ? & <-)%Hfallback; right.
    repeat (split; [done|]). right. by left.
  - intros (? & ? & <-)%Hfallback; right.
    repeat (split; [done|]). right. by left.
Qed.

(** X15.  A target image without layers ends the program with a run-time
    panic, before the directory is looked at. *)
Theorem image_without_layers_panics (order : range_order) (w : World)
    (directory tag ref : string) (root : option node) (img : Image) :
  directory ≠ "" → tag ≠ "" →
  NewTag w tag = Ok ref →
  Image_at w ref = Ok img → Layers_fails img = false → layers img = [] →
  main order w directory tag root
  = ([Fetched ref], Panicked "index out of range").
Proof.
  intros Hd Ht Htag Himg Hfails Hlayers. unfold main.
  rewrite !bool_decide_eq_false_2 by done. rewrite Htag.
  unfold findBaseImage. by rewrite Himg, Hfails, Hlayers.
Qed.

(** X16.  [main] pushes to the target tag only, after a count that is
    not zero and after the Manifest has been written; what it pushes is the
    base image with the data layer and the layer of the Manifest appended, in
    that order. *)
Theorem main_pushes_base_and_two_layers (order : range_order) (w : World)
    (directory tag : string) (root : option node) (evs : list event)
    (e : exit) (ref : string) (img : Image) :
  main order w directory tag root = (evs, e) →
  Pushing ref img ∈ evs →
  NewTag w tag = Ok ref ∧
  ∃ base m0 r layer delta m',
    (findBaseImage w ref).2 = Ok (base, m0) ∧ root = Some r ∧
    writeNewFiles order directory r m0 = Ok (layer, delta, m') ∧ delta ≠ 0 ∧
    img = combineImage base layer (writeManifest order m') ∧
    WroteManifest m' ∈ evs.
Proof.
  unfold main. intros Hmain Hin.
  assert (∀ l, Forall quiet l → Pushing ref img ∉ l) as Hquiet.
  { intros l Hl Hp. rewrite Forall_forall in Hl. by apply (Hl _ Hp). }
  case_bool_decide; [injection Hmain as <- _; by apply elem_of_nil in Hin|].
  case_bool_decide; [injection Hmain as <- _; by apply elem_of_nil in Hin|].
  destruct (NewTag w tag) as [targetTag| |] eqn:Htag;
    [|injection Hmain as <- _; by apply elem_of_nil in Hin..].
  pose proof (findBaseImage_quiet w targetTag) as Hq.
  destruct (findBaseImage w targetTag) as [evs0 [[base m0]| |]] eqn:Hfind;
    simpl in Hq;
    [|injection Hmain as <- _; by apply Hquiet in Hin..].
  destruct root as [r|];
    [|injection Hmain as <- _; by apply Hquiet in Hin].
  destruct (writeNewFiles order directory r m0) as [[[layer delta] m']| |]
    eqn:Hrun; [|injection Hmain as <- _; by apply Hquiet in Hin..].
  case_bool_decide as Hdelta.
  { injection Hmain as <- _. apply elem_of_app in Hin as [Hin|Hin].
    - by apply Hquiet in Hin.
    - apply list_elem_of_singleton in Hin. done. }
  assert (ref = targetTag ∧
          img = combineImage base layer (writeManifest order m') ∧
          WroteManifest m' ∈ evs) as (-> & -> & Hwrote).
  { destruct (Resolve w targetTag) as [auth| |];
      [destruct (Write w targetTag _ auth)|..]; injection Hmain as <- _.
    all: apply elem_of_app in Hin as [Hin|Hin]; [by apply Hquiet in Hin|].
    all: repeat (apply elem_of_cons in Hin as [Hin|Hin]; [try done|]).
    all: try (by apply elem_of_nil in Hin).
    all: injection Hin as -> ->.
    all: split; [done|]; split; [done|].
    all: apply elem_of_app; right; by left. }
  split; [done|]. exists base, m0, r, layer, delta, m'.
  by rewrite Hfind.
Qed.

End registry.

Lemma published_manifest_is_found_witness :
  ∃ m', kontext_main.findBaseImage example_world "registry/image:tag"
        = ([kontext_main.Fetched "registry/image:tag"],
           Ok (kontext_main.combineImage
                 {| remote.layers := []; remote.Layers_fails := false |} []
                 (kontext_main.writeManifest range_default dot_manifest), m')) ∧
        mapping m' = mapping dot_manifest.
Proof.
  apply (published_manifest_is_found range_default example_world
           "registry/image:tag"
           {| remote.layers := []; remote.Layers_fails := false |} []
           dot_manifest); [|done|done].
  unfold valid_strings, dot_manifest, mapping. cbn [Files default].
  apply map_Forall_singleton. by vm_compute.
Defined.

Lemma findBaseImage_consistent_witness :
  (remote.Image_at example_world "registry/image:tag" = Ok published ∧
   [kontext_main.Fetched "registry/image:tag"]
   = [kontext_main.Fetched "registry/image:tag"] ∧
   ∃ l, last (remote.layers published) = Some l ∧
        kontext_main.find_manifest (remote.entries l) = Some (Ok dot_manifest)) ∨
  (remote.Image_at example_world kontext_main.defaultBaseImage = Ok published ∧
   dot_manifest = manifest.empty ∧
   kontext_main.Logged
     "Error accessing the target, falling back on a clean slate"
     ∈ [kontext_main.Fetched "registry/image:tag"]).
Proof.
  apply (findBaseImage_consistent example_world "registry/image:tag"
           [kontext_main.Fetched "registry/image:tag"] published dot_manifest).
  vm_compute. reflexivity.
Defined.

(** A registry whose image at the target has no layers. *)
Definition hollow_world : remote.World :=
  {| remote.NewTag := λ tag, Ok tag;
     remote.Image_at :=
       λ ref, Ok {| remote.layers := []; remote.Layers_fails := false |};
     remote.Resolve := λ ref, Ok "token";
     remote.Write := λ ref img auth, Ok () |}.

Lemma image_without_layers_panics_witness :
  kontext_main.main (H := example_hasher) range_default hollow_world "/src"
    "registry/image:tag" (Some small_tree)
  = ([kontext_main.Fetched "registry/image:tag"],
     kontext_main.Panicked "index out of range").
Proof.
  by apply (image_without_layers_panics (H := example_hasher) range_default
              hollow_world "/src" "registry/image:tag" "registry/image:tag"
              (Some small_tree)
              {| remote.layers := []; remote.Layers_fails := false |}).
Defined.

(** A registry that has [published] at every reference and refuses what is
    written to it. *)
Definition changed_world : remote.World :=
  {| remote.NewTag := λ tag, Ok tag;
     remote.Image_at := λ ref, Ok published;
     remote.Resolve := λ ref, Ok "token";
     remote.Write := λ ref img auth, Err "denied" |}.

Definition changed_run : list kontext_main.event * kontext_main.exit :=
  kontext_main.main (H := example_hasher) range_default changed_world "/src"
    "registry/image:tag" (Some small_tree).

Definition pushed_image : remote.Image :=
  Eval vm_compute in
    match changed_run.1 with
    | [_; _; kontext_main.Pushing _ img] => img
    | _ => published
    end.

Lemma main_pushes_base_and_two_layers_witness :
  remote.NewTag changed_world "registry/image:tag" = Ok "registry/image:tag" ∧
  ∃ base m0 r layer delta m',
    (kontext_main.findBaseImage changed_world "registry/image:tag").2
    = Ok (base, m0) ∧
    Some small_tree = Some r ∧
    kontext.writeNewFiles (H := example_hasher) range_default "/src" r m0
    = Ok (layer, delta, m') ∧ delta ≠ 0 ∧
    pushed_image
    = kontext_main.combineImage base layer
        (kontext_main.writeManifest range_default m') ∧
    kontext_main.WroteManifest m' ∈ changed_run.1.
Proof.
  apply (main_pushes_base_and_two_layers (H := example_hasher) range_default
           changed_world "/src" "registry/image:tag" (Some small_tree)
           changed_run.1 changed_run.2 "registry/image:tag" pushed_image).
  - exact (surjective_pairing changed_run).
  - vm_compute. do 2 apply list_elem_of_further. apply list_elem_of_here.
Defined.

Lemma manifest_lists_directory_witness :
  "a" ∈ keys after_first_run ↔
  "a" = "." ∨
  ∃ names n, names ≠ [] ∧ os.at_path small_tree names n ∧ "a" = Str.join names.
Proof.
  eapply (manifest_lists_directory (H := example_hasher) range_default "/src"
            small_tree gone_baseline).
  - apply gone_baseline_wf.
  - done.
  - done.
  - done.
  - apply small_tree_valid.
  - vm_compute. reflexivity.
Defined.

Lemma digests_from_baseline_or_directory_witness :
  mapping gone_baseline !! "a" = Some "sha256:a's bytes" ∨
  ∃ names n info,
    os.at_path small_tree names n ∧ os.Stat n = Ok info ∧
    "a" = (if bool_decide (names = []) then "." else Str.join names) ∧
    "sha256:a's bytes"
    = (if os.IsDir info then ""
       else match os.ReadAll n with
            | Ok data => sha256_hex (Hasher := example_hasher) data
            | _ => ""
            end).
Proof.
  eapply (digests_from_baseline_or_directory (H := example_hasher)
            range_default "/src" small_tree gone_baseline after_first_run).
  - done.
  - done.
  - done.
  - apply small_tree_valid.
  - vm_compute. reflexivity.
  - by vm_compute.
Defined.

(** A device reached through a link is read as a file is: one that gives
    no bytes, as [/dev/null] does, gets the digest of no bytes and an empty
    entry; one that gives bytes ends the run, since the header written for
    it leaves no room for them. *)
Definition linked_device (content : string) : os.node :=
  os.Dir mode_0555
    [("dev", os.Symlink (Some (os.Irregular 438 (Some content))))].

Example empty_device_is_hashed :
  kontext.writeNewFiles (H := example_hasher) range_default "/src"
    (linked_device "") dot_manifest
  = Ok ([ {| tar.header :=
               {| tar.Name := "/var/run/kontext/dev"; tar.Size := 0;
                  tar.Typeflag := tar.TypeReg; tar.Mode := mode_0555 |};
             tar.body := "" |} ], 1,
        {| manifest.Files :=
             Some (list_to_map [(".", ""); ("dev", "sha256:")]) |}).
Proof. vm_compute. reflexivity. Qed.

Example device_with_bytes_fails :
  kontext.writeNewFiles (H := example_hasher) range_default "/src"
    (linked_device "bytes") dot_manifest
  = Err "archive/tar: write too long".
Proof. vm_compute. reflexivity. Qed.

Lemma zero_count_nothing_changed_witness :
  @nil tar.Entry = [] ∧ dot_manifest = dot_manifest.
Proof.
  apply (zero_count_nothing_changed (H := example_hasher) range_default "/src"
           empty_dir dot_manifest dot_manifest []).
  vm_compute. reflexivity.
Defined.

(** ** The directory flag *)

Section flag.
Context `{Hasher}.
Import kontext os.

Lemma clean_elems_empty r out l :
  clean_elems r out ("" :: l) = clean_elems r out l.
Proof. done. Qed.

Lemma Join_trailing_slash d x : d ≠ "" → Join (d +:+ "/") x = Join d x.
Proof.
  intros Hne. unfold Join.
  rewrite !bool_decide_eq_true_2 by (done || by apply str_app_nonempty).
  unfold Clean.
  rewrite !bool_decide_eq_false_2 by (by repeat apply str_app_nonempty).
  rewrite !rooted_app by (done || by apply str_app_nonempty).
  rewrite !split_app. cbn [Str.split].
  by rewrite <- !app_assoc, !clean_elems_app.
Qed.

Lemma fold_Join_build r l names :
  clean_form r l → Forall real names →
  fold_left Join names (build r l) = build r (l ++ names).
Proof.
  revert l. induction names as [|x names IH]; intros l Hl Hr; simpl.
  - by rewrite app_nil_r.
  - apply Forall_cons in Hr as [Hx Hr]. rewrite Join_build by done.
    rewrite IH; [|by apply clean_form_snoc|done]. by rewrite <- app_assoc.
Qed.

Lemma build_app_join r l names :
  l ≠ [] → names ≠ [] →
  build r (l ++ names) = build r l +:+ String Str.slash (Str.join names).
Proof.
  intros Hl. induction names as [|x ns IH] using rev_ind; [done|]. intros _.
  destruct ns as [|y ns].
  - simpl. by apply build_snoc.
  - rewrite app_assoc, build_snoc by by destruct l.
    rewrite IH by done. rewrite join_snoc by done.
    by rewrite !str_app_assoc.
Qed.

(** X17.  With a slash after a directory given as a cleaned path other
    than [.] and [/], the walk is over the same entries, but the relative
    path of every entry below the directory has lost its first byte. *)
Theorem trailing_slash_cuts_relative_paths (directory : string)
    (names : list string) :
  Clean directory = directory → directory ≠ "." → directory ≠ "/" →
  names ≠ [] → Forall real names →
  fold_left Join names (directory +:+ "/") = fold_left Join names directory ∧
  relative (directory +:+ "/") (fold_left Join names (directory +:+ "/"))
  = Ok (Str.drop 1 (Str.join names)).
Proof.
  intros Hclean Hdot Hroot Hne Hreal.
  destruct (Clean_shape directory) as (l & Hl & E). rewrite Hclean in E.
  set (r := rooted directory) in *.
  assert (l ≠ []) as Hlne.
  { intros ->. destruct r; [by apply Hroot|by apply Hdot]. }
  assert (directory ≠ "") as Hd by (rewrite E; by apply build_nonempty).
  assert (fold_left Join names (directory +:+ "/")
          = fold_left Join names directory) as Hfold.
  { destruct names as [|x names]; [done|]. simpl.
    by rewrite Join_trailing_slash. }
  split; [done|]. rewrite Hfold.
  rewrite E at 2. rewrite fold_Join_build, build_app_join by done.
  rewrite <- E. unfold relative.
  assert (Str.join names ≠ "") as Hj.
  { intros Hj. apply (f_equal Str.split) in Hj.
    rewrite split_join_real in Hj by done. subst names.
    by apply Forall_cons in Hreal as [(? & _) _]. }
  rewrite bool_decide_eq_true_2.
  - unfold Str.slice_from, Str.len.
    rewrite !str_length_app. cbn [String.length].
    rewrite bool_decide_eq_true_2.
    + f_equal.
      replace (Z.to_nat (Z.of_nat (String.length directory + 1) + 1))
        with (String.length (directory +:+ String Str.slash "") + 1)%nat
        by (rewrite str_length_app; simpl; lia).
      replace (directory +:+ String Str.slash (Str.join names))
        with ((directory +:+ String Str.slash "") +:+ Str.join names)
        by by rewrite str_app_assoc.
      generalize (directory +:+ String Str.slash ""). intros a.
      induction a as [|c a IH]; simpl; [done|]. apply IH.
    + destruct (Str.join names); [done|]. simpl. lia.
  - intros Heq. apply (f_equal String.length) in Heq.
    rewrite !str_length_app in Heq. simpl in Heq.
    destruct (Str.join names); [done|]. simpl in Heq. lia.
Qed.

Lemma trailing_slash_cuts_relative_paths_witness :
  fold_left Join ["pkg"; "main.go"] ("/src" +:+ "/")
  = fold_left Join ["pkg"; "main.go"] "/src" ∧
  relative ("/src" +:+ "/") (fold_left Join ["pkg"; "main.go"] ("/src" +:+ "/"))
  = Ok (Str.drop 1 (Str.join ["pkg"; "main.go"])).
Proof.
  apply (trailing_slash_cuts_relative_paths "/src" ["pkg"; "main.go"]);
    try done.
  by repeat constructor.
Defined.

(** X18.  With [.] given as the directory, the path of an entry below it
    is its names joined, and the relative path is cut from it after two
    bytes: the walk function faults on a name of one byte, and what is left of
    a longer path is not its relative path. *)
Theorem dot_directory_cuts_relative_paths (names : list string) :
  names ≠ [] → Forall real names →
  fold_left Join names "." = Str.join names ∧
  relative "." (Str.join names) = Str.slice_from (Str.join names) 2 ∧
  ((String.length (Str.join names) < 2)%nat →
   ∀ s n info i, Stat n = Ok info → Value n info = Ok i →
     visit "." s (Str.join names, n) = Panic "slice bounds out of range").
Proof.
  intros Hne Hreal.
  assert (fold_left Join names "." = Str.join names) as Hfold.
  { destruct names as [|x names]; [done|].
    apply Forall_cons in Hreal as [Hx Hreal]. cbn [fold_left].
    assert (Join "." x = build false [x]) as ->.
    { unfold Join. rewrite bool_decide_eq_true_2 by done.
      change ("." +:+ String Str.slash x) with ("./" +:+ x).
      destruct Hx as (Hx1 & Hx2 & Hx3 & Hx4).
      rewrite Clean_leading_dot.
      - change x with (build false [x]) at 1. apply Clean_build.
        exists 0%nat, [x]. by repeat split; try constructor.
      - done.
      - destruct x as [|c x]; [done|]. simpl. unfold noslash in Hx4.
        simpl in Hx4. apply orb_false_elim in Hx4 as [Hc _].
        by rewrite Hc. }
    rewrite fold_Join_build; [|exists 0%nat, [x]; by repeat split; try constructor|done].
    by rewrite build_relative. }
  assert (Str.join names ≠ ".") as Hdot.
  { intros Hj. apply (f_equal Str.split) in Hj.
    rewrite split_join_real in Hj by done. subst names.
    by apply Forall_cons in Hreal as [(_ & ? & _) _]. }
  split; [done|]. split.
  - unfold relative. by rewrite bool_decide_eq_true_2.
  - intros Hlen s n info i Hinfo Hi. unfold visit. rewrite Hinfo. cbn [bind].
    rewrite Hi. cbn [bind]. unfold relative. rewrite bool_decide_eq_true_2 by done.
    unfold Str.slice_from, Str.len. rewrite bool_decide_eq_false_2; [done|].
    simpl. lia.
Qed.

End flag.

Lemma dot_directory_cuts_relative_paths_witness :
  fold_left Join ["a"] "." = Str.join ["a"] ∧
  kontext.relative "." (Str.join ["a"]) = Str.slice_from (Str.join ["a"]) 2 ∧
  ((String.length (Str.join ["a"]) < 2)%nat →
   ∀ s n info i, os.Stat n = Ok info →
     kontext.Value (H := example_hasher) n info = Ok i →
     kontext.visit (H := example_hasher) "." s (Str.join ["a"], n)
     = Panic "slice bounds out of range").
Proof.
  apply (dot_directory_cuts_relative_paths (H := example_hasher) ["a"]); [done|].
  by repeat constructor.
Defined.

(** ** The names in the data layer *)

Section names.
Context `{Hasher}.
Import kontext os.

Lemma clean_form_mount names :
  Forall real names → clean_form true (mount ++ names).
Proof.
  intros Hn. apply clean_form_real. apply Forall_app. split; [|done].
  by repeat constructor.
Qed.

Lemma Join_mount names :
  names ≠ [] → Forall real names →
  Join BasePath (Str.join names) = build true (mount ++ names).
Proof.
  intros Hne Hl. unfold Join. rewrite bool_decide_eq_true_2 by done.
  change BasePath with (build true mount).
  rewrite Clean_build_app by (apply clean_form_real; by repeat constructor).
  rewrite split_join_real, clean_elems_real by done.
  unfold build. by rewrite rev_app_distr.
Qed.

Lemma build_snoc_rooted L x :
  ∃ a, build true (L ++ [x]) = a +:+ String Str.slash x ∧
       (L = [] → a = "") ∧ (L ≠ [] → a = build true L).
Proof.
  destruct L as [|y L].
  - exists "". by rewrite build_rooted.
  - exists (build true (y :: L)). rewrite build_snoc by done. done.
Qed.

Lemma Dir_build_rooted L x :
  Forall real (L ++ [x]) → filepath.Dir (build true (L ++ [x])) = build true L.
Proof.
  intros [HL [Hx _]%Forall_cons]%Forall_app.
  destruct (build_snoc_rooted L x) as (a & -> & Ha1 & Ha2).
  unfold filepath.Dir. rewrite take_last_slash_app by by apply real_noslash.
  destruct L as [|y L].
  - rewrite Ha1 by done. done.
  - rewrite Ha2 by done. rewrite Clean_build_app by by apply clean_form_real.
    simpl. done.
Qed.

Lemma Base_build_rooted L x :
  Forall real (L ++ [x]) → Base (build true (L ++ [x])) = x.
Proof.
  intros [HL [(Hne & _ & _ & Hns) _]%Forall_cons]%Forall_app.
  destruct (build_snoc_rooted L x) as (a & -> & _).
  unfold Base. rewrite bool_decide_eq_false_2 by by destruct a.
  replace (a +:+ String Str.slash x) with ((a +:+ String Str.slash "") +:+ x)
    by by rewrite str_app_assoc.
  rewrite trim_slashes_app by done.
  rewrite str_app_assoc. change (String Str.slash "" +:+ x) with (String Str.slash x).
  rewrite last_slash_app by done.
  replace (S (String.length a)) with (String.length (a +:+ String Str.slash ""))
    by (rewrite str_length_app; simpl; lia).
  replace (a +:+ String Str.slash x) with ((a +:+ String Str.slash "") +:+ x)
    by by rewrite str_app_assoc.
  rewrite drop_app_length. by rewrite bool_decide_eq_false_2.
Qed.

Lemma real_marker x : real x → real (".wh." +:+ x).
Proof.
  intros (_ & _ & _ & Hns). repeat split; try done.
Qed.

Lemma whiteout_name_build (l : list string) (x : string) :
  Forall real (l ++ [x]) →
  whiteout_name (Str.join (l ++ [x]))
  = build true ((mount ++ l) ++ [".wh." +:+ x]).
Proof.
  intros Hreal.
  assert (Forall real l) as Hl by by apply Forall_app in Hreal as [? _].
  assert (real x) as Hx by by apply Forall_app in Hreal as [_ [? _]%Forall_cons].
  unfold whiteout_name. cbv zeta.
  rewrite Join_mount by (done || by destruct l).
  rewrite Clean_build by by apply clean_form_mount.
  rewrite app_assoc.
  rewrite Dir_build_rooted, Base_build_rooted
    by (rewrite <- app_assoc; apply Forall_app; split;
        [by repeat constructor|done]).
  apply Join_build; [by apply clean_form_mount|by apply real_marker].
Qed.

(** X19.  The marker for a path is its sibling: it is in the directory of
    the entry the path had under the mount path, under the name of that entry
    with [.wh.] before it. *)
Theorem whiteout_is_sibling (l : list string) (x : string) :
  Forall real (l ++ [x]) →
  let entry := Join BasePath (Str.join (l ++ [x])) in
  whiteout_name (Str.join (l ++ [x]))
  = Join BasePath (Str.join (l ++ [".wh." +:+ x])) ∧
  filepath.Dir (whiteout_name (Str.join (l ++ [x]))) = filepath.Dir entry ∧
  Base (whiteout_name (Str.join (l ++ [x]))) = ".wh." +:+ Base entry.
Proof.
  intros Hreal. cbv zeta.
  assert (Forall real (l ++ [".wh." +:+ x])) as Hreal'.
  { apply Forall_app in Hreal as [Hl [Hx _]%Forall_cons].
    apply Forall_app. split; [done|]. constructor; [by apply real_marker|done]. }
  assert (Forall real l) as Hl by by apply Forall_app in Hreal as [? _].
  assert (real x) as Hx by by apply Forall_app in Hreal as [_ [? _]%Forall_cons].
  pose proof (whiteout_name_build l x Hreal) as Hname.
  rewrite !Join_mount by (done || by destruct l).
  rewrite Hname, !app_assoc.
  rewrite !Dir_build_rooted, !Base_build_rooted
    by (rewrite <- app_assoc; apply Forall_app; split;
        [by repeat constructor|done]).
  done.
Qed.

Lemma whiteout_is_sibling_witness :
  whiteout_name (Str.join (["gone"] ++ ["x"]))
  = Join BasePath (Str.join (["gone"] ++ [".wh." +:+ "x"])) ∧
  filepath.Dir (whiteout_name (Str.join (["gone"] ++ ["x"])))
  = filepath.Dir (Join BasePath (Str.join (["gone"] ++ ["x"]))) ∧
  Base (whiteout_name (Str.join (["gone"] ++ ["x"])))
  = ".wh." +:+ Base (Join BasePath (Str.join (["gone"] ++ ["x"]))).
Proof.
  apply (whiteout_is_sibling ["gone"] "x"). by repeat constructor.
Defined.

Lemma under_mount_build names :
  under_mount (build true (mount ++ names)).
Proof.
  destruct names as [|x names]; [by left|right].
  rewrite build_app_join by done.
  change (build true mount) with BasePath.
  generalize (Str.join (x :: names)). intros rest.
  by destruct rest; vm_compute.
Qed.

(** X20.  From a tidy baseline and for a directory given as a cleaned path
    other than [.] and [/], every name in the data layer is the mount path
    or below it, the markers included. *)
Theorem layer_names_under_mount (order : range_order) (directory : string)
    (root : node) (m0 m' : Manifest) (layer : list tar.Entry) (delta : Z) :
  tidy m0 →
  Clean directory = directory → directory ≠ "." → directory ≠ "/" →
  valid_names root →
  writeNewFiles order directory root m0 = Ok (layer, delta, m') →
  Forall (λ e, under_mount (tar.Name (tar.header e))) layer.
Proof.
  intros Htidy Hclean Hdot Hroot Hvalid Hrun.
  destruct (writeNewFiles_inv _ _ _ _ _ _ _ Hrun)
    as (s1 & markers & Hv & _ & -> & _ & _ & Hmarkers).
  apply Forall_app. split.
  - destruct (visit_all_count _ _ _ _ Hv) as (rels & new & Hpaths & Htw & _ & Hnew).
    simpl in Htw, Hpaths. subst new.
    destruct (visit_all_allPaths _ _ _ _ Hv) as (rels' & Hall & Hpaths').
    simpl in Hpaths'. rewrite Hpaths in Hpaths'. subst rels'.
    eapply Forall_impl; [exact Hnew|]. intros e (rel & Hrel & _ & -> & _).
    apply list_elem_of_lookup in Hrel as [i Hi].
    destruct (Forall2_lookup_r _ _ _ _ _ Hall Hi) as ([path n] & Hc & Hr).
    apply list_elem_of_lookup_2 in Hc.
    destruct (walked_relative directory root path n) as (names & Hat & Hr');
      try done.
    simpl in Hr. rewrite Hr in Hr'. injection Hr' as ->.
    case_bool_decide as Hn; [by left|].
    rewrite Join_mount by (done || by eapply Hvalid).
    apply under_mount_build.
  - eapply Forall_impl; [exact Hmarkers|]. intros e (p & Hp & -> & _).
    apply elem_of_Missing in Hp as [Hk Hout]. cbn [whiteout_header tar.Name].
    assert (∃ names, names ≠ [] ∧ Forall real names ∧ p = Str.join names)
      as (names & Hne & Hreal & ->).
    { destruct (visit_all_keys _ _ _ _ Hv) as (rels & Hpaths & Hkeys).
      simpl in Hpaths. subst rels. apply Hkeys in Hk as [Hk|Hk].
      + destruct (Htidy p Hk) as [->|?]; [|done]. simpl in Hk.
        destruct Hout.
        destruct (visit_all_seen _ _ _ _ directory root "." Hv) as [Hseen _].
        { destruct (walk_root directory root) as (rest & ->). by left. }
        { apply relative_root. }
        apply list_elem_of_fmap. by exists ".".
      + by destruct Hout. }
    destruct names as [|x l _] using rev_ind; [done|].
    rewrite (whiteout_name_build l x Hreal), <- app_assoc.
    apply under_mount_build.
Qed.

End names.

Lemma gone_baseline_tidy : tidy gone_baseline.
Proof.
  intros k Hk.
  change (k ∈ dom (list_to_map [(".", ""); ("gone", ""); ("gone/x", "0a1b")]
                   : gmap string string)) in Hk.
  rewrite dom_list_to_map_L in Hk. cbn [fmap list_fmap fst list_to_set foldr] in Hk.
  apply elem_of_union in Hk as [Hk|Hk]; [apply elem_of_singleton in Hk as ->; by left|].
  apply elem_of_union in Hk as [Hk|Hk].
  { apply elem_of_singleton in Hk as ->. right. exists ["gone"].
    split; [done|]. split; [by repeat constructor|done]. }
  apply elem_of_union in Hk as [Hk|Hk]; [|set_solver].
  apply elem_of_singleton in Hk as ->. right. exists ["gone"; "x"].
  split; [done|]. split; [by repeat constructor|done].
Qed.

Definition first_layer : list tar.Entry :=
  Eval vm_compute in
    match kontext.writeNewFiles (H := example_hasher) range_default "/src"
            small_tree gone_baseline with
    | Ok (layer, _, _) => layer
    | _ => []
    end.

Lemma layer_names_under_mount_witness :
  Forall (λ e, under_mount (tar.Name (tar.header e))) first_layer.
Proof.
  eapply (layer_names_under_mount (H := example_hasher) range_default "/src"
            small_tree gone_baseline).
  - apply gone_baseline_tidy.
  - done.
  - done.
  - done.
  - apply small_tree_valid.
  - vm_compute. reflexivity.
Defined.

(** A baseline that is not tidy: for the key [..] the marker is written
    outside the mount path. *)
Example dotdot_key_marks_outside_mount :
  ∃ layer delta m',
    kontext.writeNewFiles (H := example_hasher) range_default "/src" empty_dir
      {| Files := Some (list_to_map [(".", ""); ("..", "")]) |}
    = Ok (layer, delta, m') ∧
    tar.Name <$> (tar.header <$> layer) = ["/var/.wh.run"].
Proof. do 3 eexists. split; [by vm_compute|]. by vm_compute. Qed.

(** ** More on the extractor *)

Section more_extraction.
Context (umask : Z).
Import os disk extractor extractor_frame.

Lemma take_take n k s : Str.take n (Str.take k s) = Str.take (Nat.min n k) s.
Proof.
  revert k s. induction n as [|n IH]; intros [|k] [|c s]; simpl; try done.
  by rewrite IH.
Qed.

(** X21.  [MkdirAll] changes nothing that is there: when it returns without
    an error the path is a directory, and what it has added are directories
    with the permission bits given (less the umask), at initial parts of the
    path. *)
Theorem MkdirAll_only_adds (p : string) (perm : Z) (d d' : tree) :
  MkdirAll umask p perm d = Ok d' →
  is_dir d' p = true ∧
  ∀ q, d' !! q = d !! q ∨
       (d !! q = None ∧ d' !! q = Some (Directory (created umask perm)) ∧
        ∃ n, q = Str.take n p).
Proof.
  unfold MkdirAll. generalize (String.length p). intros f.
  revert p d d'. induction f as [|f IH]; intros p d d'.
  - cbn [MkdirAll_from]. destruct (d !! p) as [[|m]|] eqn:Hp; try done.
    intros [= <-]. split; [by unfold is_dir; rewrite Hp|]. by left.
  - destruct (d !! p) as [[|m]|] eqn:Hp.
    + cbn [MkdirAll_from]. by rewrite Hp.
    + cbn [MkdirAll_from]. rewrite Hp. intros [= <-].
      split; [by unfold is_dir; rewrite Hp|]. by left.
    + rewrite MkdirAll_from_absent by done. cbv zeta.
      set (j := Str.last_slash (Str.trim_slashes p)).
      intros Hrun. apply bind_Ok in Hrun as (d1 & Hparent & Hrun).
      assert (∀ q, d1 !! q = d !! q ∨
                (d !! q = None ∧
                 d1 !! q = Some (Directory (created umask perm)) ∧
                 ∃ n, q = Str.take n p)) as H1.
      { destruct (1 <? j)%nat.
        - apply IH in Hparent as [_ Hq]. intros q.
          destruct (Hq q) as [?|(? & ? & n & ->)]; [by left|right].
          split; [done|]. split; [done|]. rewrite take_take. eauto.
        - injection Hparent as <-. by left. }
      destruct (Mkdir umask p perm d1) as [d2|e|e] eqn:Hmk; [| |done].
      * injection Hrun as <-. apply Mkdir_Ok in Hmk as (Hp1 & _ & ->).
        split; [apply is_dir_insert|]. intros q.
        destruct (decide (q = p)) as [->|Hne].
        -- right. rewrite lookup_insert_eq. split; [done|]. split; [done|].
           exists (String.length p). by rewrite take_all.
        -- rewrite lookup_insert_ne by done. apply H1.
      * destruct (is_dir d1 p) eqn:Hd; [|done]. injection Hrun as <-. done.
Qed.

(** *** Nothing is written outside the workspace *)

Lemma under_target_inside names :
  String.prefix TargetPath (under_target names) = true.
Proof.
  destruct names as [|x names]; [done|].
  unfold under_target. rewrite build_rooted, join_cons by done.
  generalize (Str.join (x :: names)). intros rest. by destruct rest; vm_compute.
Qed.

Lemma same_outside_refl d : same_outside d d.
Proof. by intros p _. Qed.

Lemma same_outside_trans d1 d2 d3 :
  same_outside d1 d2 → same_outside d2 d3 → same_outside d1 d3.
Proof. intros H1 H2 p Hp. by rewrite H2, H1. Qed.

Lemma same_outside_insert d names o :
  same_outside d (<[under_target names := o]> d).
Proof.
  intros p Hp. apply lookup_insert_ne. intros <-.
  by rewrite under_target_inside in Hp.
Qed.

Lemma visit_entry_outside names x n s s' :
  Forall real (names ++ [x]) →
  names = [] ∨ is_dir (files s) (under_target names) = true →
  visit umask s (fold_left Join (names ++ [x]) BasePath, n) = Ok s' →
  same_outside (files s) (files s').
Proof.
  intros Hreal Hparent.
  assert (Forall real names) as Hnames by by apply Forall_app in Hreal as [? _].
  pose proof (Dir_under_target names x Hreal) as Hdir.
  set (l := names ++ [x]) in *.
  assert (l ≠ []) as Hne by by destruct names.
  destruct (walk_path_relative l Hne Hreal) as [Hpath Hrel].
  unfold visit. rewrite bool_decide_eq_false_2 by done. rewrite Hrel.
  cbn [bind]. rewrite Join_target by done.
  destruct n as [perm data|perm entries|t|perm];
    cbn [Lstat IsDir IsRegular Perm negb]; intros Hrun.
  3,4: injection Hrun as <-; apply same_outside_refl.
  - apply bind_Ok in Hrun as (d1 & Hmk & Hrun).
    apply bind_Ok in Hrun as (d2 & Hcopy & Hrun). injection Hrun as <-.
    unfold copy in Hcopy. cbn [ReadAll bind] in Hcopy.
    apply bind_Ok in Hcopy as (d3 & Hopen & Hcopy). injection Hcopy as <-.
    rewrite Hdir in Hmk. apply parent_made in Hmk; [|done|done].
    destruct (open_write umask _ _ data _ _ Hopen) as (o & -> & _).
    cbn [files]. eapply same_outside_trans; [|apply same_outside_insert].
    destruct Hmk as [[-> _]|(_ & _ & ->)]; [apply same_outside_refl|].
    apply (same_outside_insert _ []).
  - apply bind_Ok in Hrun as (d1 & Hmk & Hrun). injection Hrun as <-.
    apply MkdirAll_entry in Hmk; [|done|done]. cbv zeta in Hmk. fold l in Hmk.
    cbn [files].
    destruct Hmk as [[_ ->]|[(_ & _ & ->)|(_ & _ & _ & ->)]].
    + apply same_outside_refl.
    + apply same_outside_insert.
    + eapply same_outside_trans; [|apply same_outside_insert].
      apply (same_outside_insert _ []).
Qed.

Lemma children_inside l entries :
  Forall (λ e, walk_inside umask e.2) entries →
  Forall real l →
  (∀ name child, (name, child) ∈ entries →
     real name ∧ valid_names child ∧ unique_names child) →
  ∀ subs, (∀ e, e ∈ subs → e ∈ entries) →
  ∀ s s',
    l = [] ∨ is_dir (files s) (under_target l) = true →
    visit_all umask s
      (flat_map (λ e, Walk.walk (Join (fold_left Join l BasePath) e.1) e.2) subs)
    = Ok s' →
    same_outside (files s) (files s').
Proof.
  intros IH Hl Hentries subs. induction subs as [|[name child] subs IHs];
    intros Hsub s s' Hparent Hrun.
  - injection Hrun as <-. apply same_outside_refl.
  - cbn [flat_map fst snd] in Hrun.
    apply extractor_visit_all_app in Hrun as (s1 & Hchild & Hrest).
    assert ((name, child) ∈ entries) as Hin by (apply Hsub; by left).
    destruct (Hentries _ _ Hin) as (Hreal & Hv & Hu).
    assert (Forall real (l ++ [name])) as Hl'.
    { apply Forall_app. split; [done|by constructor]. }
    assert (walk_inside umask child) as Hok.
    { rewrite Forall_forall in IH. apply (IH (name, child)), Hin. }
    replace (Join (fold_left Join l BasePath) name)
      with (fold_left Join (l ++ [name]) BasePath) in Hchild
      by by rewrite fold_left_app.
    pose proof (Hok l name s s1 Hl' Hv Hu Hparent Hchild) as H1.
    destruct (walk_ok_all umask child l name s s1 Hl' Hv Hu Hparent Hchild)
      as [He1 _].
    eapply same_outside_trans; [exact H1|].
    apply IHs; [intros e He; apply Hsub; by right| |done].
    destruct Hparent as [?|Hd]; [by left|right].
    eapply effect_is_dir; [exact He1|done| |done].
    apply prefix_snoc_not_self.
Qed.

Lemma walk_inside_all n : walk_inside umask n.
Proof.
  induction n as [perm data|perm entries IH|t|perm content] using node_induction.
  2:{ intros names x s s' Hreal Hv Hu Hparent Hrun.
      set (l := names ++ [x]) in *.
      destruct (walk_children (fold_left Join l BasePath) perm entries)
        as (subs & Hperm & Hwalk).
      rewrite Hwalk in Hrun. cbn [visit_all] in Hrun.
      apply bind_Ok in Hrun as (s1 & Hvisit & Hrun).
      pose proof (visit_entry_outside _ _ _ _ _ Hreal Hparent Hvisit) as H1.
      apply visit_entry in Hvisit as [_ Hc1]; [|done|done]. fold l in Hc1.
      eapply same_outside_trans; [exact H1|].
      apply (children_inside l entries IH Hreal) with (subs := subs) (s := s1);
        try done.
      - intros name child Hin.
        destruct (valid_names_child _ _ _ _ Hv Hin) as [? ?].
        split; [done|]. split; [done|]. by eapply unique_names_child.
      - intros e. by rewrite Hperm.
      - right. by eapply copied_is_dir. }
  all: intros names x s s' Hreal _ _ Hparent Hrun.
  all: rewrite walk_single in Hrun by done; cbn [visit_all] in Hrun.
  all: apply bind_Ok in Hrun as (s1 & Hvisit & [= <-]).
  all: by eapply visit_entry_outside.
Qed.

(** X23.  On a file system without symbolic links the extractor writes in
    the workspace only: after a run that ends without an error, whatever is
    at a path that does not begin with the path of the workspace is as it
    was. *)
Theorem extractor_writes_inside_workspace (root : node) (d : tree)
    (s' : state) :
  valid_names root → unique_names root →
  main umask (Some root) d = Ok s' →
  ∀ p, String.prefix TargetPath p = false → files s' !! p = d !! p.
Proof.
  intros Hv Hu Hrun.
  assert ((∃ perm entries, root = Dir perm entries) ∨
          (∀ perm entries, root ≠ Dir perm entries))
    as [(perm & entries & ->)|Hleaf]
    by (destruct root; by eauto).
  - destruct (main_walk umask perm entries d)
      as (subs & Hperm & Hnd & Hentries & Hmain); [done|done|].
    apply Hmain in Hrun.
    apply (children_inside [] entries) with (subs := subs)
      (s := {| files := d; skipped := [] |}); try done.
    + apply Forall_forall. intros e _. apply walk_inside_all.
    + intros e. by rewrite Hperm.
    + by left.
  - unfold main in Hrun. rewrite walk_single in Hrun by done.
    cbn [visit_all visit] in Hrun.
    rewrite bool_decide_eq_true_2 in Hrun by done. by injection Hrun as <-.
Qed.

End more_extraction.

Definition two_deep : gmap string disk.entry :=
  Eval vm_compute in
    match disk.MkdirAll umask_022 "/workspace/a/b" 511 bare_disk with
    | Ok d => d
    | _ => bare_disk
    end.

Lemma MkdirAll_only_adds_witness :
  disk.is_dir two_deep "/workspace/a/b" = true ∧
  ∀ q, two_deep !! q = bare_disk !! q ∨
       (bare_disk !! q = None ∧
        two_deep !! q = Some (disk.Directory (disk.created umask_022 511)) ∧
        ∃ n, q = Str.take n "/workspace/a/b").
Proof.
  apply (MkdirAll_only_adds umask_022 "/workspace/a/b" 511 bare_disk two_deep).
  vm_compute. reflexivity.
Defined.

Definition small_extraction : extractor.state :=
  Eval vm_compute in
    match extractor.main umask_022 (Some small_tree) bare_disk with
    | Ok s => s
    | _ => {| extractor.files := bare_disk; extractor.skipped := [] |}
    end.

Lemma extractor_writes_inside_workspace_witness :
  extractor.files small_extraction !! "/etc/passwd" = bare_disk !! "/etc/passwd".
Proof.
  apply (extractor_writes_inside_workspace umask_022 small_tree bare_disk
           small_extraction).
  - apply small_tree_valid.
  - apply small_tree_unique.
  - vm_compute. reflexivity.
  - done.
Defined.

(** ** Links that lead nowhere *)

Section links.
Context `{Hasher}.
Import kontext os.

(** X24.  A symbolic link that leads nowhere, anywhere in the directory,
    makes [writeNewFiles] fail: [os.Stat] follows the link and returns an
    error, which ends the walk; nothing is returned to publish. *)
Theorem dangling_link_fails_run (order : range_order) (directory : string)
    (root : node) (m0 : Manifest) (names : list string) :
  at_path root names (Symlink None) →
  (∃ e, writeNewFiles order directory root m0 = Err e) ∨
  (∃ e, writeNewFiles order directory root m0 = Panic e).
Proof.
  intros Hat. unfold writeNewFiles.
  destruct (visit_all directory (initial m0) (Walk.walk directory root))
    as [s1|e|e] eqn:Hv; cbn [bind]; [|by eauto..].
  apply visit_all_reads in Hv. rewrite Forall_forall in Hv.
  destruct (Hv _ (walk_complete directory root names _ Hat))
    as (info & _ & _ & Hinfo & _).
  done.
Qed.

End links.

Definition broken_tree : os.node :=
  os.Dir mode_0555 [("a", os.Reg 420 "a's bytes"); ("latest", os.Symlink None)].

Lemma dangling_link_fails_run_witness :
  (∃ e, kontext.writeNewFiles (H := example_hasher) range_default "/src"
          broken_tree manifest.empty = Err e) ∨
  (∃ e, kontext.writeNewFiles (H := example_hasher) range_default "/src"
          broken_tree manifest.empty = Panic e).
Proof.
  apply (dangling_link_fails_run (H := example_hasher) range_default "/src"
           broken_tree manifest.empty ["latest"]).
  econstructor; [|constructor]. set_solver.
Defined.

(** ** What the extractor reports as skipped *)

Section skipping.
Context (umask : Z).
Import os disk extractor extractor_frame extractor_log.

Lemma visit_entry_skipped names x n s s' :
  Forall real (names ++ [x]) →
  visit umask s (fold_left Join (names ++ [x]) BasePath, n) = Ok s' →
  skipped s' =
  skipped s ++ (if IsDir (Lstat n) || IsRegular (Lstat n) then []
                else [Str.join (names ++ [x])]).
Proof.
  intros Hreal.
  assert (names ++ [x] ≠ []) as Hne by by destruct names.
  destruct (walk_path_relative _ Hne Hreal) as [Hpath Hrel].
  unfold visit. rewrite bool_decide_eq_false_2 by done. rewrite Hrel.
  cbn [bind].
  destruct n as [perm data|perm entries|t|perm];
    cbn [Lstat IsDir IsRegular Perm negb orb]; intros Hrun.
  - apply bind_Ok in Hrun as (d1 & _ & Hrun).
    apply bind_Ok in Hrun as (d2 & _ & Hrun). injection Hrun as <-.
    cbn. by rewrite app_nil_r.
  - apply bind_Ok in Hrun as (d1 & _ & Hrun). injection Hrun as <-.
    cbn. by rewrite app_nil_r.
  - by injection Hrun as <-.
  - by injection Hrun as <-.
Qed.

Lemma children_skipped l entries :
  Forall (λ e, walk_skips umask e.2) entries →
  Forall real l →
  (∀ name child, (name, child) ∈ entries → real name ∧ valid_names child) →
  ∀ subs, (∀ e, e ∈ subs → e ∈ entries) →
  ∀ s s',
    visit_all umask s
      (flat_map (λ e, Walk.walk (Join (fold_left Join l BasePath) e.1) e.2) subs)
    = Ok s' →
    ∃ more, skipped s' = skipped s ++ more ∧
      ∀ rel, rel ∈ more →
        ∃ name child ms n, (name, child) ∈ subs ∧ at_path child ms n ∧
          rel = Str.join (l ++ name :: ms) ∧
          IsDir (Lstat n) = false ∧ IsRegular (Lstat n) = false.
Proof.
  intros IH Hl Hentries subs. induction subs as [|[name child] subs IHs];
    intros Hsub s s' Hrun.
  - injection Hrun as <-. exists []. rewrite app_nil_r. split; [done|].
    intros rel Hin. by apply elem_of_nil in Hin.
  - cbn [flat_map fst snd] in Hrun.
    apply extractor_visit_all_app in Hrun as (s1 & Hchild & Hrest).
    assert ((name, child) ∈ entries) as Hin by (apply Hsub; by left).
    destruct (Hentries _ _ Hin) as (Hreal & Hv).
    assert (Forall real (l ++ [name])) as Hl'.
    { apply Forall_app. split; [done|by constructor]. }
    assert (walk_skips umask child) as Hok.
    { rewrite Forall_forall in IH. apply (IH (name, child)), Hin. }
    replace (Join (fold_left Join l BasePath) name)
      with (fold_left Join (l ++ [name]) BasePath) in Hchild
      by by rewrite fold_left_app.
    destruct (Hok l name s s1 Hl' Hv Hchild) as (more1 & E1 & H1).
    destruct (IHs (λ e He, Hsub e (list_elem_of_further _ _ _ He)) s1 s' Hrest)
      as (more2 & E2 & H2).
    exists (more1 ++ more2). split; [by rewrite E2, E1, app_assoc|].
    intros rel [Hrel|Hrel]%elem_of_app.
    + destruct (H1 rel Hrel) as (ms & n & Hat & -> & Hd & Hr).
      exists name, child, ms, n. rewrite <- app_assoc.
      split; [by left|done].
    + destruct (H2 rel Hrel) as (name' & child' & ms & n & Hin' & ?).
      exists name', child', ms, n. split; [by right|done].
Qed.

Lemma walk_skips_all n : walk_skips umask n.
Proof.
  induction n as [perm data|perm entries IH|t|perm content] using node_induction.
  2:{ intros names x s s' Hreal Hv Hrun.
      set (l := names ++ [x]) in *.
      destruct (walk_children (fold_left Join l BasePath) perm entries)
        as (subs & Hperm & Hwalk).
      rewrite Hwalk in Hrun. cbn [visit_all] in Hrun.
      apply bind_Ok in Hrun as (s1 & Hvisit & Hrun).
      apply visit_entry_skipped in Hvisit; [|done].
      cbn [Lstat IsDir orb] in Hvisit. rewrite app_nil_r in Hvisit.
      destruct (children_skipped l entries IH Hreal) with (subs := subs)
        (s := s1) (s' := s') as (more & E & Hmore); try done.
      - intros name child Hin. by eapply valid_names_child.
      - intros e. by rewrite Hperm.
      - exists more. split; [by rewrite E, Hvisit|].
        intros rel Hrel.
        destruct (Hmore rel Hrel) as (name & child & ms & n & Hin & Hat & ?).
        exists (name :: ms), n. split; [|done].
        econstructor; [|done]. by rewrite <- Hperm. }
  all: intros names x s s' Hreal _ Hrun.
  all: rewrite walk_single in Hrun by done; cbn [visit_all] in Hrun.
  all: apply bind_Ok in Hrun as (s1 & Hvisit & [= <-]).
  all: apply visit_entry_skipped in Hvisit; [|done].
  all: cbn [Lstat IsDir IsRegular orb] in Hvisit.
  all: eexists; split; [exact Hvisit|].
  all: intros rel Hrel; try (by apply elem_of_nil in Hrel).
  all: apply list_elem_of_singleton in Hrel as ->.
  all: eexists [], _; rewrite app_nil_r; split; [constructor|done].
Qed.

(** X25.  The extractor reports as skipped only what it does skip: after a
    run that ends without an error, every relative path in its log of
    skipped files belongs to an entry below the mount path that is neither a
    directory nor a regular file. *)
Theorem skipped_are_irregular (root : node) (d : tree) (s' : state)
    (rel : string) :
  valid_names root →
  main umask (Some root) d = Ok s' →
  rel ∈ skipped s' →
  ∃ names n, names ≠ [] ∧ at_path root names n ∧ rel = Str.join names ∧
             IsDir (Lstat n) = false ∧ IsRegular (Lstat n) = false.
Proof.
  intros Hv Hrun Hrel.
  assert ((∃ perm entries, root = Dir perm entries) ∨
          (∀ perm entries, root ≠ Dir perm entries))
    as [(perm & entries & ->)|Hleaf]
    by (destruct root; by eauto).
  - destruct (walk_children BasePath perm entries) as (subs & Hperm & Hwalk).
    unfold main in Hrun. rewrite Hwalk in Hrun. cbn [visit_all visit] in Hrun.
    rewrite bool_decide_eq_true_2 in Hrun by done. cbn [bind] in Hrun.
    destruct (children_skipped [] entries) with (subs := subs)
      (s := {| files := d; skipped := [] |}) (s' := s')
      as (more & E & Hmore); try done.
    + apply Forall_forall. intros e _. apply walk_skips_all.
    + intros name child Hin. by eapply valid_names_child.
    + intros e. by rewrite Hperm.
    + rewrite E in Hrel. cbn [skipped app] in Hrel.
      destruct (Hmore rel Hrel) as (name & child & ms & n & Hin & Hat & ?).
      exists (name :: ms), n. split; [done|]. split; [|done].
      econstructor; [|done]. by rewrite <- Hperm.
  - unfold main in Hrun. rewrite walk_single in Hrun by done.
    cbn [visit_all visit] in Hrun.
    rewrite bool_decide_eq_true_2 in Hrun by done. injection Hrun as <-.
    by apply elem_of_nil in Hrel.
Qed.

End skipping.

Definition mixed_extraction : extractor.state :=
  Eval vm_compute in
    match extractor.main umask_022 (Some mixed_tree) bare_disk with
    | Ok s => s
    | _ => {| extractor.files := bare_disk; extractor.skipped := [] |}
    end.

Lemma mixed_tree_valid : os.valid_names mixed_tree.
Proof.
  intros names n Hat. unfold mixed_tree in Hat.
  inversion Hat as [|perm entries name child names' n' Hin Hat']; subst;
    [constructor|].
  repeat (apply elem_of_cons in Hin as [Hin|Hin];
          [injection Hin as -> ->|]); [| | | |by apply elem_of_nil in Hin].
  2,3,4: inversion Hat'; subst; by repeat constructor.
  inversion Hat' as [|perm entries name child names'' n'' Hin' Hat'']; subst;
    [by repeat constructor|].
  apply list_elem_of_singleton in Hin'. injection Hin' as -> ->.
  inversion Hat''; subst. by repeat constructor.
Qed.

Lemma skipped_are_irregular_witness :
  ∃ names n, names ≠ [] ∧ os.at_path mixed_tree names n ∧
             "tty" = Str.join names ∧
             os.IsDir (os.Lstat n) = false ∧ os.IsRegular (os.Lstat n) = false.
Proof.
  apply (skipped_are_irregular umask_022 mixed_tree bare_disk mixed_extraction
           "tty").
  - apply mixed_tree_valid.
  - vm_compute. reflexivity.
  - vm_compute. apply list_elem_of_further, list_elem_of_here.
Defined.
